(** * Ontology utilities of the knowledge harvester (src/utils.py)

    A shallow embedding of the ontology-merge utility layer: the overlap
    primitive, the lexical normaliser [owl_name], the subtype/supertype
    oracle, and the [KnowledgeGraph] operations (root inference,
    reclassification, instance creation, merging, traversal).

    The ontology store itself is the third-party library owlready2.  Its
    classes and individuals are modelled by an explicit taxonomy and a finite
    map of individuals; the operations of the library that the utilities call
    ([ancestors], [descendants], [subclasses], [instances],
    [destroy_entity], the change callback of [is_instance_of], ...) are
    modelled next to the data, each with a note on the behaviour it stands
    for. *)

From stdpp Require Import gmap strings list fin_maps.

(** ** Python values and exceptions *)

(** A Python [str] is a sequence of Unicode code points. *)
Abbreviation pystr := (list N).

(** String literals of the source, written as Rocq strings. *)
Definition py (s : string) : pystr :=
  Ascii.N_of_ascii <$> String.list_ascii_of_string s.

Inductive exn := KeyError | ValueError.

(** Outcome of a call that may raise. *)
Inductive result (A : Type) :=
  | Ok (a : A)
  | Raise (e : exn).
Arguments Ok {A} a.
Arguments Raise {A} e.

Global Instance result_bind : MBind result := λ A B k r,
  match r with
  | Ok a => k a
  | Raise e => Raise e
  end.

(** [first(iterable)]: the first item; [None] stands for the
    [StopIteration] raised on an empty iterable. *)
Definition first {A} (iterable : list A) : option A :=
  match iterable with
  | [] => None
  | x :: _ => Some x
  end.

(** [first_or_none(iterable)]: [first], with the exception turned into
    Python's [None]. *)
Definition first_or_none {A} (iterable : list A) : option A :=
  match first iterable with
  | Some x => Some x
  | None => None
  end.

(** [list.remove(x)]: drops the first occurrence; [None] stands for the
    [ValueError] Python raises when [x] is absent. *)
Fixpoint list_remove `{EqDecision A} (x : A) (l : list A) : option (list A) :=
  match l with
  | [] => None
  | y :: l' => if decide (x = y) then Some l' else (y ::.) <$> list_remove x l'
  end.

(** ** [overlap] *)

Section overlap.
Context `{Countable A}.

(** The local variables of [overlap]; an iterator is the list of items it
    has not produced yet. *)
Record overlap_state := OverlapState {
  iter_a : list A;
  iter_b : list A;
  met_in_a : gset A;
  met_in_b : gset A;
  over_a : bool;
  over_b : bool
}.

Inductive control :=
  | Returned (r : bool)
  | Running (s : overlap_state).

(** [if not over_a: try: item_a = next(iter_a) ...] *)
Definition advance_a (s : overlap_state) : control :=
  if over_a s then Running s
  else match iter_a s with
       | [] =>
           Running (OverlapState [] (iter_b s) (met_in_a s) (met_in_b s)
                      true (over_b s))
       | item_a :: rest =>
           if bool_decide (item_a ∈ met_in_b s) then Returned true
           else Running (OverlapState rest (iter_b s)
                           ({[item_a]} ∪ met_in_a s) (met_in_b s)
                           (over_a s) (over_b s))
       end.

(** [if not over_b: try: item_b = next(iter_b) ...] *)
Definition advance_b (s : overlap_state) : control :=
  if over_b s then Running s
  else match iter_b s with
       | [] =>
           Running (OverlapState (iter_a s) [] (met_in_a s) (met_in_b s)
                      (over_a s) true)
       | item_b :: rest =>
           if bool_decide (item_b ∈ met_in_a s) then Returned true
           else Running (OverlapState (iter_a s) rest
                           (met_in_a s) ({[item_b]} ∪ met_in_b s)
                           (over_a s) (over_b s))
       end.

(** One pass through the body of the [while]. *)
Definition overlap_round (s : overlap_state) : control :=
  match advance_a s with
  | Returned r => Returned r
  | Running s' => advance_b s'
  end.

(** [while not (over_a and over_b): ...; return False].  [None] means the
    bound on the number of rounds was reached before the loop ended. *)
Fixpoint overlap_loop (fuel : nat) (s : overlap_state) : option bool :=
  if over_a s && over_b s then Some false
  else match fuel with
       | 0 => None
       | S fuel' =>
           match overlap_round s with
           | Returned r => Some r
           | Running s' => overlap_loop fuel' s'
           end
       end.

Definition overlap_init (a b : list A) : overlap_state :=
  OverlapState a b ∅ ∅ false false.

(** Rounds needed on finite inputs: every round consumes an item or marks
    an iterator as finished. *)
Definition overlap_rounds (a b : list A) : nat :=
  S (S (length a + length b)).

Definition overlap (a b : list A) : bool :=
  default false (overlap_loop (overlap_rounds a b) (overlap_init a b)).

(** What the loop maintains: no item met on one side has been met on the
    other, and a finished iterator has nothing left. *)
Definition overlap_inv (s : overlap_state) : Prop :=
  met_in_a s ## met_in_b s
  ∧ (over_a s = true → iter_a s = [])
  ∧ (over_b s = true → iter_b s = []).

(** Decreases with every round of the loop. *)
Definition overlap_measure (s : overlap_state) : nat :=
  length (iter_a s) + length (iter_b s)
  + (if over_a s then 0 else 1) + (if over_b s then 0 else 1).

(** The two sides, items met and items still to come, share an item. *)
Definition shares (s : overlap_state) : Prop :=
  ∃ x, (x ∈ met_in_a s ∨ x ∈ iter_a s) ∧ (x ∈ met_in_b s ∨ x ∈ iter_b s).
End overlap.

(** ** Strings: [replace_symbols_with] and [owl_name] *)

(** What Python and [unidecode] do with code points outside ASCII.  None of
    it is fixed here: the transliteration table and the Unicode character
    database are parameters. *)
Record unicode_db := UnicodeDb {
  unidecode_table : N → pystr;   (* transliteration of a non-ASCII code point *)
  uni_isspace : N → bool;        (* [str.isspace] outside ASCII *)
  uni_isdecimal : N → bool;      (* regex [\d] outside ASCII *)
  uni_lower : N → pystr;         (* [str.lower] outside ASCII *)
  uni_title : N → pystr          (* first character of [str.capitalize] *)
}.

Definition is_ascii (c : N) : bool := (c <? 128)%N.

Definition in_range (lo hi c : N) : bool := ((lo <=? c) && (c <=? hi))%N.

Section strings.
Variable db : unicode_db.

(** [unidecode.unidecode]: ASCII is kept, every other code point is
    replaced by its table entry. *)
Definition unidecode (s : pystr) : pystr :=
  c ← s; if is_ascii c then [c] else unidecode_table db c.

(** Whitespace for [str.strip()]: TAB..CR, FS..US and space in ASCII. *)
Definition isspace (c : N) : bool :=
  if is_ascii c then in_range 9 13 c || in_range 28 32 c
  else uni_isspace db c.

Fixpoint lstrip (s : pystr) : pystr :=
  match s with
  | [] => []
  | c :: s' => if isspace c then lstrip s' else s
  end.

Definition strip (s : pystr) : pystr :=
  reverse (lstrip (reverse (lstrip s))).

(** Characters outside [PATTERN_SYMBOLS = [^A-Za-z\d_]]. *)
Definition is_word_char (c : N) : bool :=
  in_range 65 90 c || in_range 97 122 c
  || (if is_ascii c then in_range 48 57 c else uni_isdecimal db c)
  || bool_decide (c = 95%N).

(** [PATTERN_SYMBOLS.sub(replacement, name)] for a replacement without a
    backslash, which [re.sub] inserts as it stands.  (A backslash in the
    replacement starts an escape or a group reference; [owl_name] passes
    ["_"].) *)
Definition pattern_symbols_sub (replacement name : pystr) : pystr :=
  c ← name; if is_word_char c then [c] else replacement.

Definition endswith (s suffix : pystr) : bool :=
  bool_decide (suffix `suffix_of` s).

(** [while replaced.endswith(replacement): replaced = replaced[:-1]],
    bounded by the number of characters that can be dropped.  With a
    non-empty replacement the loop has ended by then (see
    [replace_symbols_with_ends]); with the empty string as replacement the
    Python loop never ends. *)
Fixpoint drop_trailing (fuel : nat) (replaced replacement : pystr) : pystr :=
  match fuel with
  | 0 => replaced
  | S fuel' =>
      if endswith replaced replacement
      then drop_trailing fuel' (removelast replaced) replacement
      else replaced
  end.

Definition replace_symbols_with (name replacement : pystr) : pystr :=
  let replaced := pattern_symbols_sub replacement name in
  drop_trailing (length replaced) replaced replacement.

Definition lower_char (c : N) : pystr :=
  if is_ascii c then [if in_range 65 90 c then (c + 32)%N else c]
  else uni_lower db c.

(** [str.lower()], one code point at a time: exact on ASCII, which is what
    reaches it after [unidecode]. *)
Definition lower (s : pystr) : pystr := c ← s; lower_char c.

Definition upper_first (c : N) : pystr :=
  if is_ascii c then [if in_range 97 122 c then (c - 32)%N else c]
  else uni_title db c.

(** [str.capitalize()]: first character upper-cased, the rest lower-cased. *)
Definition capitalize (s : pystr) : pystr :=
  match s with
  | [] => []
  | c :: s' => upper_first c ++ lower s'
  end.

Definition owl_name (name : pystr) (instance : bool) : pystr :=
  let name := unidecode name in
  let name := strip name in
  let name := replace_symbols_with name (py "_") in
  let name := lower name in
  if negb instance then capitalize name else name.

(** The steps of [owl_name] before the optional [capitalize]. *)
Definition normalise (name : pystr) : pystr :=
  lower (replace_symbols_with (strip (unidecode name)) (py "_")).
End strings.

(** Shapes of identifiers, used to state what [owl_name] produces: ASCII
    characters of the class [[A-Za-z0-9_]], and strings of them that do not
    end with an underscore. *)
Definition ascii_word (c : N) : bool :=
  in_range 65 90 c || in_range 97 122 c || in_range 48 57 c
  || bool_decide (c = 95%N).

Definition identifier (s : pystr) : Prop :=
  Forall (λ c, ascii_word c = true) s ∧ last s ≠ Some 95%N.

Definition lower_ascii (c : N) : N :=
  if in_range 65 90 c then (c + 32)%N else c.

Definition upper_ascii (c : N) : N :=
  if in_range 97 122 c then (c - 32)%N else c.

(** The transliteration table of [unidecode] only produces ASCII. *)
Definition table_ascii (db : unicode_db) : Prop :=
  ∀ c, Forall (λ x, is_ascii x = true) (unidecode_table db c).

(** ** The ontology store (owlready2) *)

(** Python class objects the utilities handle: [owlready.Thing], the named
    classes of the ontology, and [owlready.ThingClass], the metaclass of all
    of them (itself no class of any taxonomy). *)
Inductive pyclass :=
  | Thing
  | ThingClass
  | Named (name : string).

Global Instance pyclass_eq_dec : EqDecision pyclass.
Proof. solve_decision. Defined.

Global Instance pyclass_countable : Countable pyclass.
Proof.
  refine (inj_countable'
    (λ c, match c with
          | Thing => inl ()
          | ThingClass => inr (inl ())
          | Named n => inr (inr n)
          end)
    (λ x, match x with
          | inl _ => Thing
          | inr (inl _) => ThingClass
          | inr (inr n) => Named n
          end) _).
  by intros [].
Defined.

(** The named classes, most recent declaration first; each comes with the
    names of its direct named superclasses.  A class without any sits
    directly under [Thing].  As for Python classes, the bases of a class
    exist before the class does. *)
Abbreviation taxonomy := (list (string * list string)).

Fixpoint wf_taxonomy (t : taxonomy) : bool :=
  match t with
  | [] => true
  | (n, parents) :: t' =>
      bool_decide (n ∉ t'.*1)
      && bool_decide (Forall (λ p, p ∈ t'.*1) parents)
      && wf_taxonomy t'
  end.

Definition declared (t : taxonomy) (c : pyclass) : bool :=
  match c with
  | Thing => true
  | ThingClass => false
  | Named n => bool_decide (n ∈ t.*1)
  end.

(** [onto.classes()], in declaration order. *)
Definition classes (t : taxonomy) : list pyclass :=
  Named <$> reverse (t.*1).

(** The named classes strictly above [n]. *)
Fixpoint named_ancestors (t : taxonomy) (n : string) : gset string :=
  match t with
  | [] => ∅
  | (m, parents) :: t' =>
      if decide (n = m)
      then list_to_set parents ∪ ⋃ (named_ancestors t' <$> parents)
      else named_ancestors t' n
  end.

(** [cls.ancestors(include_self)]: a Python set.  [Thing] is above every
    class of the ontology. *)
Definition ancestors (t : taxonomy) (cls : pyclass) (include_self : bool)
    : gset pyclass :=
  (if include_self then {[cls]} else ∅) ∪
  match cls with
  | Named n =>
      if declared t cls then {[Thing]} ∪ set_map Named (named_ancestors t n)
      else ∅
  | _ => ∅
  end.

(** The named classes strictly below [n]: a class is below [n] when one of
    its direct superclasses is [n] or is below [n]. *)
Fixpoint named_descendants (t : taxonomy) (n : string) : gset string :=
  match t with
  | [] => ∅
  | (m, parents) :: t' =>
      let below := named_descendants t' n in
      if bool_decide (Exists (λ p, p = n ∨ p ∈ below) parents)
      then {[m]} ∪ below
      else below
  end.

(** [cls.descendants(include_self)]: a Python set. *)
Definition descendants (t : taxonomy) (cls : pyclass) (include_self : bool)
    : gset pyclass :=
  (if include_self then {[cls]} else ∅) ∪
  match cls with
  | Thing => list_to_set (Named <$> t.*1)
  | ThingClass => ∅
  | Named n => set_map Named (named_descendants t n)
  end.

(** [cls.subclasses()]: the direct subclasses, in declaration order. *)
Definition subclasses (t : taxonomy) (cls : pyclass) : list pyclass :=
  match cls with
  | Thing =>
      Named <$> (filter (λ d, d.2 = []) (reverse t)).*1
  | ThingClass => []
  | Named n =>
      Named <$> (filter (λ d, n ∈ d.2) (reverse t)).*1
  end.

(** Property values: individuals (by name), classes, or literals. *)
Inductive value :=
  | Ind (name : pystr)
  | Cls (c : pyclass)
  | Lit (s : pystr).

Global Instance value_eq_dec : EqDecision value.
Proof. solve_decision. Defined.

(** An individual: the list behind [is_instance_of] and, per property name,
    the list [getattr] returns. *)
Record individual := Individual {
  is_instance_of : list pyclass;
  properties : gmap string (list value)
}.

(** The loaded ontology: its classes, whether it declares the annotation
    property [fancyName], and its individuals by name.  An individual is
    referred to by its name. *)
Record world := World {
  onto : taxonomy;
  onto_fancyName : bool;
  individuals : gmap pystr individual
}.

(** [is_instance_of] is a callback list ([CallbackList]): after every
    mutation owlready2 runs [Thing._instance_is_a_changed], which puts
    [Thing] at index 0 when no class is left.  This is how [Thing] comes to
    stand next to another class, the situation that the last step of
    [set_class_of_instance] looks for. *)
Definition instance_is_a_changed (is_a : list pyclass) : list pyclass :=
  match is_a with
  | [] => [Thing]
  | _ => is_a
  end.

(** [instance.is_instance_of.remove(c)] *)
Definition is_a_remove (c : pyclass) (is_a : list pyclass)
    : result (list pyclass) :=
  match list_remove c is_a with
  | None => Raise ValueError
  | Some is_a' => Ok (instance_is_a_changed is_a')
  end.

(** [instance.is_instance_of.append(c)] *)
Definition is_a_append (c : pyclass) (is_a : list pyclass) : list pyclass :=
  instance_is_a_changed (is_a ++ [c]).

(** [isinstance(individual, cls)]: one of the direct classes is [cls] or
    below it. *)
Definition isinstance (t : taxonomy) (i : individual) (cls : pyclass) : bool :=
  bool_decide (Exists (λ c, c ∈ descendants t cls true) (is_instance_of i)).

(** [cls.instances()]: the individuals of [cls] and of the classes below
    it. *)
Definition instances (w : world) (cls : pyclass) : list pystr :=
  (filter (λ e, isinstance (onto w) e.2 cls) (map_to_list (individuals w))).*1.

(** [getattr(instance, property)]: the values, [[]] when there are none. *)
Definition getattr (w : world) (instance : pystr) (property : string)
    : list value :=
  match individuals w !! instance with
  | Some i => default [] (properties i !! property)
  | None => []
  end.

(** The list behind [getattr(instance, property)] after a mutation. *)
Definition setattr (w : world) (instance : pystr) (property : string)
    (values : list value) : world :=
  World (onto w) (onto_fancyName w)
    (alter (λ i, Individual (is_instance_of i)
                   (<[property := values]> (properties i)))
       instance (individuals w)).

(** [instance.get_properties()]: the properties with at least one value. *)
Definition get_properties (w : world) (instance : pystr) : list string :=
  match individuals w !! instance with
  | Some i => (filter (λ e, e.2 ≠ []) (map_to_list (properties i))).*1
  | None => []
  end.

(** [owlready.destroy_entity(instance)]: the individual goes, and so does
    every relation that points to it. *)
Definition destroy_entity (w : world) (instance : pystr) : world :=
  World (onto w) (onto_fancyName w)
    ((λ i, Individual (is_instance_of i)
             (filter (λ v, v ≠ Ind instance) <$> properties i))
       <$> delete instance (individuals w)).

(** [cls(name)]: a new individual of [cls]; when the name is taken, the
    existing individual, with [cls] added to its classes.  For an empty
    name owlready2 makes up a name from the class name and a number;
    [numbered_name] stands for that choice. *)
Definition new_individual (numbered_name : world → pyclass → pystr)
    (w : world) (cls : pyclass) (name : pystr) : world * pystr :=
  let name := match name with
              | [] => numbered_name w cls
              | _ => name
              end in
  (World (onto w) (onto_fancyName w)
     (match individuals w !! name with
      | Some i =>
          <[name := Individual (is_a_append cls (is_instance_of i))
                      (properties i)]> (individuals w)
      | None => <[name := Individual [cls] ∅]> (individuals w)
      end),
   name).

(** ** [subtype] and [supertype] *)

Definition subtype (t : taxonomy) (cls1 cls2 : pyclass) (strict : bool) : bool :=
  overlap [cls1] (elements (descendants t cls2 (negb strict))).

Definition supertype (t : taxonomy) (cls1 cls2 : pyclass) (strict : bool) : bool :=
  overlap [cls1] (elements (ancestors t cls2 (negb strict))).

(** ** [KnowledgeGraph] *)

(** [first(things)] cannot raise where it is called: [things] has one
    element there. *)
Definition _find_root_class (t : taxonomy) : pyclass :=
  let things :=
    foldl (λ (things : gset pyclass) cls,
             if bool_decide (ancestors t cls true = {[Thing; cls]})
             then {[cls]} ∪ things else things)
      ∅ (classes t) in
  if bool_decide (size things = 1)
  then default Thing (first (elements things))
  else Thing.

(** [property] is the name of the property; the subject is an individual.
    The property is one the ontology declares: on any other name [getattr]
    raises [AttributeError] and nothing is stored. *)

Definition add_property (w : world) (cls_or_instance : pystr)
    (property : string) (value : value) : world :=
  let property_values := getattr w cls_or_instance property in
  if bool_decide (value ∉ property_values)
  then setattr w cls_or_instance property (property_values ++ [value])
  else w.

(** [for type in too_generic_types: instance.is_instance_of.remove(type)] *)
Fixpoint remove_types (types is_a : list pyclass) : result (list pyclass) :=
  match types with
  | [] => Ok is_a
  | type :: types' => is_a' ← is_a_remove type is_a; remove_types types' is_a'
  end.

(** The body of [set_class_of_instance], on the list behind
    [instance.is_instance_of].  The sets [initial] and [final] of the source
    are local copies; what is done to them does not reach the store.  The
    last test is the one of the source: membership of the metaclass
    [owlready.ThingClass], then removal of [owlready.Thing]. *)
Definition set_class_of_is_a (t : taxonomy) (is_a : list pyclass)
    (cls : pyclass) : result (list pyclass) :=
  let too_generic_types := filter (λ c, supertype t c cls true) is_a in
  let too_specific_types := filter (λ c, subtype t c cls false) is_a in
  is_a ← (if bool_decide (0 < length too_generic_types)
          then remove_types too_generic_types is_a
          else Ok is_a);
  let is_a := if bool_decide (length too_specific_types = 0)
              then is_a_append cls is_a else is_a in
  if bool_decide (1 < length is_a) && bool_decide (ThingClass ∈ is_a)
  then is_a_remove Thing is_a
  else Ok is_a.

(** [set_class_of_instance] on the store; a name that refers to no
    individual leaves the store as it is. *)
Definition set_class_of_instance (w : world) (instance : pystr)
    (cls : pyclass) : result world :=
  match individuals w !! instance with
  | None => Ok w
  | Some i =>
      is_a ← set_class_of_is_a (onto w) (is_instance_of i) cls;
      Ok (World (onto w) (onto_fancyName w)
            (<[instance := Individual is_a (properties i)]> (individuals w)))
  end.

Section add_instance.
Variable db : unicode_db.
Variable numbered_name : world → pyclass → pystr.

(** [cls] is the class itself, a class of the ontology (for a name the
    source looks it up with [self.onto[cls]]).  The [KeyError] is the error the
    specification calls DuplicateInstance. *)
Definition add_instance (w : world) (cls : pyclass) (name : pystr)
    (add_to_class_if_existing : bool) : result (world * pystr) :=
  let fancy_name := name in
  let name := owl_name db name true in
  found ← match first_or_none
                  (filter (λ i, i = name) (instances w cls)) with
          | Some instance =>
              if add_to_class_if_existing
              then w' ← set_class_of_instance w instance cls;
                   Ok (w', instance)
              else Raise KeyError
          | None => Ok (new_individual numbered_name w cls name)
          end;
  let '(w, instance) := found in
  if onto_fancyName w && bool_decide (name ≠ fancy_name)
  then Ok (add_property w instance "fancyName" (Lit fancy_name), instance)
  else Ok (w, instance).
End add_instance.

(** The result and the store after the call. *)
Definition merge_instances (w : world) (instance1 instance2 : pystr)
    (cls : pyclass) : bool * world :=
  let all_instances := instances w cls in
  if negb (bool_decide (instance1 ∈ all_instances)) then (false, w)
  else if negb (bool_decide (instance2 ∈ all_instances)) then (false, w)
  else
    let w :=
      foldl (λ w prop,
               if bool_decide (prop ≠ "fancyName")
               then let prop_values := getattr w instance2 prop in
                    foldl (λ w value, add_property w instance1 prop value)
                      w prop_values
               else w)
        w (get_properties w instance2) in
    (true, destroy_entity w instance2).

(** The sequence [visit_classes_depth_first] yields.  [fuel] bounds the
    depth of the recursion; [None] means the bound was reached. *)
Fixpoint visit_classes_depth_first (fuel : nat) (t : taxonomy)
    (root : option pyclass) (postorder : bool) : option (list pyclass) :=
  match fuel with
  | 0 => None
  | S fuel' =>
      let root := match root with
                  | None => _find_root_class t
                  | Some root => root
                  end in
      below ← mapM (λ child, visit_classes_depth_first fuel' t
                               (Some child) postorder)
                (subclasses t root);
      Some ((if postorder then [] else [root]) ++ concat below
            ++ (if postorder then [root] else []))
  end.

(** ** Notions used to state the properties of the traversal *)

(** [strictly_below t p d]: [d] is reached from [p] by one or more steps to
    a direct subclass. *)
Inductive strictly_below (t : taxonomy) : pyclass → pyclass → Prop :=
  | below_child p d :
      d ∈ subclasses t p → strictly_below t p d
  | below_step p c d :
      c ∈ subclasses t p → strictly_below t c d → strictly_below t p d.

(** Wherever a class occurs in the sequence, everything strictly below it
    has occurred before ([parents_last]) or occurs afterwards
    ([parents_first]). *)
Definition parents_last (t : taxonomy) (l : list pyclass) : Prop :=
  ∀ l1 p l2 d, l = l1 ++ p :: l2 → strictly_below t p d → d ∈ l1.

Definition parents_first (t : taxonomy) (l : list pyclass) : Prop :=
  ∀ l1 p l2 d, l = l1 ++ p :: l2 → strictly_below t p d → d ∈ l2.

(** Position of a declaration, counted from the most recent one. *)
Fixpoint class_index (t : taxonomy) (n : string) : nat :=
  match t with
  | [] => 0
  | (m, _) :: t' => if decide (n = m) then 0 else S (class_index t' n)
  end.

(** A bound on the depth of the hierarchy below a class. *)
Definition depth_below (t : taxonomy) (c : pyclass) : nat :=
  match c with
  | Thing => length t
  | ThingClass => 0
  | Named n => class_index t n
  end.

(** ** Data of the scenarios *)

(** The chain [Animal] ⊃ [Bird] ⊃ [Penguin]. *)
Definition animal_chain : taxonomy :=
  [("Penguin", ["Bird"]); ("Bird", ["Animal"]); ("Animal", [])]%string.

(** A transliteration table and character database that map every
    non-ASCII code point to a question mark and know no spaces, digits or
    cased letters outside ASCII. *)
Definition question_mark_db : unicode_db :=
  UnicodeDb (λ _, py "?") (λ _, false) (λ _, false) (λ _, py "?") (λ _, py "?").

(** A naming scheme for unnamed individuals that always answers
    ["thing1"]. *)
Definition thing1 (w : world) (cls : pyclass) : pystr := py "thing1".

(** ** Well-formed stores *)

(** The direct classes of every individual are classes of the ontology (or
    [Thing]); in particular the metaclass is none of them. *)
Definition wf_world (w : world) : bool :=
  bool_decide
    (map_Forall (λ _ i, Forall (λ c, declared (onto w) c) (is_instance_of i))
       (individuals w)).

(** [grows s w w']: from [w] to [w'] property values were only added, and
    only to the individual [s], which is still there if it was. *)
Definition grows (s : pystr) (w w' : world) : Prop :=
  (∀ s' q x, x ∈ getattr w s' q → x ∈ getattr w' s' q)
  ∧ (∀ s' q, s' ≠ s → getattr w' s' q = getattr w s' q)
  ∧ (is_Some (individuals w !! s) → is_Some (individuals w' !! s)).

(** A store in which an individual holds a value, and one in which an
    individual refers to itself. *)
Definition tweety_world : world :=
  World animal_chain true
    {[ py "tweety" :=
         Individual [Named "Bird"] {[ "eats" := [Lit (py "fish")] ]} ]}.

Definition pingu_world : world :=
  World animal_chain true
    {[ py "tweety" := Individual [Named "Bird"] ∅;
       py "pingu" :=
         Individual [Named "Penguin"] {[ "knows" := [Ind (py "pingu")] ]} ]}.

(** The most-specific-class invariant: no direct class is a strict ancestor
    of another direct class. *)
Definition most_specific (t : taxonomy) (is_a : list pyclass) : Prop :=
  ∀ c1 c2, c1 ∈ is_a → c2 ∈ is_a → c1 ∉ ancestors t c2 false.

(** The direct classes of an individual, if it exists. *)
Definition direct_classes (w : world) (instance : pystr)
    : option (list pyclass) :=
  is_instance_of <$> individuals w !! instance.

(** The scenario of the chain: create "Tweety" under [Bird], reclassify it to
    [Penguin], then to [Animal]; the direct classes after each call. *)
Definition tweety_steps (db : unicode_db)
    (numbered_name : world → pyclass → pystr)
    : result (list (option (list pyclass))) :=
  '(w1, tweety) ← add_instance db numbered_name (World animal_chain true ∅)
                    (Named "Bird") (py "Tweety") true;
  w2 ← set_class_of_instance w1 tweety (Named "Penguin");
  w3 ← set_class_of_instance w2 tweety (Named "Animal");
  Ok [direct_classes w1 tweety; direct_classes w2 tweety;
      direct_classes w3 tweety].

(** ** Notions used to state further properties *)

(** [reach met iter x d]: the item [x] has been met ([d = 0]) or is the
    [d]-th item still to come from the iterator. *)
Definition reach `{Countable A} (met : gset A) (iter : list A) (x : A)
    (d : nat) : Prop :=
  (d = 0 ∧ x ∈ met) ∨ (∃ i, d = S i ∧ iter !! i = Some x).


(** ** [name_to_snake_case] *)

(** [name.replace(" ", "_")] *)
Definition replace_space (name : pystr) : pystr :=
  (λ c, if bool_decide (c = 32%N) then 95%N else c) <$> name.

Definition name_to_snake_case (db : unicode_db) (name : pystr) : pystr :=
  lower db (replace_space name).

(** Lower-case letters, digits and the underscore. *)
Definition lower_word (c : N) : bool :=
  in_range 97 122 c || in_range 48 57 c || bool_decide (c = 95%N).


(** Single inheritance: no class has more than one direct superclass. *)
Definition single_inheritance (t : taxonomy) : bool :=
  bool_decide (Forall (λ d, length d.2 ≤ 1) t).



(** ** [human_name] *)

(** Python's truth value of a property value: of the strings only the empty
    one is false. *)
Definition truthy (v : value) : bool :=
  match v with
  | Lit [] => false
  | _ => true
  end.

(** [human_name(cls_or_instance)], for an individual.  The name comes back
    as a string value.  [None] stands for the [AttributeError] owlready2
    raises on [.fancyName] when the ontology declares no such property. *)
Definition human_name (w : world) (cls_or_instance : pystr) : option value :=
  if onto_fancyName w then
    Some (match first_or_none (getattr w cls_or_instance "fancyName") with
          | Some v => if truthy v then v else Lit cls_or_instance
          | None => Lit cls_or_instance
          end)
  else None.



(** ** [GPT3.get_ent_tuples] *)

(** The values of [n] that the loop at the head of [get_ent_tuples] passes
    to [get_raw_response], in order: [while n > 0], a request for
    [min(n, 128)] completions, then [n -= min(n, 128)].  [fuel] bounds the
    number of rounds; [None] means the bound was reached. *)
Fixpoint get_ent_tuples_requests (fuel : nat) (n : Z) : option (list Z) :=
  if bool_decide (0 < n)%Z then
    match fuel with
    | 0 => None
    | S fuel' =>
        cons (Z.min n 128) <$> get_ent_tuples_requests fuel' (n - Z.min n 128)
    end
  else Some [].



(** ** The strict reading of the traversal order *)





(** ** Properties the ontology is known to declare *)

(** [getattr] on an individual raises [AttributeError] for a name that no
    declared property bears.  [fancyName] is declared when the ontology has
    it; any other property is known to be declared when some individual
    holds a value of it. *)
Definition known_property (w : world) (q : string) : Prop :=
  (q = "fancyName" → onto_fancyName w = true)
  ∧ (q ≠ "fancyName" → ∃ s, getattr w s q ≠ []).

(* ================================================================== *)
(** * Properties *)

(** ** The overlap primitive *)

Section overlap_correct.
Context `{Countable A}.
Implicit Types s : overlap_state (A:=A).

Lemma advance_a_spec s :
  overlap_inv s →
  match advance_a s with
  | Returned r => r = true ∧ shares s
  | Running s' =>
      overlap_inv s' ∧ (shares s' ↔ shares s) ∧ over_b s' = over_b s
      ∧ overlap_measure s' ≤ overlap_measure s
      ∧ (over_a s = false → overlap_measure s' < overlap_measure s)
  end.
Proof.
  destruct s as [ra rb ma mb oa ob]. intros (Hdisj & Ha & Hb); simpl in *.
  unfold advance_a; simpl. destruct oa; simpl.
  { split_and!; [by split_and! | done | done | done | done]. }
  destruct ra as [|x ra]; simpl.
  { unfold overlap_inv, overlap_measure, shares; simpl.
    split_and!; auto with lia. }
  case_bool_decide as Hx.
  { split; [done|]. exists x; simpl. set_solver. }
  unfold overlap_inv, overlap_measure, shares; simpl.
  split_and!; auto with lia; [set_solver|].
  apply exist_proper; intros z. set_solver.
Qed.

Lemma advance_b_spec s :
  overlap_inv s →
  match advance_b s with
  | Returned r => r = true ∧ shares s
  | Running s' =>
      overlap_inv s' ∧ (shares s' ↔ shares s)
      ∧ overlap_measure s' ≤ overlap_measure s
      ∧ (over_b s = false → overlap_measure s' < overlap_measure s)
  end.
Proof.
  destruct s as [ra rb ma mb oa ob]. intros (Hdisj & Ha & Hb); simpl in *.
  unfold advance_b; simpl. destruct ob; simpl.
  { split_and!; [by split_and! | done | done | done]. }
  destruct rb as [|y rb]; simpl.
  { unfold overlap_inv, overlap_measure, shares; simpl.
    split_and!; auto with lia. }
  case_bool_decide as Hy.
  { split; [done|]. exists y; simpl. set_solver. }
  unfold overlap_inv, overlap_measure, shares; simpl.
  split_and!; auto with lia; [set_solver|].
  apply exist_proper; intros z. set_solver.
Qed.

Lemma overlap_round_spec s :
  overlap_inv s → over_a s && over_b s = false →
  match overlap_round s with
  | Returned r => r = true ∧ shares s
  | Running s' =>
      overlap_inv s' ∧ (shares s' ↔ shares s)
      ∧ overlap_measure s' < overlap_measure s
  end.
Proof.
  intros Hinv Hover. unfold overlap_round.
  pose proof (advance_a_spec s Hinv) as Hsa.
  destruct (advance_a s) as [r|s1]; [done|].
  destruct Hsa as (Hinv1 & Hsh1 & Hob & Hle & Hlt).
  pose proof (advance_b_spec s1 Hinv1) as Hsb.
  destruct (advance_b s1) as [r|s2].
  { destruct Hsb as [-> Hsb]. by rewrite <-Hsh1. }
  destruct Hsb as (Hinv2 & Hsh2 & Hle2 & Hlt2).
  split_and!; [done | by rewrite Hsh2 |].
  rewrite Hob in Hlt2.
  destruct (over_a s), (over_b s); try done.
  all: try (specialize (Hlt eq_refl)); try (specialize (Hlt2 eq_refl)); lia.
Qed.

Lemma overlap_loop_spec fuel s :
  overlap_inv s → overlap_measure s ≤ fuel →
  ∃ r, overlap_loop fuel s = Some r ∧ (r = true ↔ shares s).
Proof.
  revert s. induction fuel as [|fuel IH]; intros s Hinv Hfuel; simpl.
  all: destruct (over_a s && over_b s) eqn:Hover.
  1,3: exists false; split; [done|];
       split; [done|]; destruct Hinv as (Hdisj & Ha & Hb);
       apply andb_true_iff in Hover as [Hoa Hob];
       intros (x & Hx1 & Hx2); rewrite Ha, Hb in * by done; set_solver.
  - unfold overlap_measure in Hfuel.
    destruct (over_a s), (over_b s); simpl in *; try done; lia.
  - pose proof (overlap_round_spec s Hinv Hover) as Hround.
    destruct (overlap_round s) as [r|s'].
    + exists r. split; [done|]. by destruct Hround as [-> ?].
    + destruct Hround as (Hinv' & Hsh & Hlt).
      destruct (IH s' Hinv') as (r & Hr & Hiff); [lia|].
      exists r. split; [done|]. by rewrite Hiff.
Qed.

Lemma overlap_loop_init (a b : list A) :
  ∃ r, overlap_loop (overlap_rounds a b) (overlap_init a b) = Some r
       ∧ (r = true ↔ ∃ x, x ∈ a ∧ x ∈ b).
Proof.
  destruct (overlap_loop_spec (overlap_rounds a b) (overlap_init a b))
    as (r & Hr & Hiff).
  - split_and!; simpl; [set_solver | done | done].
  - unfold overlap_measure, overlap_rounds; simpl; lia.
  - exists r. split; [done|]. rewrite Hiff. unfold shares; simpl.
    apply exist_proper; intros x. set_solver.
Qed.

Lemma overlap_true (a b : list A) :
  overlap a b = true ↔ ∃ x, x ∈ a ∧ x ∈ b.
Proof.
  unfold overlap. destruct (overlap_loop_init a b) as (r & -> & Hiff). done.
Qed.

(** C4: on finite sequences the loop of [overlap] ends within the bound on
    its rounds, and it returns [True] exactly when the sets of items of the
    two sequences intersect, that is when the sequences share an item. *)
Theorem overlap_correct (a b : list A) :
  overlap_loop (overlap_rounds a b) (overlap_init a b) = Some (overlap a b)
  ∧ (overlap a b = true ↔ (list_to_set a ∩ list_to_set b : gset A) ≠ ∅)
  ∧ (overlap a b = true ↔ ∃ x, x ∈ a ∧ x ∈ b).
Proof.
  split_and!.
  - unfold overlap. by destruct (overlap_loop_init a b) as (r & -> & _).
  - rewrite overlap_true. split.
    + intros (x & Ha & Hb). set_solver.
    + intros Hne. apply set_choose_L in Hne as (x & Hx). exists x. set_solver.
  - apply overlap_true.
Qed.
End overlap_correct.

(** ** The lexical normaliser *)

Ltac char_solve :=
  unfold ascii_word, lower_ascii, upper_ascii, is_ascii, in_range in *;
  repeat match goal with
  | |- context [if ?b then _ else _] => destruct b eqn:?
  | H : context [if ?b then _ else _] |- _ => destruct b eqn:?
  end;
  repeat progress
    rewrite ?andb_true_iff, ?orb_true_iff, ?andb_false_iff, ?orb_false_iff,
      ?bool_decide_eq_true, ?bool_decide_eq_false,
      ?N.leb_le, ?N.leb_gt, ?N.ltb_lt, ?N.ltb_ge in *;
  try done; try lia.

Lemma Forall_suffix {X} (P : X → Prop) (l k : list X) :
  l `suffix_of` k → Forall P k → Forall P l.
Proof. intros [l' ->] Hk. by apply Forall_app in Hk as [_ ?]. Qed.

Lemma Forall_prefix {X} (P : X → Prop) (l k : list X) :
  l `prefix_of` k → Forall P k → Forall P l.
Proof. intros [l' ->] Hk. by apply Forall_app in Hk as [? _]. Qed.

Section owl_name_idempotent.
Variable db : unicode_db.
Hypothesis Htable : table_ascii db.

Lemma ascii_word_is_ascii c : ascii_word c = true → is_ascii c = true.
Proof. intros Hc. char_solve. Qed.

Lemma ascii_word_is_word_char c : ascii_word c = true → is_word_char db c = true.
Proof.
  intros Hc. unfold is_word_char. rewrite (ascii_word_is_ascii c Hc).
  exact Hc.
Qed.

Lemma ascii_word_not_space c : ascii_word c = true → isspace db c = false.
Proof.
  intros Hc. unfold isspace. rewrite (ascii_word_is_ascii c Hc). char_solve.
Qed.

Lemma unidecode_cons c s :
  unidecode db (c :: s) =
  (if is_ascii c then [c] else unidecode_table db c) ++ unidecode db s.
Proof. done. Qed.

Lemma pattern_symbols_sub_cons r c s :
  pattern_symbols_sub db r (c :: s) =
  (if is_word_char db c then [c] else r) ++ pattern_symbols_sub db r s.
Proof. done. Qed.

Lemma lower_cons c s : lower db (c :: s) = lower_char db c ++ lower db s.
Proof. done. Qed.

Lemma unidecode_is_ascii s : Forall (λ c, is_ascii c = true) (unidecode db s).
Proof.
  induction s as [|c s IH]; [constructor|].
  rewrite unidecode_cons. apply Forall_app. split; [|done].
  destruct (is_ascii c) eqn:Hc; [by repeat constructor | apply Htable].
Qed.

Lemma unidecode_ascii s :
  Forall (λ c, is_ascii c = true) s → unidecode db s = s.
Proof.
  induction 1 as [|c s Hc Hs IH]; [done|].
  by rewrite unidecode_cons, Hc, IH.
Qed.

Lemma lstrip_suffix s : lstrip db s `suffix_of` s.
Proof.
  induction s as [|c s IH]; simpl; [done|].
  destruct (isspace db c); [by apply suffix_cons_r | done].
Qed.

Lemma strip_Forall (P : N → Prop) s : Forall P s → Forall P (strip db s).
Proof.
  intros Hs. unfold strip. apply Forall_reverse.
  eapply Forall_suffix; [apply lstrip_suffix|]. apply Forall_reverse.
  eapply Forall_suffix; [apply lstrip_suffix|]. done.
Qed.

Lemma lstrip_no_space s :
  Forall (λ c, isspace db c = false) s → lstrip db s = s.
Proof. destruct 1 as [|c s Hc Hs]; simpl; [done|]. by rewrite Hc. Qed.

Lemma strip_no_space s :
  Forall (λ c, isspace db c = false) s → strip db s = s.
Proof.
  intros Hs. unfold strip. rewrite (lstrip_no_space s Hs).
  rewrite lstrip_no_space by by apply Forall_reverse.
  apply reverse_involutive.
Qed.

Lemma sub_ascii_word s :
  Forall (λ c, is_ascii c = true) s →
  Forall (λ c, ascii_word c = true) (pattern_symbols_sub db (py "_") s).
Proof.
  induction 1 as [|c s Hc Hs IH]; [constructor|].
  rewrite pattern_symbols_sub_cons. apply Forall_app. split; [|done].
  unfold is_word_char. rewrite Hc.
  destruct (_ || _ || _ || _) eqn:Hw; by repeat constructor.
Qed.

Lemma sub_word s :
  Forall (λ c, ascii_word c = true) s → pattern_symbols_sub db (py "_") s = s.
Proof.
  induction 1 as [|c s Hc Hs IH]; [done|].
  by rewrite pattern_symbols_sub_cons, (ascii_word_is_word_char c Hc), IH.
Qed.

Lemma endswith_underscore s :
  endswith s (py "_") = true ↔ last s = Some 95%N.
Proof.
  unfold endswith. rewrite bool_decide_eq_true. split.
  - intros [k ->]. by rewrite last_app.
  - intros Hlast. destruct s as [|c s _] using rev_ind; [done|].
    rewrite last_snoc in Hlast. injection Hlast as ->. by exists s.
Qed.

Lemma drop_trailing_spec fuel s :
  length s ≤ fuel →
  last (drop_trailing fuel s (py "_")) ≠ Some 95%N
  ∧ drop_trailing fuel s (py "_") `prefix_of` s.
Proof.
  revert s. induction fuel as [|fuel IH]; intros s Hlen; simpl.
  { destruct s; [done | simpl in Hlen; lia]. }
  destruct (endswith s (py "_")) eqn:Hend.
  - apply endswith_underscore in Hend.
    destruct s as [|c s _] using rev_ind; [done|].
    rewrite removelast_last. rewrite length_app in Hlen; simpl in Hlen.
    destruct (IH s) as [Hl Hp]; [lia|]. split; [done|].
    by apply prefix_app_r.
  - split; [|done]. intros Hlast. apply endswith_underscore in Hlast.
    congruence.
Qed.

Lemma drop_trailing_id fuel s :
  last s ≠ Some 95%N → drop_trailing fuel s (py "_") = s.
Proof.
  intros Hlast. destruct fuel; simpl; [done|].
  destruct (endswith s (py "_")) eqn:Hend; [|done].
  by apply endswith_underscore in Hend.
Qed.

Lemma drop_trailing_ends fuel (s r : pystr) :
  r ≠ [] → length s ≤ fuel → endswith (drop_trailing fuel s r) r = false.
Proof.
  intros Hr. revert s. induction fuel as [|fuel IH]; intros s Hlen; simpl.
  { destruct s; [|simpl in Hlen; lia]. apply bool_decide_eq_false.
    intros [k Hk]. symmetry in Hk. by apply app_eq_nil in Hk as [_ ?]. }
  destruct (endswith s r) eqn:Hend; [|done].
  apply IH. destruct s as [|c s _] using rev_ind.
  - apply bool_decide_eq_true in Hend as [k Hk].
    symmetry in Hk. by apply app_eq_nil in Hk as [_ ?].
  - rewrite removelast_last. rewrite length_app in Hlen. simpl in Hlen. lia.
Qed.

(** For any non-empty replacement the loop of [replace_symbols_with] ends
    within the bound: its exit condition holds of the result. *)
Lemma replace_symbols_with_ends (name r : pystr) :
  r ≠ [] → endswith (replace_symbols_with db name r) r = false.
Proof. intros Hr. by apply drop_trailing_ends. Qed.

(** The loop of [replace_symbols_with name "_"] runs to its end: the
    result does not end with the replacement. *)
Lemma replace_symbols_with_identifier s :
  Forall (λ c, is_ascii c = true) s →
  identifier (replace_symbols_with db s (py "_")).
Proof.
  intros Hs. unfold replace_symbols_with.
  destruct (drop_trailing_spec
              (length (pattern_symbols_sub db (py "_") s))
              (pattern_symbols_sub db (py "_") s)) as [Hlast Hpre]; [done|].
  split; [|done].
  eapply Forall_prefix; [done|]. by apply sub_ascii_word.
Qed.

Lemma replace_symbols_with_id s :
  identifier s → replace_symbols_with db s (py "_") = s.
Proof.
  intros [Hw Hlast]. unfold replace_symbols_with.
  rewrite (sub_word s Hw). by apply drop_trailing_id.
Qed.

Lemma lower_ascii_map s :
  Forall (λ c, is_ascii c = true) s → lower db s = lower_ascii <$> s.
Proof.
  induction 1 as [|c s Hc Hs IH]; [done|].
  rewrite lower_cons, IH. unfold lower_char. by rewrite Hc.
Qed.

Lemma identifier_ascii s :
  identifier s → Forall (λ c, is_ascii c = true) s.
Proof.
  intros [Hw _]. eapply Forall_impl; [done|]. apply ascii_word_is_ascii.
Qed.

(** On an identifier the first four steps of [owl_name] only change the
    case of letters. *)
Lemma normalise_identifier s :
  identifier s → normalise db s = lower_ascii <$> s.
Proof.
  intros Hid. pose proof (identifier_ascii s Hid) as Hascii.
  unfold normalise. rewrite (unidecode_ascii s Hascii).
  rewrite strip_no_space.
  2:{ destruct Hid as [Hw _]. eapply Forall_impl; [exact Hw|].
      apply ascii_word_not_space. }
  rewrite (replace_symbols_with_id s Hid). by apply lower_ascii_map.
Qed.

Lemma lower_ascii_word c : ascii_word c = true → ascii_word (lower_ascii c) = true.
Proof. intros Hc. char_solve. Qed.

Lemma lower_ascii_underscore c : lower_ascii c = 95%N → c = 95%N.
Proof. char_solve. Qed.

Lemma lower_ascii_idemp c : lower_ascii (lower_ascii c) = lower_ascii c.
Proof. char_solve. Qed.

Lemma map_lower_identifier s : identifier s → identifier (lower_ascii <$> s).
Proof.
  intros [Hw Hlast]. split.
  - apply Forall_fmap. eapply Forall_impl; [done|]. apply lower_ascii_word.
  - rewrite fmap_last. destruct (last s) as [c|]; simpl; [|done].
    intros [= Hc]. apply lower_ascii_underscore in Hc. congruence.
Qed.

(** [normalise] produces an identifier in lower case. *)
Lemma normalise_spec s :
  ∃ x, normalise db s = lower_ascii <$> x ∧ identifier x.
Proof.
  exists (replace_symbols_with db (strip db (unidecode db s)) (py "_")).
  assert (identifier
            (replace_symbols_with db (strip db (unidecode db s)) (py "_")))
    as Hid.
  { apply replace_symbols_with_identifier, strip_Forall,
      unidecode_is_ascii. }
  split; [|done]. unfold normalise.
  by apply lower_ascii_map, identifier_ascii.
Qed.

Lemma normalise_idemp s : normalise db (normalise db s) = normalise db s.
Proof.
  destruct (normalise_spec s) as (x & -> & Hid).
  rewrite normalise_identifier by by apply map_lower_identifier.
  rewrite <-list_fmap_compose. apply list_fmap_ext.
  intros _ c _. apply lower_ascii_idemp.
Qed.

Lemma upper_ascii_word c : ascii_word c = true → ascii_word (upper_ascii c) = true.
Proof. intros Hc. char_solve. Qed.

Lemma upper_ascii_underscore c : upper_ascii c = 95%N → c = 95%N.
Proof. char_solve. Qed.

Lemma lower_upper_ascii c : lower_ascii (upper_ascii (lower_ascii c)) = lower_ascii c.
Proof. char_solve. Qed.

Lemma capitalize_lowered x :
  identifier x →
  capitalize db (lower_ascii <$> x) =
  match x with
  | [] => []
  | c :: r => upper_ascii (lower_ascii c) :: (lower_ascii <$> r)
  end.
Proof.
  intros Hid. destruct x as [|c r]; [done|]. simpl.
  pose proof (map_lower_identifier _ Hid) as Hid'.
  pose proof (identifier_ascii _ Hid') as Hascii. simpl in Hascii.
  apply Forall_cons in Hascii as [Hc Hr].
  unfold upper_first. rewrite Hc. simpl. f_equal.
  rewrite (lower_ascii_map _ Hr). rewrite <-list_fmap_compose.
  apply list_fmap_ext. intros _ d _. apply lower_ascii_idemp.
Qed.

Lemma normalise_capitalize x :
  identifier x →
  normalise db (capitalize db (lower_ascii <$> x)) = lower_ascii <$> x.
Proof.
  intros Hid. rewrite (capitalize_lowered x Hid).
  destruct x as [|c r]; [done|].
  destruct Hid as [Hw Hlast]. apply Forall_cons in Hw as [Hc Hr].
  rewrite normalise_identifier.
  - rewrite !fmap_cons. f_equal; [apply lower_upper_ascii|].
    rewrite <-list_fmap_compose. apply list_fmap_ext.
    intros _ d _. apply lower_ascii_idemp.
  - split.
    + constructor; [by apply upper_ascii_word, lower_ascii_word|].
      apply Forall_fmap. eapply Forall_impl; [done|]. apply lower_ascii_word.
    + destruct r as [|d r].
      * simpl in *. intros [= Heq]. apply Hlast. f_equal.
        by apply lower_ascii_underscore, upper_ascii_underscore.
      * change (last (lower_ascii <$> (d :: r)) ≠ Some 95%N).
        rewrite fmap_last. change (last (c :: d :: r)) with (last (d :: r)) in Hlast.
        destruct (last (d :: r)) as [e|]; simpl; [|done].
        intros [= Heq]. apply lower_ascii_underscore in Heq.
        apply Hlast. by rewrite <-Heq.
Qed.

(** C8: [owl_name] is idempotent, for instance names and for class
    names. *)
Theorem owl_name_idempotent (s : pystr) (instance : bool) :
  owl_name db (owl_name db s instance) instance = owl_name db s instance.
Proof.
  assert (∀ n i, owl_name db n i =
                 if negb i then capitalize db (normalise db n)
                 else normalise db n) as Hfold by done.
  rewrite !Hfold. destruct instance; cbn [negb].
  - apply normalise_idemp.
  - destruct (normalise_spec s) as (x & -> & Hid).
    by rewrite (normalise_capitalize x Hid).
Qed.
End owl_name_idempotent.

(** ** The taxonomy *)

Lemma bool_eq_iff (b1 b2 : bool) : (b1 = true ↔ b2 = true) → b1 = b2.
Proof. destruct b1, b2; intuition congruence. Qed.

Lemma wf_taxonomy_cons n parents (t : taxonomy) :
  wf_taxonomy ((n, parents) :: t) = true ↔
  (n ∉ t.*1) ∧ Forall (λ p, p ∈ t.*1) parents ∧ wf_taxonomy t = true.
Proof.
  simpl. rewrite !andb_true_iff, !bool_decide_eq_true. tauto.
Qed.

Lemma named_ancestors_cons n m parents (t : taxonomy) x :
  x ∈ named_ancestors ((m, parents) :: t) n ↔
  if decide (n = m)
  then ∃ p, p ∈ parents ∧ (x = p ∨ x ∈ named_ancestors t p)
  else x ∈ named_ancestors t n.
Proof.
  simpl. destruct (decide (n = m)) as [->|Hne]; [|done].
  rewrite elem_of_union, elem_of_list_to_set, elem_of_union_list. split.
  - intros [Hx|(X & HX & Hx)]; [by eauto|].
    apply list_elem_of_fmap in HX as (p & -> & Hp). eauto.
  - intros (p & Hp & [->|Hx]); [by left|]. right.
    exists (named_ancestors t p). split; [|done].
    apply list_elem_of_fmap. eauto.
Qed.

Lemma named_descendants_cons n m parents (t : taxonomy) x :
  x ∈ named_descendants ((m, parents) :: t) n ↔
  (x = m ∧ ∃ p, p ∈ parents ∧ (p = n ∨ p ∈ named_descendants t n))
  ∨ x ∈ named_descendants t n.
Proof.
  simpl. case_bool_decide as Hex.
  - rewrite elem_of_union, elem_of_singleton.
    apply Exists_exists in Hex. naive_solver.
  - rewrite Exists_exists in Hex. naive_solver.
Qed.

(** Only declared classes have named ancestors, and these are declared. *)
Lemma named_ancestors_declared (t : taxonomy) n x :
  wf_taxonomy t = true → x ∈ named_ancestors t n → x ∈ t.*1 ∧ n ∈ t.*1.
Proof.
  revert n x. induction t as [|[m parents] t IH]; intros n x Hwf Hx.
  { by apply not_elem_of_empty in Hx. }
  apply wf_taxonomy_cons in Hwf as (Hm & Hparents & Hwf).
  apply named_ancestors_cons in Hx. rewrite fmap_cons; simpl.
  rewrite Forall_forall in Hparents.
  destruct (decide (n = m)) as [->|Hne].
  - destruct Hx as (p & Hp & [->|Hx]).
    + split; [right; auto | left].
    + destruct (IH _ _ Hwf Hx). split; [by right | left].
  - destruct (IH _ _ Hwf Hx). split; by right.
Qed.

(** No class is strictly above itself. *)
Lemma named_ancestors_irrefl (t : taxonomy) n :
  wf_taxonomy t = true → n ∉ named_ancestors t n.
Proof.
  revert n. induction t as [|[m parents] t IH]; intros n Hwf Hn.
  { by apply not_elem_of_empty in Hn. }
  pose proof Hwf as Hwf'.
  apply wf_taxonomy_cons in Hwf as (Hm & Hparents & Hwf).
  apply named_ancestors_cons in Hn.
  rewrite Forall_forall in Hparents.
  destruct (decide (n = m)) as [->|Hne]; [|by eapply IH].
  destruct Hn as (p & Hp & [->|Hx]); [by auto|].
  by destruct (named_ancestors_declared _ _ _ Hwf Hx).
Qed.

(** [descendants] is the converse of [ancestors]. *)
Lemma named_descendants_ancestors (t : taxonomy) n m :
  wf_taxonomy t = true →
  m ∈ named_descendants t n ↔ n ∈ named_ancestors t m.
Proof.
  revert n m. induction t as [|[h parents] t IH]; intros n m Hwf; [done|].
  apply wf_taxonomy_cons in Hwf as (Hh & Hparents & Hwf).
  rewrite named_descendants_cons, named_ancestors_cons.
  destruct (decide (m = h)) as [->|Hne].
  - split.
    + intros [(_ & p & Hp & [->|Hd])|Hd].
      * eauto.
      * exists p. split; [done|]. right. by apply IH.
      * apply IH in Hd; [|done].
        by destruct (named_ancestors_declared _ _ _ Hwf Hd).
    + intros (p & Hp & [->|Ha]); left; (split; [done|]); exists p.
      * auto.
      * split; [done|]. right. by apply IH.
  - rewrite <-IH by done. naive_solver.
Qed.

Lemma subtype_true (t : taxonomy) a b strict :
  subtype t a b strict = true ↔ a ∈ descendants t b (negb strict).
Proof.
  unfold subtype. rewrite overlap_true. setoid_rewrite elem_of_elements.
  setoid_rewrite list_elem_of_singleton. naive_solver.
Qed.

Lemma supertype_true (t : taxonomy) a b strict :
  supertype t a b strict = true ↔ a ∈ ancestors t b (negb strict).
Proof.
  unfold supertype. rewrite overlap_true. setoid_rewrite elem_of_elements.
  setoid_rewrite list_elem_of_singleton. naive_solver.
Qed.

Lemma elem_of_set_map_Named (X : gset string) c :
  c ∈ (set_map Named X : gset pyclass) ↔ ∃ n, c = Named n ∧ n ∈ X.
Proof. by rewrite elem_of_map. Qed.

Lemma descendants_ancestors (t : taxonomy) a b include_self :
  wf_taxonomy t = true →
  a ∈ descendants t b include_self ↔ b ∈ ancestors t a include_self.
Proof.
  intros Hwf. unfold descendants, ancestors.
  rewrite !elem_of_union.
  assert ((a ∈ (if include_self then {[b]} else ∅ : gset pyclass)) ↔
          (b ∈ (if include_self then {[a]} else ∅ : gset pyclass))) as ->.
  { destruct include_self; set_solver. }
  apply or_iff_compat_l.
  destruct b as [| |n].
  - rewrite elem_of_list_to_set, list_elem_of_fmap.
    destruct a as [| |m]; simpl.
    + split; [intros (? & ? & ?); done | set_solver].
    + split; [intros (? & ? & ?); done | set_solver].
    + case_bool_decide as Hm.
      * split; [set_solver|]. intros _. by exists m.
      * split; [|set_solver]. intros (? & [= <-] & ?). done.
  - destruct a as [| |m]; simpl; [set_solver..|].
    case_bool_decide; [|set_solver].
    rewrite elem_of_union, elem_of_set_map_Named. set_solver.
  - rewrite elem_of_set_map_Named.
    destruct a as [| |m]; simpl.
    + split; [intros (? & ? & ?); done | set_solver].
    + split; [intros (? & ? & ?); done | set_solver].
    + case_bool_decide as Hm.
      * rewrite elem_of_union, elem_of_set_map_Named, elem_of_singleton.
        split.
        -- intros (? & [= <-] & Hd). right. exists n. split; [done|].
           by apply named_descendants_ancestors.
        -- intros [?|(? & [= <-] & Ha)]; [done|]. exists m. split; [done|].
           by apply named_descendants_ancestors.
      * split; [|set_solver]. intros (? & [= <-] & Hd).
        apply named_descendants_ancestors in Hd; [|done].
        by destruct (named_ancestors_declared _ _ _ Hwf Hd).
Qed.

Lemma descendants_strict_irrefl (t : taxonomy) c :
  wf_taxonomy t = true → c ∉ descendants t c false.
Proof.
  intros Hwf. unfold descendants. rewrite elem_of_union.
  intros [Hc|Hc]; [set_solver|]. destruct c as [| |n].
  - apply elem_of_list_to_set, list_elem_of_fmap in Hc as (? & ? & ?). done.
  - set_solver.
  - apply elem_of_set_map_Named in Hc as (? & [= <-] & Hd).
    apply named_descendants_ancestors in Hd; [|done].
    by apply named_ancestors_irrefl in Hd.
Qed.

Lemma named_ancestors_trans (t : taxonomy) a b c :
  wf_taxonomy t = true →
  a ∈ named_ancestors t b → b ∈ named_ancestors t c → a ∈ named_ancestors t c.
Proof.
  revert a b c. induction t as [|[h ps] t IH]; intros a b c Hwf Hab Hbc.
  { by apply not_elem_of_empty in Hab. }
  pose proof Hwf as Hwf0.
  apply wf_taxonomy_cons in Hwf as (Hh & Hparents & Hwf).
  rewrite Forall_forall in Hparents.
  apply named_ancestors_cons in Hbc. apply named_ancestors_cons.
  assert (b ∈ t.*1) as Hb.
  { destruct (decide (c = h)) as [->|?].
    - destruct Hbc as (p & Hp & [->|Hbp]); [by apply Hparents|].
      by destruct (named_ancestors_declared _ _ _ Hwf Hbp).
    - by destruct (named_ancestors_declared _ _ _ Hwf Hbc). }
  apply named_ancestors_cons in Hab.
  rewrite decide_False in Hab by (intros ->; done).
  destruct (decide (c = h)) as [->|?]; [|by eapply IH].
  destruct Hbc as (p & Hp & [->|Hbp]); exists p; (split; [done|]); right.
  - done.
  - by eapply IH.
Qed.

Lemma elem_of_ancestors_strict (t : taxonomy) a c :
  a ∈ ancestors t c false ↔
  ∃ n, c = Named n ∧ n ∈ t.*1
       ∧ (a = Thing ∨ ∃ m, a = Named m ∧ m ∈ named_ancestors t n).
Proof.
  unfold ancestors. rewrite elem_of_union. split.
  - intros [Ha|Ha]; [set_solver|]. destruct c as [| |n]; [set_solver..|].
    simpl in Ha. case_bool_decide; [|set_solver].
    apply elem_of_union in Ha as [->%elem_of_singleton|Ha]; [by eauto 6|].
    apply elem_of_set_map_Named in Ha. by eauto 6.
  - intros (n & -> & Hn & Ha). right. simpl.
    rewrite bool_decide_eq_true_2 by done.
    rewrite elem_of_union, elem_of_singleton, elem_of_set_map_Named.
    naive_solver.
Qed.

Lemma elem_of_ancestors_self (t : taxonomy) a c :
  a ∈ ancestors t c true ↔ a = c ∨ a ∈ ancestors t c false.
Proof. unfold ancestors. set_solver. Qed.

Lemma ancestors_irrefl (t : taxonomy) c :
  wf_taxonomy t = true → c ∉ ancestors t c false.
Proof.
  intros Hwf (n & -> & Hn & [?|(m & [= <-] & Hm)])%elem_of_ancestors_strict;
    [done|].
  by apply named_ancestors_irrefl in Hm.
Qed.

Lemma ancestors_trans (t : taxonomy) a b c :
  wf_taxonomy t = true →
  a ∈ ancestors t b false → b ∈ ancestors t c false → a ∈ ancestors t c false.
Proof.
  intros Hwf Hab Hbc.
  apply elem_of_ancestors_strict in Hbc as (n & -> & Hn & Hb).
  apply elem_of_ancestors_strict in Hab as (m & -> & Hm & Ha).
  destruct Hb as [?|(m' & [= <-] & Hmn)]; [done|].
  apply elem_of_ancestors_strict. exists n. split; [done|]. split; [done|].
  destruct Ha as [->|(k & -> & Hk)]; [by left|]. right. exists k.
  split; [done|]. by eapply named_ancestors_trans.
Qed.

Lemma Thing_above (t : taxonomy) c :
  declared t c = true → c = Thing ∨ Thing ∈ ancestors t c false.
Proof.
  destruct c as [| |n]; simpl; [by left | done |].
  intros Hn%bool_decide_eq_true. right.
  apply elem_of_ancestors_strict. by eauto 6.
Qed.

(** C5: in a well-formed taxonomy every class is a non-strict subtype of
    itself and not a strict one, and [subtype a b s] always agrees with
    [supertype b a s]. *)
Theorem subtype_reflexive_and_dual (t : taxonomy) :
  wf_taxonomy t = true →
  (∀ c, subtype t c c false = true ∧ subtype t c c true = false)
  ∧ (∀ a b strict, subtype t a b strict = supertype t b a strict).
Proof.
  intros Hwf. split.
  - intros c. split.
    + apply subtype_true. unfold descendants; simpl. set_solver.
    + apply not_true_is_false. rewrite subtype_true; simpl.
      by apply descendants_strict_irrefl.
  - intros a b strict. apply bool_eq_iff.
    rewrite subtype_true, supertype_true. by apply descendants_ancestors.
Qed.

(** ** Root inference *)

Lemma elem_of_subclasses_Thing (t : taxonomy) c :
  c ∈ subclasses t Thing ↔ ∃ n, c = Named n ∧ (n, []) ∈ t.
Proof.
  unfold subclasses. rewrite list_elem_of_fmap.
  setoid_rewrite list_elem_of_fmap. split.
  - intros (n & -> & [m ps] & -> & Hd). apply list_elem_of_filter in Hd as [Hps Hd].
    simpl in *. subst ps. rewrite elem_of_reverse in Hd. eauto.
  - intros (n & -> & Hn). exists n. split; [done|]. exists (n, []).
    split; [done|]. apply list_elem_of_filter. split; [done|].
    by rewrite elem_of_reverse.
Qed.

Lemma elem_of_classes (t : taxonomy) c :
  c ∈ classes t ↔ ∃ n, c = Named n ∧ n ∈ t.*1.
Proof.
  unfold classes. rewrite list_elem_of_fmap.
  by setoid_rewrite elem_of_reverse.
Qed.

Lemma named_ancestors_empty (t : taxonomy) n :
  wf_taxonomy t = true → n ∈ t.*1 →
  named_ancestors t n = ∅ ↔ (n, []) ∈ t.
Proof.
  induction t as [|[m ps] t IH]; intros Hwf Hn.
  { by apply elem_of_nil in Hn. }
  apply wf_taxonomy_cons in Hwf as (Hm & Hparents & Hwf).
  rewrite fmap_cons in Hn; simpl in *.
  destruct (decide (n = m)) as [->|Hne].
  - split.
    + intros Hempty. destruct ps as [|p ps]; [left|]. set_solver.
    + intros Hin. apply elem_of_cons in Hin as [[= <-]|Hin]; [set_solver|].
      destruct Hm. apply list_elem_of_fmap. by exists (m, []).
  - apply elem_of_cons in Hn as [?|Hn]; [done|].
    rewrite IH by done. rewrite elem_of_cons. naive_solver.
Qed.

(** The test of [_find_root_class] selects the classes directly under
    [Thing]. *)
Lemma root_candidate (t : taxonomy) c :
  wf_taxonomy t = true →
  c ∈ classes t ∧ ancestors t c true = {[Thing; c]} ↔ c ∈ subclasses t Thing.
Proof.
  intros Hwf. rewrite elem_of_classes, elem_of_subclasses_Thing. split.
  - intros [(n & -> & Hn) Heq]. exists n. split; [done|].
    apply named_ancestors_empty; [done..|].
    apply set_eq. intros x. split; [|set_solver]. intros Hx.
    assert (Named x ∈ ancestors t (Named n) true) as Hin.
    { unfold ancestors; simpl. rewrite bool_decide_eq_true_2 by done.
      rewrite !elem_of_union, elem_of_set_map_Named. eauto. }
    rewrite Heq in Hin.
    assert (x = n) as -> by set_solver.
    by apply named_ancestors_irrefl in Hx.
  - intros (n & -> & Hn).
    assert (n ∈ t.*1) as Hdecl.
    { apply list_elem_of_fmap. by exists (n, []). }
    split; [by eauto|].
    unfold ancestors; simpl. rewrite bool_decide_eq_true_2 by done.
    apply named_ancestors_empty in Hn; [|done..]. rewrite Hn. set_solver.
Qed.

Lemma elem_of_foldl_collect {X} `{Countable Y} (P : X → bool) (f : X → Y)
    (l : list X) (acc : gset Y) y :
  y ∈ foldl (λ (s : gset Y) x, if P x then {[f x]} ∪ s else s) acc l ↔
  y ∈ acc ∨ ∃ x, x ∈ l ∧ P x = true ∧ y = f x.
Proof.
  revert acc. induction l as [|x l IH]; intros acc; simpl.
  { split; [auto|]. intros [?|(x & Hx & _)]; [done|]. by apply elem_of_nil in Hx. }
  rewrite IH. setoid_rewrite elem_of_cons. destruct (P x) eqn:HP.
  - rewrite elem_of_union, elem_of_singleton. naive_solver.
  - split; [naive_solver|].
    intros [?|(x0 & [->|Hx0] & HP0 & ->)]; [auto | congruence | eauto].
Qed.

(** C7: [_find_root_class] collects the classes that sit directly under
    [Thing]; when there is exactly one it is the root, and in every other
    case (none, or several, as with two disjoint top-level classes) the
    root is [Thing]. *)
Theorem find_root_class_spec (t : taxonomy) :
  wf_taxonomy t = true →
  (∀ c, c ∈ classes t ∧ ancestors t c true = {[Thing; c]}
        ↔ c ∈ subclasses t Thing)
  ∧ (∀ c, (∀ c', c' ∈ subclasses t Thing ↔ c' = c) → _find_root_class t = c)
  ∧ (subclasses t Thing = [] → _find_root_class t = Thing)
  ∧ (∀ c1 c2, c1 ≠ c2 → c1 ∈ subclasses t Thing → c2 ∈ subclasses t Thing →
              _find_root_class t = Thing)
  ∧ _find_root_class [("Vehicle", []); ("Animal", [])]%string = Thing.
Proof.
  intros Hwf.
  assert (∀ c, c ∈ foldl (λ (things : gset pyclass) cls,
                 if bool_decide (ancestors t cls true = {[Thing; cls]})
                 then {[cls]} ∪ things else things) ∅ (classes t)
               ↔ c ∈ subclasses t Thing) as Hthings.
  { intros c.
    rewrite (elem_of_foldl_collect
               (λ cls, bool_decide (ancestors t cls true = {[Thing; cls]})) id).
    rewrite <-root_candidate by done. split.
    - intros [?|(x & Hx & HP & ->)]; [set_solver|].
      by apply bool_decide_eq_true in HP.
    - intros [Hc Heq]. right. exists c. by rewrite bool_decide_eq_true. }
  assert ((¬ ∃ c, ∀ c', c' ∈ subclasses t Thing ↔ c' = c) →
          _find_root_class t = Thing) as Hother.
  { unfold _find_root_class. set (things := foldl _ _ _) in *.
    intros Hnone. case_bool_decide as Hsize; [|done].
    apply size_1_elem_of in Hsize as (c & Hc). destruct Hnone.
    exists c. intros c'. rewrite <-Hthings. set_solver. }
  split_and!.
  - intros c. by apply root_candidate.
  - unfold _find_root_class. set (things := foldl _ _ _) in *.
    intros c Hc.
    assert (things = {[c]}) as ->.
    { apply set_eq. intros x. rewrite Hthings, Hc. set_solver. }
    rewrite size_singleton, elements_singleton. done.
  - intros Hnil. apply Hother. intros (c & Hc).
    assert (c ∈ subclasses t Thing) as Hin by by apply Hc.
    rewrite Hnil in Hin. by apply elem_of_nil in Hin.
  - intros c1 c2 Hne H1 H2. apply Hother. intros (c & Hc).
    apply Hc in H1, H2. congruence.
  - by vm_compute.
Qed.

(** *** Descendants as the closure of [subclasses] *)

Lemma wf_parents_declared (t : taxonomy) n ps p :
  wf_taxonomy t = true → (n, ps) ∈ t → p ∈ ps → p ∈ t.*1.
Proof.
  induction t as [|[h hps] t IH]; intros Hwf Hn Hp.
  { by apply elem_of_nil in Hn. }
  apply wf_taxonomy_cons in Hwf as (Hh & Hparents & Hwf).
  rewrite Forall_forall in Hparents. rewrite fmap_cons. right.
  apply elem_of_cons in Hn as [[= -> ->]|Hn]; [by apply Hparents | by apply IH].
Qed.

Lemma wf_declared_once (t : taxonomy) h hps n ps :
  wf_taxonomy ((h, hps) :: t) = true → (n, ps) ∈ t → n ≠ h.
Proof.
  intros (Hh & _ & _)%wf_taxonomy_cons Hn ->. apply Hh.
  apply list_elem_of_fmap. by exists (h, ps).
Qed.

(** The equation that defines the ancestors of a class by those of its
    direct superclasses. *)
Lemma named_ancestors_unfold (t : taxonomy) n ps x :
  wf_taxonomy t = true → (n, ps) ∈ t →
  x ∈ named_ancestors t n ↔
  ∃ p, p ∈ ps ∧ (x = p ∨ x ∈ named_ancestors t p).
Proof.
  induction t as [|[h hps] t IH]; intros Hwf Hn.
  { by apply elem_of_nil in Hn. }
  pose proof Hwf as Hwf0.
  apply wf_taxonomy_cons in Hwf as (Hh & Hparents & Hwf).
  rewrite Forall_forall in Hparents.
  assert (∀ p, p ∈ ps → named_ancestors ((h, hps) :: t) p = named_ancestors t p)
    as Hsame.
  { intros p Hp. simpl. rewrite decide_False; [done|]. intros ->. apply Hh.
    apply elem_of_cons in Hn as [[= -> ->]|Hn]; [by apply Hparents|].
    by eapply wf_parents_declared. }
  rewrite named_ancestors_cons.
  apply elem_of_cons in Hn as [[= -> ->]|Hn].
  - rewrite decide_True by done.
    apply exist_proper. intros p. split; intros [Hp Hx]; by rewrite ?Hsame in *.
  - rewrite decide_False by by eapply wf_declared_once.
    rewrite IH by done.
    apply exist_proper. intros p. split; intros [Hp Hx];
      (split; [done|]); [by rewrite Hsame | by rewrite Hsame in Hx].
Qed.

Lemma elem_of_subclasses_Named (t : taxonomy) n c :
  c ∈ subclasses t (Named n) ↔ ∃ m ps, c = Named m ∧ (m, ps) ∈ t ∧ n ∈ ps.
Proof.
  unfold subclasses. rewrite list_elem_of_fmap.
  setoid_rewrite list_elem_of_fmap. split.
  - intros (m & -> & [m' ps] & -> & Hd).
    apply list_elem_of_filter in Hd as [Hps Hd].
    rewrite elem_of_reverse in Hd. by eauto 6.
  - intros (m & ps & -> & Hm & Hn). exists m. split; [done|].
    exists (m, ps). split; [done|]. apply list_elem_of_filter.
    split; [done|]. by rewrite elem_of_reverse.
Qed.

Lemma subclasses_descendants (t : taxonomy) p c :
  wf_taxonomy t = true → c ∈ subclasses t p → c ∈ descendants t p false.
Proof.
  intros Hwf Hc. unfold descendants. apply elem_of_union. right.
  destruct p as [| |n].
  - apply elem_of_subclasses_Thing in Hc as (m & -> & Hm).
    apply elem_of_list_to_set, list_elem_of_fmap. exists m. split; [done|].
    apply list_elem_of_fmap. by exists (m, []).
  - by apply elem_of_nil in Hc.
  - apply elem_of_subclasses_Named in Hc as (m & ps & -> & Hm & Hn).
    apply elem_of_set_map_Named. exists m. split; [done|].
    apply named_descendants_ancestors; [done|].
    apply (named_ancestors_unfold t m ps); eauto.
Qed.

Lemma descendants_trans (t : taxonomy) p c d :
  wf_taxonomy t = true →
  c ∈ descendants t p false → d ∈ descendants t c false →
  d ∈ descendants t p false.
Proof.
  intros Hwf. rewrite !descendants_ancestors by done.
  intros Hpc Hcd. by eapply ancestors_trans.
Qed.

Lemma subclasses_cons (t : taxonomy) x p c :
  c ∈ subclasses t p → c ∈ subclasses (x :: t) p.
Proof.
  destruct p as [| |n].
  - rewrite !elem_of_subclasses_Thing. intros (m & -> & Hm).
    exists m. split; [done | by right].
  - done.
  - rewrite !elem_of_subclasses_Named. intros (m & ps & -> & Hm & Hn).
    exists m, ps. split; [done|]. split; [by right | done].
Qed.

Lemma strictly_below_cons (t : taxonomy) x p d :
  strictly_below t p d → strictly_below (x :: t) p d.
Proof.
  induction 1 as [p d Hd|p c d Hc _ IH].
  - apply below_child. by apply subclasses_cons.
  - eapply below_step; [by apply subclasses_cons | done].
Qed.

Lemma strictly_below_snoc (t : taxonomy) a b c :
  strictly_below t a b → c ∈ subclasses t b → strictly_below t a c.
Proof.
  induction 1 as [p d Hd|p c' d Hc' _ IH]; intros Hc.
  - eapply below_step; [done|]. by apply below_child.
  - eapply below_step; [done|]. by apply IH.
Qed.

Lemma strictly_below_Thing (t : taxonomy) n :
  wf_taxonomy t = true → n ∈ t.*1 → strictly_below t Thing (Named n).
Proof.
  revert n. induction t as [|[h ps] t IH]; intros n Hwf Hn.
  { by apply elem_of_nil in Hn. }
  pose proof Hwf as Hwf0.
  apply wf_taxonomy_cons in Hwf as (Hh & Hparents & Hwf).
  rewrite fmap_cons in Hn. simpl in Hn. apply elem_of_cons in Hn as [->|Hn].
  - destruct ps as [|p ps].
    + apply below_child, elem_of_subclasses_Thing. exists h.
      split; [done | left].
    + apply Forall_cons in Hparents as [Hp _].
      eapply strictly_below_snoc.
      * apply strictly_below_cons, IH; [done | exact Hp].
      * apply elem_of_subclasses_Named. exists h, (p :: ps).
        split; [done|]. split; left.
  - by apply strictly_below_cons, IH.
Qed.

Lemma named_descendants_below (t : taxonomy) n m :
  wf_taxonomy t = true → m ∈ named_descendants t n →
  strictly_below t (Named n) (Named m).
Proof.
  revert m. induction t as [|[h ps] t IH]; intros m Hwf Hm.
  { by apply not_elem_of_empty in Hm. }
  pose proof Hwf as Hwf0.
  apply wf_taxonomy_cons in Hwf as (Hh & Hparents & Hwf).
  apply named_descendants_cons in Hm as [(-> & q & Hq & Hqn)|Hm].
  - assert (Named h ∈ subclasses ((h, ps) :: t) (Named q)) as Hsub.
    { apply elem_of_subclasses_Named. exists h, ps.
      split; [done|]. split; [left | done]. }
    destruct Hqn as [->|Hqn]; [by apply below_child|].
    eapply strictly_below_snoc; [|done].
    by apply strictly_below_cons, IH.
  - by apply strictly_below_cons, IH.
Qed.

(** [descendants(include_self=False)] is what one reaches by repeated steps
    to a direct subclass. *)
Lemma strictly_below_descendants (t : taxonomy) p d :
  wf_taxonomy t = true →
  strictly_below t p d ↔ d ∈ descendants t p false.
Proof.
  intros Hwf. split.
  - induction 1 as [p d Hd|p c d Hc _ IH].
    + by apply subclasses_descendants.
    + eapply descendants_trans; [done | | done].
      by apply subclasses_descendants.
  - unfold descendants. rewrite elem_of_union. intros [Hd|Hd]; [set_solver|].
    destruct p as [| |n].
    + apply elem_of_list_to_set, list_elem_of_fmap in Hd as (m & -> & Hm).
      by apply strictly_below_Thing.
    + set_solver.
    + apply elem_of_set_map_Named in Hd as (m & -> & Hm).
      by apply named_descendants_below.
Qed.

(** ** Depth-first traversal *)

Lemma class_index_declared (t : taxonomy) n :
  n ∈ t.*1 → class_index t n < length t.
Proof.
  induction t as [|[m ps] t IH]; intros Hn; [by apply elem_of_nil in Hn|].
  simpl. destruct (decide (n = m)); [lia|].
  rewrite fmap_cons in Hn. apply elem_of_cons in Hn as [?|Hn]; [done|].
  specialize (IH Hn). lia.
Qed.

(** A direct subclass was declared after its superclass. *)
Lemma class_index_parent (t : taxonomy) m ps n :
  wf_taxonomy t = true → (m, ps) ∈ t → n ∈ ps →
  class_index t m < class_index t n.
Proof.
  induction t as [|[h hps] t IH]; intros Hwf Hm Hn.
  { by apply elem_of_nil in Hm. }
  apply wf_taxonomy_cons in Hwf as (Hh & Hparents & Hwf).
  rewrite Forall_forall in Hparents. simpl.
  apply elem_of_cons in Hm as [[= -> ->]|Hm].
  - rewrite decide_True by done.
    destruct (decide (n = h)) as [->|?]; [|lia].
    destruct Hh. by apply Hparents.
  - assert (m ∈ t.*1) as Hmt by (apply list_elem_of_fmap; by exists (m, ps)).
    rewrite decide_False by (by intros ->).
    destruct (decide (n = h)) as [->|?].
    + specialize (IH Hwf Hm Hn).
      assert (n_decl : h ∈ t.*1); [|done].
      clear IH. revert Hwf Hm Hn. clear. revert m ps.
      induction t as [|[k kps] t IH]; intros m ps Hwf Hm Hn.
      { by apply elem_of_nil in Hm. }
      apply wf_taxonomy_cons in Hwf as (Hk & Hparents & Hwf).
      rewrite Forall_forall in Hparents. rewrite fmap_cons.
      apply elem_of_cons in Hm as [[= -> ->]|Hm].
      * right. by apply Hparents.
      * right. by eapply IH.
    + specialize (IH Hwf Hm Hn). lia.
Qed.

Lemma subclasses_depth (t : taxonomy) p c :
  wf_taxonomy t = true → c ∈ subclasses t p →
  depth_below t c < depth_below t p.
Proof.
  intros Hwf Hc. destruct p as [| |n]; simpl in *.
  - apply elem_of_subclasses_Thing in Hc as (m & -> & Hm). simpl.
    apply class_index_declared, list_elem_of_fmap. by exists (m, []).
  - by apply elem_of_nil in Hc.
  - apply list_elem_of_fmap in Hc as (m & -> & Hm).
    apply list_elem_of_fmap in Hm as ([m' ps] & -> & Hd).
    apply list_elem_of_filter in Hd as [Hn Hd]. rewrite elem_of_reverse in Hd.
    simpl in *. by eapply class_index_parent.
Qed.

Lemma elem_of_concat {X} (x : X) (ls : list (list X)) :
  x ∈ concat ls ↔ ∃ l, l ∈ ls ∧ x ∈ l.
Proof.
  rewrite list_elem_of_In, in_concat.
  by setoid_rewrite list_elem_of_In.
Qed.

Lemma mapM_exists {X Y} (f : X → option Y) (Q : X → Y → Prop) (l : list X) :
  (∀ x, x ∈ l → ∃ y, f x = Some y ∧ Q x y) →
  ∃ ys, mapM f l = Some ys ∧ Forall2 Q l ys.
Proof.
  induction l as [|x l IH]; intros Hall.
  { exists []. by split; [|constructor]. }
  destruct (Hall x) as (y & Hy & HQ); [left|].
  destruct IH as (ys & Hys & HF2).
  { intros x' Hx'. apply Hall. by right. }
  exists (y :: ys). split; [|by constructor].
  simpl. by rewrite Hy; simpl; rewrite Hys.
Qed.

Lemma parents_last_app t l k :
  parents_last t l → parents_last t k → parents_last t (l ++ k).
Proof.
  intros Hl Hk l1 p l2 d Heq Hd.
  apply app_eq_app in Heq as (m & [[Hl1 Hm]|[Hl1 Hm]]).
  - destruct m as [|q m]; simpl in Hm.
    + pose proof (Hk [] p l2 d (eq_sym Hm) Hd) as Hnil.
      by apply elem_of_nil in Hnil.
    + injection Hm as <- ->. by apply (Hl l1 p m d).
  - subst l1. apply elem_of_app. right. by apply (Hk m p l2 d).
Qed.

Lemma parents_first_app t l k :
  parents_first t l → parents_first t k → parents_first t (l ++ k).
Proof.
  intros Hl Hk l1 p l2 d Heq Hd.
  apply app_eq_app in Heq as (m & [[Hl1 Hm]|[Hl1 Hm]]).
  - destruct m as [|q m]; simpl in Hm.
    + by apply (Hk [] p l2 d).
    + injection Hm as <- ->. apply elem_of_app. left. by apply (Hl l1 p m d).
  - by apply (Hk m p l2 d).
Qed.

Lemma parents_last_snoc t l c :
  parents_last t l → (∀ d, strictly_below t c d → d ∈ l) →
  parents_last t (l ++ [c]).
Proof.
  intros Hl Hc l1 p l2 d Heq Hd.
  apply app_eq_app in Heq as (m & [[Hl1 Hm]|[Hl1 Hm]]).
  - destruct m as [|q m]; simplify_eq/=.
    + specialize (Hc d Hd). by rewrite app_nil_r in Hc.
    + by apply (Hl l1 q m d).
  - destruct m as [|q m]; [|by destruct m]. simplify_eq/=.
    rewrite app_nil_r. by apply Hc.
Qed.

Lemma parents_first_cons t l c :
  parents_first t l → (∀ d, strictly_below t c d → d ∈ l) →
  parents_first t (c :: l).
Proof.
  intros Hl Hc l1 p l2 d Heq Hd.
  destruct l1 as [|q l1]; simpl in Heq.
  - injection Heq as <- <-. by apply Hc.
  - injection Heq as <- ->. by apply (Hl l1 p l2 d).
Qed.

Lemma parents_last_concat t ls :
  Forall (parents_last t) ls → parents_last t (concat ls).
Proof.
  induction 1 as [|l ls Hl Hls IH]; simpl.
  - intros l1 p l2 d Heq. by destruct l1.
  - by apply parents_last_app.
Qed.

Lemma parents_first_concat t ls :
  Forall (parents_first t) ls → parents_first t (concat ls).
Proof.
  induction 1 as [|l ls Hl Hls IH]; simpl.
  - intros l1 p l2 d Heq. by destruct l1.
  - by apply parents_first_app.
Qed.

(** With enough fuel the traversal returns; the sequence contains the root
    and everything strictly below it, in the order of the chosen mode. *)
Lemma visit_classes_depth_first_spec (t : taxonomy) fuel root postorder :
  wf_taxonomy t = true → depth_below t root < fuel →
  ∃ l, visit_classes_depth_first fuel t (Some root) postorder = Some l
       ∧ root ∈ l
       ∧ (∀ d, strictly_below t root d → d ∈ l)
       ∧ (if postorder then parents_last t l else parents_first t l).
Proof.
  intros Hwf. revert root.
  induction fuel as [|fuel IH]; intros root Hdepth; [lia|].
  destruct (mapM_exists
    (λ child, visit_classes_depth_first fuel t (Some child) postorder)
    (λ child l, child ∈ l
       ∧ (∀ d, strictly_below t child d → d ∈ l)
       ∧ (if postorder then parents_last t l else parents_first t l))
    (subclasses t root)) as (below & Hbelow & HF2).
  { intros c Hc. apply IH.
    pose proof (subclasses_depth t root c Hwf Hc). lia. }
  assert (∀ d, strictly_below t root d → d ∈ concat below) as Hall.
  { intros d Hd. apply elem_of_concat.
    assert (∃ c, c ∈ subclasses t root ∧ (d = c ∨ strictly_below t c d))
      as (c & Hc & Hcd) by (inversion Hd; subst; eauto).
    apply list_elem_of_lookup in Hc as (i & Hi).
    destruct (Forall2_lookup_l _ _ _ _ _ HF2 Hi) as (l & Hl & Hcl & Hdl & _).
    exists l. split; [by eapply list_elem_of_lookup_2|].
    destruct Hcd as [->|Hcd]; auto. }
  simpl. rewrite Hbelow. simpl. eexists. split; [done|].
  destruct postorder; simpl.
  - split_and!.
    + apply elem_of_app. right. left.
    + intros d Hd. apply elem_of_app. left. by apply Hall.
    + apply parents_last_snoc; [|done].
      apply parents_last_concat. apply Forall_forall. intros l Hl.
      apply list_elem_of_lookup in Hl as (i & Hi).
      destruct (Forall2_lookup_r _ _ _ _ _ HF2 Hi) as (c & _ & _ & _ & ?).
      done.
  - rewrite app_nil_r. split_and!.
    + left.
    + intros d Hd. right. by apply Hall.
    + apply parents_first_cons; [|done].
      apply parents_first_concat. apply Forall_forall. intros l Hl.
      apply list_elem_of_lookup in Hl as (i & Hi).
      destruct (Forall2_lookup_r _ _ _ _ _ HF2 Hi) as (c & _ & _ & _ & ?).
      done.
Qed.



Lemma class_index_le (t : taxonomy) n : class_index t n ≤ length t.
Proof.
  induction t as [|[m ps] t IH]; simpl; [lia|].
  destruct (decide (n = m)); lia.
Qed.

Lemma depth_below_le (t : taxonomy) c : depth_below t c ≤ length t.
Proof. destruct c; simpl; [lia | lia | apply class_index_le]. Qed.

(** ** Instance creation *)

Lemma list_remove_elem_of `{EqDecision X} (x : X) (l : list X) :
  x ∈ l → ∃ r, list_remove x l = Some r ∧ l ≡ₚ x :: r.
Proof.
  induction l as [|y l IH]; intros Hx; [by apply elem_of_nil in Hx|].
  simpl. destruct (decide (x = y)) as [->|Hne]; [by eauto|].
  apply elem_of_cons in Hx as [?|Hx]; [done|].
  destruct (IH Hx) as (r & -> & Hperm). exists (y :: r). split; [done|].
  rewrite Hperm. apply Permutation_swap.
Qed.

Lemma instance_is_a_changed_elem_of is_a c :
  c ∈ instance_is_a_changed is_a → c ∈ is_a ∨ c = Thing.
Proof.
  destruct is_a; simpl; [|by left].
  intros ->%list_elem_of_singleton. by right.
Qed.

(** Removing types that were taken from the list itself never raises. *)
Lemma remove_types_ok (types is_a : list pyclass) :
  types ⊆+ is_a →
  ∃ l, remove_types types is_a = Ok l ∧ ∀ c, c ∈ l → c ∈ is_a ∨ c = Thing.
Proof.
  revert is_a. induction types as [|type types IH]; intros is_a Hsub; simpl.
  { exists is_a. by auto. }
  assert (type ∈ is_a) as Hin.
  { eapply elem_of_submseteq; [|done]. left. }
  destruct (list_remove_elem_of type is_a Hin) as (r & Hr & Hperm).
  unfold is_a_remove. rewrite Hr. simpl.
  rewrite Hperm in Hsub. apply (submseteq_app_inv_l _ _ [type]) in Hsub.
  destruct (IH (instance_is_a_changed r)) as (l & Hl & Hsubl).
  { destruct r; simpl; [|done]. apply submseteq_nil_r in Hsub as ->.
    apply submseteq_nil_l. }
  exists l. split; [done|]. intros c Hc.
  destruct (Hsubl c Hc) as [Hc'|?]; [|by right].
  apply instance_is_a_changed_elem_of in Hc' as [Hc'|?]; [|by right].
  left. rewrite Hperm. by right.
Qed.

(** Reclassifying to a class the individual already belongs to does not
    raise, provided the metaclass is not among the direct classes. *)
Lemma set_class_of_is_a_existing (t : taxonomy) is_a cls :
  ThingClass ∉ is_a →
  (∃ c, c ∈ is_a ∧ c ∈ descendants t cls true) →
  ∃ l, set_class_of_is_a t is_a cls = Ok l.
Proof.
  intros Hmeta (c & Hc & Hdesc). unfold set_class_of_is_a.
  assert (∃ l, (if bool_decide
                     (0 < length (filter (λ c, supertype t c cls true) is_a))
                then remove_types (filter (λ c, supertype t c cls true) is_a) is_a
                else Ok is_a) = Ok l
               ∧ ∀ c, c ∈ l → c ∈ is_a ∨ c = Thing) as (l & -> & Hl).
  { case_bool_decide; [|by eauto].
    apply remove_types_ok, sublist_submseteq, sublist_filter. }
  simpl.
  assert (c ∈ filter (λ c, subtype t c cls false) is_a) as Hspec.
  { apply list_elem_of_filter. split; [|done].
    apply Is_true_true. by apply subtype_true. }
  destruct (filter (λ c, subtype t c cls false) is_a) as [|c0 sp];
    [by apply elem_of_nil in Hspec|].
  rewrite (bool_decide_eq_false_2 (length (c0 :: sp) = 0)) by done.
  rewrite (bool_decide_eq_false_2 (ThingClass ∈ l)).
  2:{ intros Hin. by destruct (Hl _ Hin). }
  rewrite andb_false_r. by eauto.
Qed.

Lemma elem_of_instances (w : world) cls name :
  name ∈ instances w cls ↔
  ∃ i, individuals w !! name = Some i
       ∧ ∃ c, c ∈ is_instance_of i ∧ c ∈ descendants (onto w) cls true.
Proof.
  unfold instances. rewrite list_elem_of_fmap. split.
  - intros ([n i] & -> & Hin). apply list_elem_of_filter in Hin as [Hinst Hin].
    apply elem_of_map_to_list in Hin. exists i. split; [done|].
    unfold isinstance in Hinst. apply Is_true_true, bool_decide_eq_true in Hinst.
    by apply Exists_exists in Hinst.
  - intros (i & Hi & Hex). exists (name, i). split; [done|].
    apply list_elem_of_filter. split; [|by apply elem_of_map_to_list].
    apply Is_true_true, bool_decide_eq_true. by apply Exists_exists.
Qed.

Lemma first_or_none_filter_eq `{EqDecision X} (x : X) (l : list X) :
  first_or_none (filter (λ i, i = x) l)
  = if bool_decide (x ∈ l) then Some x else None.
Proof.
  induction l as [|y l IH]; [done|].
  rewrite filter_cons. destruct (decide (y = x)) as [->|Hne].
  - rewrite bool_decide_eq_true_2; [done | left].
  - rewrite IH.
    destruct (bool_decide_reflect (x ∈ l)), (bool_decide_reflect (x ∈ y :: l));
      try done; set_solver.
Qed.

Lemma wf_world_no_metaclass (w : world) name i :
  wf_world w = true → individuals w !! name = Some i →
  ThingClass ∉ is_instance_of i.
Proof.
  intros Hwf Hi Hin. apply bool_decide_eq_true in Hwf.
  specialize (Hwf name i Hi). simpl in Hwf.
  rewrite Forall_forall in Hwf. by apply Hwf in Hin.
Qed.

(** ** Merging instances *)

Lemma getattr_setattr (w : world) s q vs s' q' :
  getattr (setattr w s q vs) s' q' =
  if decide (s = s' ∧ q = q' ∧ is_Some (individuals w !! s))
  then vs else getattr w s' q'.
Proof.
  unfold getattr, setattr; simpl. rewrite lookup_alter.
  destruct (decide (s = s')) as [<-|Hs].
  - destruct (individuals w !! s) as [i|] eqn:Hi; simpl.
    + rewrite lookup_insert. destruct (decide (q = q')) as [<-|Hq].
      * rewrite decide_True; [done | eauto].
      * rewrite decide_False; [done | naive_solver].
    + rewrite decide_False; [done|]. intros (_ & _ & []). done.
  - rewrite decide_False; [done | naive_solver].
Qed.

Lemma grows_refl s w : grows s w w.
Proof. by split_and!. Qed.

Lemma grows_trans s w1 w2 w3 : grows s w1 w2 → grows s w2 w3 → grows s w1 w3.
Proof.
  intros (Hm1 & Ho1 & He1) (Hm2 & Ho2 & He2). split_and!.
  - intros. by apply Hm2, Hm1.
  - intros. by rewrite Ho2, Ho1.
  - auto.
Qed.

Lemma add_property_grows w s q v : grows s w (add_property w s q v).
Proof.
  unfold add_property. case_bool_decide as Hv; [|apply grows_refl].
  split_and!.
  - intros s' q' x Hx. rewrite getattr_setattr. case_decide as Heq; [|done].
    destruct Heq as (<- & <- & _). apply elem_of_app. by left.
  - intros s' q' Hne. rewrite getattr_setattr. rewrite decide_False; [done|].
    naive_solver.
  - intros [i Hi]. unfold setattr; simpl. rewrite lookup_alter, decide_True by done.
    rewrite Hi. by eauto.
Qed.

Lemma add_property_elem_of w s q v :
  is_Some (individuals w !! s) → v ∈ getattr (add_property w s q v) s q.
Proof.
  intros Hs. unfold add_property. case_bool_decide as Hv.
  - rewrite getattr_setattr, decide_True by done. apply elem_of_app. right. left.
  - done.
Qed.

(** [for value in prop_values: self.add_property(instance1, prop.name, value)] *)
Lemma add_values_grows s q (vs : list value) w :
  is_Some (individuals w !! s) →
  grows s w (foldl (λ w v, add_property w s q v) w vs)
  ∧ ∀ v, v ∈ vs → v ∈ getattr (foldl (λ w v, add_property w s q v) w vs) s q.
Proof.
  revert w. induction vs as [|v vs IH]; intros w Hs; simpl.
  { split; [apply grows_refl|]. intros v Hv. by apply elem_of_nil in Hv. }
  pose proof (add_property_grows w s q v) as Hg.
  destruct (IH (add_property w s q v)) as [Hg' Hin].
  { by apply Hg. }
  split; [by eapply grows_trans|].
  intros x Hx. apply elem_of_cons in Hx as [->|Hx]; [|by apply Hin].
  apply Hg'. by apply add_property_elem_of.
Qed.

(** The loop of [merge_instances] over the properties of [instance2]. *)
Lemma merge_loop_grows (s1 s2 : pystr) (props : list string) w :
  s1 ≠ s2 → is_Some (individuals w !! s1) →
  let w' :=
    foldl (λ w prop,
             if bool_decide (prop ≠ "fancyName")
             then foldl (λ w value, add_property w s1 prop value)
                    w (getattr w s2 prop)
             else w) w props in
  grows s1 w w'
  ∧ ∀ p v, p ∈ props → p ≠ "fancyName" → v ∈ getattr w s2 p →
           v ∈ getattr w' s1 p.
Proof.
  intros Hne. revert w. induction props as [|p props IH]; intros w Hs; simpl.
  { split; [apply grows_refl|]. intros p v Hp. by apply elem_of_nil in Hp. }
  set (w1 := if bool_decide (p ≠ "fancyName")
             then foldl (λ w value, add_property w s1 p value)
                    w (getattr w s2 p)
             else w).
  assert (grows s1 w w1
          ∧ (p ≠ "fancyName" → ∀ v, v ∈ getattr w s2 p → v ∈ getattr w1 s1 p))
    as [Hg1 Hin1].
  { unfold w1. case_bool_decide as Hp.
    - destruct (add_values_grows s1 p (getattr w s2 p) w Hs) as [Hg Hin].
      by split.
    - split; [apply grows_refl | done]. }
  destruct (IH w1) as [Hg Hin]; [by apply Hg1|].
  split; [by eapply grows_trans|].
  intros q v Hq Hfancy Hv. apply elem_of_cons in Hq as [->|Hq].
  - apply Hg. by apply Hin1.
  - apply Hin; [done..|].
    destruct Hg1 as (_ & Hother & _). by rewrite Hother.
Qed.

Lemma elem_of_get_properties (w : world) s p v :
  v ∈ getattr w s p → p ∈ get_properties w s.
Proof.
  unfold getattr, get_properties.
  destruct (individuals w !! s) as [i|]; [|by intros ?%elem_of_nil].
  destruct (properties i !! p) as [vs|] eqn:Hp; simpl; [|by intros ?%elem_of_nil].
  intros Hv. apply list_elem_of_fmap. exists (p, vs). split; [done|].
  apply list_elem_of_filter. split; [|by apply elem_of_map_to_list].
  simpl. intros ->. by apply elem_of_nil in Hv.
Qed.

Lemma getattr_destroy_entity (w : world) s s' p :
  s' ≠ s →
  getattr (destroy_entity w s) s' p = filter (λ v, v ≠ Ind s) (getattr w s' p).
Proof.
  intros Hne. unfold getattr, destroy_entity; simpl.
  rewrite lookup_fmap, lookup_delete_ne by done.
  destruct (individuals w !! s') as [i|]; simpl; [|done].
  rewrite lookup_fmap. by destruct (properties i !! p).
Qed.

Lemma destroy_entity_gone (w : world) s :
  individuals (destroy_entity w s) !! s = None.
Proof.
  unfold destroy_entity; simpl. by rewrite lookup_fmap, lookup_delete_eq.
Qed.

Lemma instances_exists (w : world) cls name :
  name ∈ instances w cls → is_Some (individuals w !! name).
Proof. intros (i & Hi & _)%elem_of_instances. by eauto. Qed.

(** C10: merging an instance of the scoping class with itself passes both
    membership checks and returns [True], and the final [destroy_entity]
    deletes that very individual: afterwards it is not in the store, nor
    among the instances of any class. *)
Theorem merge_instances_self (w : world) (cls : pyclass) (i : pystr) :
  i ∈ instances w cls →
  (merge_instances w i i cls).1 = true
  ∧ individuals (merge_instances w i i cls).2 !! i = None
  ∧ ∀ cls', i ∉ instances (merge_instances w i i cls).2 cls'.
Proof.
  intros Hi. unfold merge_instances.
  rewrite (bool_decide_eq_true_2 _ Hi). simpl.
  split_and!; [done | apply destroy_entity_gone |].
  intros cls' Hin. apply instances_exists in Hin as [x Hx].
  by rewrite destroy_entity_gone in Hx.
Qed.

Lemma merge_instances_self_witness :
  py "tweety" ∈ instances tweety_world (Named "Animal")
  ∧ (merge_instances tweety_world (py "tweety") (py "tweety") (Named "Animal")).1
    = true.
Proof.
  assert (py "tweety" ∈ instances tweety_world (Named "Animal")) as Hin.
  { vm_compute. repeat constructor. }
  split; [exact Hin|].
  exact (proj1 (merge_instances_self tweety_world (Named "Animal")
                  (py "tweety") Hin)).
Defined.

(** C2, as stated, fails in two ways.  Merging [tweety] with itself returns
    [True] and destroys the survivor together with the value it held; and a
    value that is the absorbed individual itself is removed from the
    survivor when the absorbed individual is destroyed. *)
Lemma merge_instances_loses_values :
  (let r := merge_instances tweety_world (py "tweety") (py "tweety")
              (Named "Bird") in
   py "tweety" ∈ instances tweety_world (Named "Bird")
   ∧ r.1 = true
   ∧ Lit (py "fish") ∈ getattr tweety_world (py "tweety") "eats"
   ∧ Lit (py "fish") ∉ getattr r.2 (py "tweety") "eats")
  ∧ (let r := merge_instances pingu_world (py "tweety") (py "pingu")
                (Named "Bird") in
     py "tweety" ∈ instances pingu_world (Named "Bird")
     ∧ py "pingu" ∈ instances pingu_world (Named "Bird")
     ∧ r.1 = true
     ∧ Ind (py "pingu") ∈ getattr pingu_world (py "pingu") "knows"
     ∧ Ind (py "pingu") ∉ getattr r.2 (py "tweety") "knows").
Proof.
  split.
  - split_and!.
    + vm_compute. repeat constructor.
    + by vm_compute.
    + vm_compute. repeat constructor.
    + vm_compute. by intros ?%elem_of_nil.
  - split_and!.
    + vm_compute. repeat constructor.
    + vm_compute. repeat constructor.
    + by vm_compute.
    + vm_compute. repeat constructor.
    + vm_compute. by intros ?%elem_of_nil.
Qed.

(** C2, amended: when either instance is not among the instances of the
    scoping class, [merge_instances] returns [False] and the store is
    unchanged; otherwise it returns [True], the absorbed individual is gone,
    and, when the two instances are distinct, every value of every property
    of the absorbed individual other than [fancyName] is among the values of
    that property of the survivor, except for the absorbed individual
    itself. *)
Theorem merge_instances_spec (w : world) (instance1 instance2 : pystr)
    (cls : pyclass) :
  (instance1 ∉ instances w cls ∨ instance2 ∉ instances w cls →
   merge_instances w instance1 instance2 cls = (false, w))
  ∧ (instance1 ∈ instances w cls → instance2 ∈ instances w cls →
     ∃ w', merge_instances w instance1 instance2 cls = (true, w')
           ∧ individuals w' !! instance2 = None
           ∧ (instance1 ≠ instance2 →
              ∀ prop v, prop ≠ "fancyName" →
                        v ∈ getattr w instance2 prop →
                        v ≠ Ind instance2 →
                        v ∈ getattr w' instance1 prop)).
Proof.
  split.
  - intros Hnot. unfold merge_instances.
    destruct (bool_decide_reflect (instance1 ∈ instances w cls)); [|done].
    destruct (bool_decide_reflect (instance2 ∈ instances w cls)); [|done].
    by destruct Hnot.
  - intros H1 H2. unfold merge_instances.
    rewrite (bool_decide_eq_true_2 _ H1), (bool_decide_eq_true_2 _ H2). simpl.
    eexists. split; [done|]. split; [apply destroy_entity_gone|].
    intros Hne prop v Hfancy Hv Hself.
    rewrite getattr_destroy_entity by done.
    apply list_elem_of_filter. split; [done|].
    destruct (merge_loop_grows instance1 instance2
                (get_properties w instance2) w Hne) as [_ Hin].
    { by eapply instances_exists. }
    apply Hin; [|done..]. by eapply elem_of_get_properties.
Qed.

Lemma merge_instances_spec_witness :
  py "tweety" ∈ instances pingu_world (Named "Bird")
  ∧ py "pingu" ∈ instances pingu_world (Named "Bird")
  ∧ ∃ w', merge_instances pingu_world (py "tweety") (py "pingu") (Named "Bird")
          = (true, w')
          ∧ individuals w' !! py "pingu" = None.
Proof.
  assert (py "tweety" ∈ instances pingu_world (Named "Bird")) as H1.
  { vm_compute. repeat constructor. }
  assert (py "pingu" ∈ instances pingu_world (Named "Bird")) as H2.
  { vm_compute. repeat constructor. }
  split; [exact H1|]. split; [exact H2|].
  destruct (proj2 (merge_instances_spec pingu_world (py "tweety") (py "pingu")
                     (Named "Bird")) H1 H2) as (w' & Hw' & Hgone & _).
  exists w'. by split.
Defined.

(** ** Reclassification *)

(** *** What reclassification does in general *)

(** The removal loop drops exactly the too-generic types; when nothing is
    left, the store has put [Thing] into the list. *)
Lemma remove_types_filter (P : pyclass → Prop) `{!∀ c, Decision (P c)}
    (pre is_a : list pyclass) :
  Forall (λ c, ¬ P c) pre →
  remove_types (filter P is_a) (pre ++ is_a)
  = Ok (match filter P is_a with
        | [] => pre ++ is_a
        | _ => instance_is_a_changed (pre ++ filter (λ c, ¬ P c) is_a)
        end).
Proof.
  revert pre. induction is_a as [|x is_a IH]; intros pre Hpre.
  { done. }
  rewrite !filter_cons. destruct (decide (P x)) as [HP|HP].
  - rewrite decide_False by auto. simpl. unfold is_a_remove.
    assert (list_remove x (pre ++ x :: is_a) = Some (pre ++ is_a)) as ->.
    { clear IH. induction pre as [|y pre IHpre]; simpl.
      - by rewrite decide_True.
      - apply Forall_cons in Hpre as [Hy Hpre].
        rewrite decide_False by (intros ->; done). by rewrite IHpre. }
    simpl. destruct (pre ++ is_a) as [|y l] eqn:Heq.
    + apply app_eq_nil in Heq as [-> ->]. done.
    + rewrite <-Heq. change (instance_is_a_changed (pre ++ is_a))
        with (match pre ++ is_a with [] => [Thing] | _ => pre ++ is_a end).
      rewrite Heq, <-Heq. rewrite (IH pre Hpre).
      destruct (filter P is_a) as [|z l'] eqn:Hf; [|done].
      f_equal.
      assert (filter (λ c, ¬ P c) is_a = is_a) as ->.
      { clear -Hf. induction is_a as [|a is_a IH]; [done|].
        rewrite filter_cons in Hf. rewrite filter_cons.
        destruct (decide (P a)); [done|].
        rewrite decide_True by done. by rewrite IH. }
      by rewrite Heq.
  - rewrite decide_True by done.
    replace (pre ++ x :: is_a) with ((pre ++ [x]) ++ is_a)
      by by rewrite <-app_assoc.
    rewrite IH by (apply Forall_app; split; [done | by constructor]).
    by rewrite <-!app_assoc.
Qed.

Lemma filter_nil_not (P : pyclass → Prop) `{!∀ c, Decision (P c)} l :
  filter P l = [] → filter (λ c, ¬ P c) l = l.
Proof.
  induction l as [|a l IH]; [done|]. rewrite !filter_cons.
  destruct (decide (P a)); [done|]. intros Hf.
  rewrite decide_True by done. by rewrite IH.
Qed.

Lemma filter_nil_Forall (P : pyclass → Prop) `{!∀ c, Decision (P c)} l :
  filter P l = [] → Forall (λ c, ¬ P c) l.
Proof.
  intros Hf. apply Forall_forall. intros x Hx HP.
  assert (x ∈ filter P l) as Hin by by apply list_elem_of_filter.
  rewrite Hf in Hin. by apply elem_of_nil in Hin.
Qed.

Lemma most_specific_snoc (t : taxonomy) l c :
  wf_taxonomy t = true → most_specific t l →
  (∀ d, d ∈ l → (d ∉ ancestors t c false) ∧ (c ∉ ancestors t d false)) →
  most_specific t (l ++ [c]).
Proof.
  intros Hwf Hl Hc c1 c2 H1 H2.
  apply elem_of_app in H1 as [H1|H1]; apply elem_of_app in H2 as [H2|H2];
    try apply list_elem_of_singleton in H1 as ->;
    try apply list_elem_of_singleton in H2 as ->.
  - by apply Hl.
  - by apply Hc.
  - by apply Hc.
  - by apply ancestors_irrefl.
Qed.

Lemma most_specific_filter (t : taxonomy) (P : pyclass → Prop)
    `{!∀ c, Decision (P c)} l :
  most_specific t l → most_specific t (filter P l).
Proof.
  intros Hl c1 c2 [_ H1]%list_elem_of_filter [_ H2]%list_elem_of_filter.
  by apply Hl.
Qed.

(** What [set_class_of_instance] does to a list of direct classes that
    satisfies the invariant: it never raises and never leaves the list
    empty; the invariant is kept except when every direct class is a strict
    ancestor of the new class, in which case the result is [Thing] followed
    by the new class. *)
Lemma set_class_of_is_a_spec (t : taxonomy) (is_a : list pyclass)
    (cls : pyclass) :
  wf_taxonomy t = true →
  Forall (λ c, declared t c = true) is_a → declared t cls = true →
  is_a ≠ [] → most_specific t is_a →
  ∃ l, set_class_of_is_a t is_a cls = Ok l
       ∧ l ≠ []
       ∧ (most_specific t l
          ∨ (l = [Thing; cls]
             ∧ Forall (λ c, c ∈ ancestors t cls false) is_a
             ∧ ¬ most_specific t l)).
Proof.
  intros Hwf Hdecl Hcls Hne Hinv. unfold set_class_of_is_a.
  set (G := λ c : pyclass, Is_true (supertype t c cls true)).
  set (S := λ c : pyclass, Is_true (subtype t c cls false)).
  assert (∀ c, G c ↔ c ∈ ancestors t cls false) as HG.
  { intros c. unfold G. by rewrite Is_true_true, supertype_true. }
  assert (∀ c, S c ↔ cls ∈ ancestors t c true) as HS.
  { intros c. unfold S. rewrite Is_true_true, subtype_true. simpl.
    by apply descendants_ancestors. }
  assert (ThingClass ∉ is_a) as Hmeta.
  { intros Hin. rewrite Forall_forall in Hdecl. by apply Hdecl in Hin. }
  assert (cls ≠ ThingClass) as HclsM by (by intros ->).
  (* the removal of the too-generic types *)
  assert ((if bool_decide (0 < length (filter G is_a))
           then remove_types (filter G is_a) is_a else Ok is_a)
          = Ok (match filter G is_a with
                | [] => is_a
                | _ => instance_is_a_changed (filter (λ c, ¬ G c) is_a)
                end)) as ->.
  { pose proof (remove_types_filter G [] is_a (Forall_nil_2 _)) as Hrm.
    simpl in Hrm. destruct (filter G is_a) as [|g gs] eqn:HfG; [done|].
    by rewrite bool_decide_eq_true_2 by (simpl; lia). }
  simpl.
  destruct (filter S is_a) as [|s ss] eqn:HfS.
  - (* no direct class is [cls] or below it: [cls] is appended *)
    rewrite (bool_decide_eq_true_2 (length (@nil pyclass) = 0)) by done.
    pose proof (filter_nil_Forall S is_a HfS) as HnotS.
    rewrite Forall_forall in HnotS.
    destruct (filter (λ c, ¬ G c) is_a) as [|k ks] eqn:HfK.
    + (* every direct class is too generic *)
      destruct (filter G is_a) as [|g gs] eqn:HfG.
      { apply filter_nil_not in HfG. rewrite HfK in HfG. by subst is_a. }
      assert (g ∈ ancestors t cls false) as Hg.
      { apply HG. assert (g ∈ filter G is_a) as Hin by (rewrite HfG; left).
        by apply list_elem_of_filter in Hin as [? _]. }
      assert (cls ≠ Thing) as HclsT.
      { intros ->. by apply elem_of_ancestors_strict in Hg as (? & ? & _). }
      assert (Thing ∈ ancestors t cls false) as HThing.
      { by destruct (Thing_above t cls Hcls). }
      simpl. change (is_a_append cls [Thing]) with [Thing; cls].
      rewrite (bool_decide_eq_false_2 (ThingClass ∈ [Thing; cls])).
      2:{ rewrite !elem_of_cons, elem_of_nil. naive_solver. }
      rewrite ?andb_false_r. eexists. split; [done|]. split; [done|]. right.
      split; [done|]. split.
      * apply Forall_forall. intros c Hc. apply HG.
        apply dec_stable. intros HnG.
        assert (c ∈ filter (λ c, ¬ G c) is_a) as Hin
          by by apply list_elem_of_filter.
        rewrite HfK in Hin. by apply elem_of_nil in Hin.
      * intros Hbad. apply (Hbad Thing cls); [left | right; left | done].
    + (* some direct class stays *)
      assert (match filter G is_a with
              | [] => is_a
              | _ => instance_is_a_changed (k :: ks)
              end = k :: ks) as ->.
      { destruct (filter G is_a) eqn:HfG; [|done].
        apply filter_nil_not in HfG. by rewrite <-HfG, HfK. }
      assert (∀ d, d ∈ k :: ks → d ∈ is_a ∧ ¬ G d) as Hk.
      { intros d Hd. rewrite <-HfK in Hd.
        by apply list_elem_of_filter in Hd as [? ?]. }
      change (is_a_append cls (k :: ks)) with (k :: ks ++ [cls]).
      rewrite (bool_decide_eq_false_2 (ThingClass ∈ k :: ks ++ [cls])).
      2:{ rewrite elem_of_cons, elem_of_app, list_elem_of_singleton.
          intros [?|[Hin|?]]; [| |done].
          - destruct (Hk k) as [Hin _]; [left|]. by subst k.
          - destruct (Hk ThingClass) as [Hin' _]; [by right|]. done. }
      rewrite ?andb_false_r. eexists. split; [done|]. split; [done|]. left.
      change (k :: ks ++ [cls]) with ((k :: ks) ++ [cls]).
      apply most_specific_snoc; [done | |].
      * rewrite <-HfK. by apply most_specific_filter.
      * intros d Hd. destruct (Hk d Hd) as [Hin HnG]. split.
        -- by rewrite <-HG.
        -- intros Hcd. apply (HnotS d Hin). apply HS.
           apply elem_of_ancestors_self. by right.
  - (* some direct class is [cls] or below it: nothing is too generic *)
    assert (s ∈ is_a ∧ S s) as [Hs HSs].
    { assert (s ∈ filter S is_a) as Hin by (rewrite HfS; left).
      by apply list_elem_of_filter in Hin as [? ?]. }
    assert (filter G is_a = []) as ->.
    { destruct (filter G is_a) as [|g gs] eqn:HfG; [done|]. exfalso.
      assert (g ∈ is_a ∧ G g) as [Hg HGg].
      { assert (g ∈ filter G is_a) as Hin by (rewrite HfG; left).
        by apply list_elem_of_filter in Hin as [? ?]. }
      apply HG in HGg. apply HS, elem_of_ancestors_self in HSs.
      apply (Hinv g s Hg Hs).
      destruct HSs as [->|HSs]; [done|]. by eapply ancestors_trans. }
    rewrite (bool_decide_eq_false_2 (length (s :: ss) = 0)) by done.
    rewrite (bool_decide_eq_false_2 (ThingClass ∈ is_a)) by done.
    rewrite ?andb_false_r. eexists. split; [done|]. split; [done|]. by left.
Qed.

(** C1 does not hold of the code.  An individual whose only direct class is
    [Bird] satisfies the invariant; reclassifying it to [Penguin] removes
    [Bird], upon which the store puts [Thing] into the emptied list, then
    appends [Penguin].  The clean-up that follows tests for
    [owlready.ThingClass], which is never in the list, so [Thing] stays next
    to [Penguin], a class together with a strict ancestor. *)
Theorem set_class_of_instance_keeps_Thing :
  direct_classes tweety_world (py "tweety") = Some [Named "Bird"]
  ∧ most_specific animal_chain [Named "Bird"]
  ∧ ∃ w', set_class_of_instance tweety_world (py "tweety") (Named "Penguin")
          = Ok w'
          ∧ direct_classes w' (py "tweety") = Some [Thing; Named "Penguin"]
          ∧ ¬ most_specific animal_chain [Thing; Named "Penguin"].
Proof.
  split; [done|]. split.
  - intros c1 c2 ->%list_elem_of_singleton ->%list_elem_of_singleton.
    by vm_compute.
  - eexists. split; [by vm_compute|]. split; [by vm_compute|].
    intros Hinv. apply (Hinv Thing (Named "Penguin")).
    + left.
    + right. left.
    + by vm_compute.
Qed.

(** C3 does not hold of the code.  In the chain Animal ⊃ Bird ⊃ Penguin,
    [add_instance] creates [tweety] under [Bird]; reclassifying it to
    [Penguin] leaves the direct classes [Thing] and [Penguin], not
    [Penguin] alone; reclassifying again to [Animal] removes [Thing] as too
    generic, does not add [Animal], and leaves [Penguin].  The three lists
    are the direct classes after each of the three calls. *)
Theorem tweety_scenario (db : unicode_db)
    (numbered_name : world → pyclass → pystr) :
  tweety_steps db numbered_name
  = Ok [Some [Named "Bird"]; Some [Thing; Named "Penguin"];
        Some [Named "Penguin"]].
Proof. vm_compute. reflexivity. Qed.

(** ** The properties at concrete inputs *)

Lemma owl_name_idempotent_witness :
  table_ascii question_mark_db
  ∧ owl_name question_mark_db
      (owl_name question_mark_db (py "  Emperor penguin! ") false) false
    = owl_name question_mark_db (py "  Emperor penguin! ") false.
Proof.
  assert (table_ascii question_mark_db) as Htable.
  { intros c. repeat constructor. }
  split; [exact Htable|].
  exact (owl_name_idempotent question_mark_db Htable
           (py "  Emperor penguin! ") false).
Defined.

Lemma subtype_reflexive_and_dual_witness :
  wf_taxonomy animal_chain = true
  ∧ subtype animal_chain (Named "Bird") (Named "Bird") false = true
  ∧ subtype animal_chain (Named "Penguin") (Named "Animal") true
    = supertype animal_chain (Named "Animal") (Named "Penguin") true.
Proof.
  assert (wf_taxonomy animal_chain = true) as Hwf by reflexivity.
  destruct (subtype_reflexive_and_dual animal_chain Hwf) as [Hrefl Hdual].
  split; [exact Hwf|]. split; [exact (proj1 (Hrefl _)) | apply Hdual].
Defined.

Lemma find_root_class_spec_witness :
  wf_taxonomy animal_chain = true
  ∧ _find_root_class animal_chain = Named "Animal".
Proof.
  assert (wf_taxonomy animal_chain = true) as Hwf by reflexivity.
  split; [exact Hwf|].
  apply (proj1 (proj2 (find_root_class_spec animal_chain Hwf))).
  intros c'. change (subclasses animal_chain Thing) with [Named "Animal"].
  apply list_elem_of_singleton.
Defined.

(* ================================================================== *)
(** * Further properties of the utilities *)

(** ** [overlap]: laziness and symmetry *)

Section overlap_lazy.
Context `{Countable A}.
Implicit Types s : overlap_state (A:=A).

Lemma reach_pull (met : gset A) (y : A) (rest : list A) x d :
  reach met (y :: rest) x d → reach ({[y]} ∪ met) rest x (pred d).
Proof.
  intros [[-> Hx]|(i & -> & Hi)]; simpl.
  - left. split; [done | set_solver].
  - destruct i as [|i]; simpl in Hi.
    + injection Hi as ->. left. split; [done | set_solver].
    + right. by exists i.
Qed.

Lemma reach_nil (met : gset A) x d : reach met [] x d → d = 0 ∧ x ∈ met.
Proof. intros [?|(i & _ & Hi)]; [done|]. by rewrite lookup_nil in Hi. Qed.

Lemma advance_a_reach s x da db :
  overlap_inv s →
  reach (met_in_a s) (iter_a s) x da → reach (met_in_b s) (iter_b s) x db →
  match advance_a s with
  | Returned r => r = true
  | Running s' =>
      reach (met_in_a s') (iter_a s') x (pred da)
      ∧ reach (met_in_b s') (iter_b s') x db
  end.
Proof.
  destruct s as [ra rb ma mb oa ob]. intros (Hdisj & Ha & Hb) Hra Hrb.
  simpl in *. unfold advance_a; simpl. destruct oa.
  { rewrite Ha in Hra by done. apply reach_nil in Hra as [-> ?].
    split; [by left | done]. }
  destruct ra as [|y ra]; simpl.
  { apply reach_nil in Hra as [-> ?]. split; [by left | done]. }
  case_bool_decide; [done|]. simpl. split; [by apply reach_pull | done].
Qed.

Lemma advance_b_reach s x da db :
  overlap_inv s →
  reach (met_in_a s) (iter_a s) x da → reach (met_in_b s) (iter_b s) x db →
  match advance_b s with
  | Returned r => r = true
  | Running s' =>
      reach (met_in_a s') (iter_a s') x da
      ∧ reach (met_in_b s') (iter_b s') x (pred db)
  end.
Proof.
  destruct s as [ra rb ma mb oa ob]. intros (Hdisj & Ha & Hb) Hra Hrb.
  simpl in *. unfold advance_b; simpl. destruct ob.
  { rewrite Hb in Hrb by done. apply reach_nil in Hrb as [-> ?].
    split; [done | by left]. }
  destruct rb as [|y rb]; simpl.
  { apply reach_nil in Hrb as [-> ?]. split; [done | by left]. }
  case_bool_decide; [done|]. simpl. split; [done | by apply reach_pull].
Qed.

(** An item at distance [da] on one side and [db] on the other is found
    within [max da db] rounds. *)
Lemma overlap_loop_reach fuel s x da db :
  overlap_inv s →
  reach (met_in_a s) (iter_a s) x da → reach (met_in_b s) (iter_b s) x db →
  da ≤ fuel → db ≤ fuel →
  overlap_loop fuel s = Some true.
Proof.
  revert s da db. induction fuel as [|fuel IH]; intros s da db Hinv Hra Hrb Hda Hdb.
  { assert (da = 0) as -> by lia. assert (db = 0) as -> by lia.
    destruct Hra as [[_ Hxa]|(i & ? & _)]; [|done].
    destruct Hrb as [[_ Hxb]|(i & ? & _)]; [|done].
    destruct Hinv as (Hdisj & _). set_solver. }
  simpl. destruct (over_a s && over_b s) eqn:Hover.
  { apply andb_true_iff in Hover as [Hoa Hob].
    destruct Hinv as (Hdisj & Ha & Hb).
    rewrite Ha in Hra by done. rewrite Hb in Hrb by done.
    apply reach_nil in Hra as [_ ?]. apply reach_nil in Hrb as [_ ?].
    set_solver. }
  unfold overlap_round.
  pose proof (advance_a_spec s Hinv) as Hsa.
  pose proof (advance_a_reach s x da db Hinv Hra Hrb) as Hreach_a.
  destruct (advance_a s) as [r|s1]; [by rewrite Hreach_a|].
  destruct Hsa as (Hinv1 & _). destruct Hreach_a as [Hra1 Hrb1].
  pose proof (advance_b_spec s1 Hinv1) as Hsb.
  pose proof (advance_b_reach s1 x _ _ Hinv1 Hra1 Hrb1) as Hreach_b.
  destruct (advance_b s1) as [r|s2]; [by rewrite Hreach_b|].
  destruct Hsb as (Hinv2 & _). destruct Hreach_b as [Hra2 Hrb2].
  eapply IH; [done | done | done | lia | lia].
Qed.

(** X1: [overlap] is lazy.  When the item at index [i] of the first
    sequence equals the item at index [j] of the second, the loop returns
    [True] within [max i j + 1] rounds, each of which takes at most one item
    from either iterator; what follows these items is never looked at. *)
Theorem overlap_early_exit (a b : list A) (x : A) (i j : nat) :
  a !! i = Some x → b !! j = Some x →
  overlap_loop (S (max i j)) (overlap_init a b) = Some true.
Proof.
  intros Ha Hb. apply (overlap_loop_reach _ _ x (S i) (S j)).
  - split_and!; simpl; [set_solver | done | done].
  - right. by exists i.
  - right. by exists j.
  - lia.
  - lia.
Qed.

(** X2: [overlap] does not depend on the order of its arguments, although
    it always advances the first one first; with an empty sequence on
    either side it is [False]. *)
Theorem overlap_symmetric (a b : list A) :
  overlap a b = overlap b a ∧ overlap [] b = false ∧ overlap a [] = false.
Proof.
  split_and!.
  - apply bool_eq_iff. rewrite !overlap_true. naive_solver.
  - apply not_true_is_false. rewrite overlap_true.
    intros (x & Hx & _). by apply elem_of_nil in Hx.
  - apply not_true_is_false. rewrite overlap_true.
    intros (x & _ & Hx). by apply elem_of_nil in Hx.
Qed.
End overlap_lazy.

Lemma overlap_early_exit_witness :
  [1; 2; 3] !! 2 = Some 3 ∧ [3; 4] !! 0 = Some 3
  ∧ overlap_loop 3 (overlap_init [1; 2; 3] [3; 4]) = Some true.
Proof.
  split; [reflexivity|]. split; [reflexivity|].
  exact (overlap_early_exit [1; 2; 3] [3; 4] 3 2 0 eq_refl eq_refl).
Defined.

(** ** Strings: shapes of the results *)

Lemma removelast_prefix {X} (l : list X) : removelast l `prefix_of` l.
Proof.
  destruct l as [|x l _] using rev_ind; [done|].
  rewrite removelast_last. by apply prefix_app_r.
Qed.

Lemma drop_trailing_prefix fuel (s r : pystr) :
  drop_trailing fuel s r `prefix_of` s.
Proof.
  revert s. induction fuel as [|fuel IH]; intros s; simpl; [done|].
  destruct (endswith s r); [|done].
  etrans; [apply IH | apply removelast_prefix].
Qed.

Lemma drop_trailing_underscores fuel n :
  n ≤ fuel → drop_trailing fuel (replicate n 95%N) (py "_") = [].
Proof.
  revert n. induction fuel as [|fuel IH]; intros n Hn; simpl.
  { by assert (n = 0) as -> by lia. }
  destruct n as [|n]; [done|].
  assert (endswith (replicate (S n) 95%N) (py "_") = true) as ->.
  { apply bool_decide_eq_true. exists (replicate n 95%N).
    by rewrite replicate_S_end. }
  rewrite replicate_S_end, removelast_last. apply IH. lia.
Qed.

(** X3: whatever the name and the replacement, as long as the replacement
    is not empty and holds no backslash (so that [re.sub] inserts it as it
    stands), the result of [replace_symbols_with] does not end with the
    replacement and consists of characters of [[A-Za-z\d_]] and characters
    of the replacement; with ["_"] as replacement a name made of symbols
    only is reduced to the empty string. *)
Theorem replace_symbols_with_shape (db : unicode_db) (name r : pystr) :
  r ≠ [] → 92%N ∉ r →
  endswith (replace_symbols_with db name r) r = false
  ∧ Forall (λ c, is_word_char db c = true ∨ c ∈ r)
      (replace_symbols_with db name r)
  ∧ (Forall (λ c, is_word_char db c = false) name →
     replace_symbols_with db name (py "_") = []).
Proof.
  intros Hr _. split_and!.
  - by apply replace_symbols_with_ends.
  - unfold replace_symbols_with.
    eapply Forall_prefix; [apply drop_trailing_prefix|].
    induction name as [|c name IH]; [constructor|].
    rewrite pattern_symbols_sub_cons. apply Forall_app. split; [|done].
    destruct (is_word_char db c) eqn:Hc.
    + constructor; [by left | constructor].
    + apply Forall_forall. by right.
  - intros Hsym. unfold replace_symbols_with.
    assert (pattern_symbols_sub db (py "_") name
            = replicate (length name) 95%N) as ->.
    { induction Hsym as [|c name Hc _ IH]; [done|].
      by rewrite pattern_symbols_sub_cons, Hc, IH. }
    rewrite length_replicate. by apply drop_trailing_underscores.
Qed.

Lemma replace_symbols_with_shape_witness :
  py "-" ≠ [] ∧ (92%N ∉ py "-")
  ∧ endswith (replace_symbols_with question_mark_db (py "a b!") (py "-"))
      (py "-") = false.
Proof.
  assert (py "-" ≠ []) as Hr by done.
  assert (92%N ∉ py "-") as Hplain.
  { vm_compute. by intros ?%list_elem_of_singleton. }
  split; [exact Hr|]. split; [exact Hplain|].
  exact (proj1 (replace_symbols_with_shape question_mark_db (py "a b!")
                  (py "-") Hr Hplain)).
Defined.

Lemma lower_ascii_lower_word c :
  ascii_word c = true → lower_word (lower_ascii c) = true.
Proof. intros Hc. unfold lower_word. char_solve. Qed.

Lemma lower_word_ascii_word c : lower_word c = true → ascii_word c = true.
Proof. unfold lower_word. intros Hc. char_solve. Qed.

Lemma lower_ascii_lower_word_id c : lower_word c = true → lower_ascii c = c.
Proof. unfold lower_word. intros Hc. char_solve. Qed.

(** X4: for every string, the instance name that [owl_name] computes
    consists of lower-case ASCII letters, digits and underscores and does
    not end with an underscore; the class name is the instance name with
    its first character upper-cased. *)
Theorem owl_name_alphabet (db : unicode_db) (s : pystr) :
  table_ascii db →
  Forall (λ c, lower_word c = true) (owl_name db s true)
  ∧ last (owl_name db s true) ≠ Some 95%N
  ∧ owl_name db s false
    = match owl_name db s true with
      | [] => []
      | c :: r => upper_ascii c :: r
      end.
Proof.
  intros Htable.
  change (owl_name db s true) with (normalise db s).
  change (owl_name db s false) with (capitalize db (normalise db s)).
  destruct (normalise_spec db Htable s) as (x & Hx & Hid).
  pose proof (map_lower_identifier x Hid) as [_ Hlast].
  rewrite Hx. split_and!.
  - destruct Hid as [Hw _]. apply Forall_fmap.
    eapply Forall_impl; [exact Hw|]. apply lower_ascii_lower_word.
  - done.
  - rewrite (capitalize_lowered db x Hid). by destruct x.
Qed.

Lemma owl_name_alphabet_witness :
  table_ascii question_mark_db
  ∧ last (owl_name question_mark_db (py "Snow owl__") true) ≠ Some 95%N.
Proof.
  assert (table_ascii question_mark_db) as Htable.
  { intros c. repeat constructor. }
  split; [exact Htable|].
  exact (proj1 (proj2 (owl_name_alphabet question_mark_db (py "Snow owl__")
                         Htable))).
Defined.

(** X5: the two modes of [owl_name] agree up to the case of the first
    letter: the instance name of a class name is the instance name, and the
    class name of an instance name is the class name. *)
Theorem owl_name_modes (db : unicode_db) (s : pystr) :
  table_ascii db →
  owl_name db (owl_name db s false) true = owl_name db s true
  ∧ owl_name db (owl_name db s true) false = owl_name db s false.
Proof.
  intros Htable.
  change (owl_name db (owl_name db s false) true)
    with (normalise db (capitalize db (normalise db s))).
  change (owl_name db (owl_name db s true) false)
    with (capitalize db (normalise db (normalise db s))).
  change (owl_name db s true) with (normalise db s).
  change (owl_name db s false) with (capitalize db (normalise db s)).
  split.
  - destruct (normalise_spec db Htable s) as (x & -> & Hid).
    by apply normalise_capitalize.
  - by rewrite (normalise_idemp db Htable).
Qed.

Lemma owl_name_modes_witness :
  table_ascii question_mark_db
  ∧ owl_name question_mark_db
      (owl_name question_mark_db (py "snow Owl") false) true
    = owl_name question_mark_db (py "snow Owl") true.
Proof.
  assert (table_ascii question_mark_db) as Htable.
  { intros c. repeat constructor. }
  split; [exact Htable|].
  exact (proj1 (owl_name_modes question_mark_db (py "snow Owl") Htable)).
Defined.

(** ** [name_to_snake_case] *)

Lemma replace_space_ascii s :
  Forall (λ c, is_ascii c = true) s →
  Forall (λ c, is_ascii c = true) (replace_space s).
Proof.
  intros Hs. apply Forall_fmap. eapply Forall_impl; [exact Hs|].
  intros c Hc. simpl. case_bool_decide; [done | exact Hc].
Qed.

Lemma snake_char_fix c :
  lower_ascii
    (if bool_decide (lower_ascii (if bool_decide (c = 32%N) then 95%N else c)
                     = 32%N)
     then 95%N
     else lower_ascii (if bool_decide (c = 32%N) then 95%N else c))
  = lower_ascii (if bool_decide (c = 32%N) then 95%N else c).
Proof. repeat case_bool_decide; subst; char_solve. Qed.

Lemma snake_char_shape c :
  lower_ascii (if bool_decide (c = 32%N) then 95%N else c) ≠ 32%N
  ∧ in_range 65 90
      (lower_ascii (if bool_decide (c = 32%N) then 95%N else c)) = false.
Proof. case_bool_decide; subst; split; char_solve. Qed.

Lemma lower_ascii_is_ascii c : is_ascii c = true → is_ascii (lower_ascii c) = true.
Proof. intros Hc. char_solve. Qed.

(** X6: on an ASCII name, [name_to_snake_case] keeps the length, leaves no
    space and no upper-case letter, and changes nothing when applied a
    second time. *)
Theorem name_to_snake_case_ascii (db : unicode_db) (name : pystr) :
  Forall (λ c, is_ascii c = true) name →
  length (name_to_snake_case db name) = length name
  ∧ Forall (λ c, c ≠ 32%N ∧ in_range 65 90 c = false)
      (name_to_snake_case db name)
  ∧ name_to_snake_case db (name_to_snake_case db name)
    = name_to_snake_case db name.
Proof.
  intros Hascii.
  assert (name_to_snake_case db name
          = (λ c, lower_ascii (if bool_decide (c = 32%N) then 95%N else c))
              <$> name) as Hsnake.
  { unfold name_to_snake_case.
    rewrite (lower_ascii_map db) by by apply replace_space_ascii.
    unfold replace_space. by rewrite <-list_fmap_compose. }
  split_and!.
  - by rewrite Hsnake, length_fmap.
  - rewrite Hsnake. apply Forall_fmap, Forall_forall. intros c _.
    apply snake_char_shape.
  - unfold name_to_snake_case at 1.
    rewrite (lower_ascii_map db).
    2:{ apply replace_space_ascii. rewrite Hsnake. apply Forall_fmap.
        eapply Forall_impl; [exact Hascii|]. intros c Hc. simpl.
        apply lower_ascii_is_ascii. by case_bool_decide. }
    rewrite Hsnake. unfold replace_space. rewrite <-!list_fmap_compose.
    apply list_fmap_ext. intros _ c _. apply snake_char_fix.
Qed.

Lemma name_to_snake_case_ascii_witness :
  Forall (λ c, is_ascii c = true) (py "Snow Owl")
  ∧ length (name_to_snake_case question_mark_db (py "Snow Owl")) = 8.
Proof.
  assert (Forall (λ c, is_ascii c = true) (py "Snow Owl")) as Hascii.
  { repeat constructor. }
  split; [exact Hascii|].
  exact (proj1 (name_to_snake_case_ascii question_mark_db (py "Snow Owl")
                  Hascii)).
Defined.

Lemma lstrip_head (db : unicode_db) s :
  (∀ c, head s = Some c → isspace db c = false) → lstrip db s = s.
Proof. destruct s as [|c s]; simpl; [done|]. intros Hc. by rewrite Hc. Qed.

Lemma strip_ends (db : unicode_db) s :
  (∀ c, head s = Some c → isspace db c = false) →
  (∀ c, last s = Some c → isspace db c = false) →
  strip db s = s.
Proof.
  intros Hhead Hlast. unfold strip. rewrite (lstrip_head db s Hhead).
  rewrite lstrip_head; [apply reverse_involutive|].
  intros c Hc. apply Hlast. by rewrite <-head_reverse.
Qed.

(** X7: on a name made of ASCII letters, digits, underscores and spaces
    that neither starts nor ends with a space and does not end with
    an underscore, [owl_name] (for an instance) and [name_to_snake_case]
    compute the same identifier. *)
Theorem owl_name_snake_case (db : unicode_db) (name : pystr) :
  Forall (λ c, ascii_word c = true ∨ c = 32%N) name →
  head name ≠ Some 32%N → last name ≠ Some 32%N → last name ≠ Some 95%N →
  owl_name db name true = name_to_snake_case db name.
Proof.
  intros Hchars Hhead Hlast32 Hlast95.
  rewrite Forall_forall in Hchars.
  assert (Forall (λ c, is_ascii c = true) name) as Hascii.
  { apply Forall_forall. intros c Hc.
    destruct (Hchars c Hc) as [Hw| ->]; [by apply ascii_word_is_ascii | done]. }
  assert (∀ c, c ∈ name → c ≠ 32%N → isspace db c = false) as Hnospace.
  { intros c Hc Hne. destruct (Hchars c Hc) as [Hw|?]; [|done].
    by apply ascii_word_not_space. }
  change (owl_name db name true)
    with (lower db (replace_symbols_with db (strip db (unidecode db name))
                      (py "_"))).
  rewrite (unidecode_ascii db name Hascii).
  rewrite strip_ends.
  2:{ intros c Hc. apply Hnospace; [|by intros ->].
      destruct name; [done|]. injection Hc as ->. left. }
  2:{ intros c Hc. apply Hnospace; [|by intros ->].
      apply last_Some in Hc as [l' ->]. apply elem_of_app. right. left. }
  unfold name_to_snake_case. f_equal.
  unfold replace_symbols_with.
  assert (pattern_symbols_sub db (py "_") name = replace_space name) as ->.
  { clear -Hchars. unfold replace_space.
    induction name as [|c name IH]; [done|].
    rewrite pattern_symbols_sub_cons, fmap_cons, IH.
    2:{ intros d Hd. apply Hchars. by right. }
    destruct (Hchars c) as [Hw| ->]; [left| |].
    - rewrite (ascii_word_is_word_char db c Hw). simpl. f_equal.
      rewrite bool_decide_eq_false_2; [done|]. intros ->. done.
    - assert (is_word_char db 32 = false) as -> by done. done. }
  apply drop_trailing_id. unfold replace_space. rewrite fmap_last.
  destruct (last name) as [c|]; simpl; [|done].
  case_bool_decide; [congruence|]. congruence.
Qed.

Lemma owl_name_snake_case_witness :
  Forall (λ c, ascii_word c = true ∨ c = 32%N) (py "Snow Owl")
  ∧ owl_name question_mark_db (py "Snow Owl") true
    = name_to_snake_case question_mark_db (py "Snow Owl").
Proof.
  assert (Forall (λ c, ascii_word c = true ∨ c = 32%N) (py "Snow Owl"))
    as Hchars.
  { repeat constructor; (by left) || (by right). }
  split; [exact Hchars|].
  apply (owl_name_snake_case question_mark_db (py "Snow Owl") Hchars);
    by vm_compute.
Defined.

(** ** [subtype] and [supertype] as an order *)

Lemma subtype_ancestors (t : taxonomy) a b strict :
  wf_taxonomy t = true →
  subtype t a b strict = true ↔ b ∈ ancestors t a (negb strict).
Proof. intros Hwf. rewrite subtype_true. by apply descendants_ancestors. Qed.

(** X8: in a well-formed taxonomy [subtype] is an order: it is transitive
    in both modes, two classes that are non-strict subtypes of each other
    are equal, no two classes are strict subtypes of each other, and the
    strict relation is the non-strict one between different classes. *)
Theorem subtype_order (t : taxonomy) :
  wf_taxonomy t = true →
  (∀ a b c strict, subtype t a b strict = true → subtype t b c strict = true →
                   subtype t a c strict = true)
  ∧ (∀ a b, subtype t a b false = true → subtype t b a false = true → a = b)
  ∧ (∀ a b, subtype t a b true = true → subtype t b a true = false)
  ∧ (∀ a b, subtype t a b true = true
            ↔ subtype t a b false = true ∧ a ≠ b).
Proof.
  intros Hwf.
  assert (∀ a b, a ∈ ancestors t b false → b ∈ ancestors t a false → False)
    as Hasym.
  { intros a b Hab Hba. apply (ancestors_irrefl t a Hwf).
    by eapply ancestors_trans. }
  split_and!.
  - intros a b c strict. rewrite !subtype_ancestors by done.
    destruct strict; simpl.
    + intros Hab Hbc. by eapply ancestors_trans.
    + rewrite !elem_of_ancestors_self.
      intros [->|Hab] [->|Hbc]; auto. right. by eapply ancestors_trans.
  - intros a b. rewrite !subtype_ancestors by done. simpl.
    rewrite !elem_of_ancestors_self. intros [->|Hab] [?|Hba]; try done.
    by destruct (Hasym a b).
  - intros a b Hab. apply not_true_is_false. revert Hab.
    rewrite !subtype_ancestors by done. simpl. intros Hab Hba.
    by destruct (Hasym a b).
  - intros a b. rewrite !subtype_ancestors by done. simpl.
    rewrite elem_of_ancestors_self. split.
    + intros Hab. split; [by right|]. intros ->.
      by apply (ancestors_irrefl t b Hwf).
    + intros [[->|Hab] Hne]; done.
Qed.

Lemma subtype_order_witness :
  wf_taxonomy animal_chain = true
  ∧ subtype animal_chain (Named "Penguin") (Named "Animal") true = true.
Proof.
  assert (wf_taxonomy animal_chain = true) as Hwf by reflexivity.
  split; [exact Hwf|].
  apply (proj1 (subtype_order animal_chain Hwf) _ (Named "Bird") _ true);
    reflexivity.
Defined.

(** X9: [Thing] is the greatest class: every class of the ontology is a
    strict subtype of [Thing], and [Thing] is a subtype of nothing but
    itself. *)
Theorem Thing_greatest (t : taxonomy) (c : pyclass) :
  wf_taxonomy t = true →
  (c ∈ classes t → subtype t c Thing true = true
                   ∧ supertype t Thing c true = true)
  ∧ (subtype t Thing c false = true → c = Thing).
Proof.
  intros Hwf. split.
  - intros (n & -> & Hn)%elem_of_classes.
    assert (Thing ∈ ancestors t (Named n) false) as Hthing.
    { apply elem_of_ancestors_strict. by eauto 6. }
    split; [by apply subtype_ancestors | by apply supertype_true].
  - rewrite subtype_ancestors by done. simpl.
    rewrite elem_of_ancestors_self. intros [->|Hc]; [done|].
    by apply elem_of_ancestors_strict in Hc as (? & ? & _).
Qed.

Lemma Thing_greatest_witness :
  wf_taxonomy animal_chain = true
  ∧ Named "Bird" ∈ classes animal_chain
  ∧ subtype animal_chain (Named "Bird") Thing true = true.
Proof.
  assert (wf_taxonomy animal_chain = true) as Hwf by reflexivity.
  assert (Named "Bird" ∈ classes animal_chain) as Hin.
  { vm_compute. repeat constructor. }
  split; [exact Hwf|]. split; [exact Hin|].
  exact (proj1 (proj1 (Thing_greatest animal_chain (Named "Bird") Hwf) Hin)).
Defined.

(** ** Root inference and traversal, together *)

(** Every class has a class directly under [Thing] above it, or is one. *)
Lemma top_level_above (t : taxonomy) n :
  wf_taxonomy t = true → n ∈ t.*1 →
  ∃ r, (r, []) ∈ t ∧ (n = r ∨ r ∈ named_ancestors t n).
Proof.
  revert n. induction t as [|[h ps] t IH]; intros n Hwf Hn.
  { by apply elem_of_nil in Hn. }
  pose proof Hwf as Hwf0.
  apply wf_taxonomy_cons in Hwf as (Hh & Hparents & Hwf).
  rewrite fmap_cons in Hn. simpl in Hn.
  destruct (decide (n = h)) as [->|Hne].
  - destruct ps as [|p ps].
    { exists h. split; [left | by left]. }
    apply Forall_cons in Hparents as [Hp _].
    destruct (IH p Hwf Hp) as (r & Hr & Hrp).
    exists r. split; [by right|]. right.
    apply named_ancestors_cons. rewrite decide_True by done.
    exists p. split; [left|]. destruct Hrp as [->|?]; auto.
  - apply elem_of_cons in Hn as [?|Hn]; [done|].
    destruct (IH n Hwf Hn) as (r & Hr & Hrn).
    exists r. split; [by right|]. destruct Hrn as [->|Hrn]; [by left|].
    right. apply named_ancestors_cons. by rewrite decide_False.
Qed.

(** The two outcomes of [_find_root_class]. *)
Lemma find_root_class_cases (t : taxonomy) :
  wf_taxonomy t = true →
  _find_root_class t = Thing
  ∨ ∀ c, c ∈ subclasses t Thing ↔ c = _find_root_class t.
Proof.
  intros Hwf. unfold _find_root_class.
  set (things := foldl _ _ _).
  assert (∀ c, c ∈ things ↔ c ∈ subclasses t Thing) as Hthings.
  { intros c. unfold things.
    rewrite (elem_of_foldl_collect
               (λ cls, bool_decide (ancestors t cls true = {[Thing; cls]})) id).
    rewrite <-root_candidate by done. split.
    - intros [?|(x & Hx & HP & ->)]; [set_solver|].
      by apply bool_decide_eq_true in HP.
    - intros [Hc Heq]. right. exists c. by rewrite bool_decide_eq_true. }
  case_bool_decide as Hsize; [|by left]. right.
  apply size_1_elem_of in Hsize as (c & Hc).
  apply leibniz_equiv in Hc. rewrite Hc, elements_singleton. simpl.
  intros c'. rewrite <-Hthings, Hc. set_solver.
Qed.

(** X10: the root that [_find_root_class] infers covers the ontology: every
    class of the ontology is the root or one of its descendants. *)
Theorem find_root_class_covers (t : taxonomy) (c : pyclass) :
  wf_taxonomy t = true → c ∈ classes t →
  c ∈ descendants t (_find_root_class t) true.
Proof.
  intros Hwf (n & -> & Hn)%elem_of_classes.
  destruct (find_root_class_cases t Hwf) as [->|Hroot].
  { unfold descendants. apply elem_of_union. right.
    apply elem_of_list_to_set, list_elem_of_fmap. by exists n. }
  destruct (top_level_above t n Hwf Hn) as (r & Hr & Hrn).
  assert (Named r = _find_root_class t) as <-.
  { apply Hroot, elem_of_subclasses_Thing. by exists r. }
  unfold descendants. destruct Hrn as [->|Hrn]; [set_solver|].
  apply elem_of_union. right. apply elem_of_set_map_Named.
  exists n. split; [done|]. by apply named_descendants_ancestors.
Qed.

Lemma find_root_class_covers_witness :
  wf_taxonomy animal_chain = true
  ∧ Named "Penguin" ∈ classes animal_chain
  ∧ Named "Penguin"
    ∈ descendants animal_chain (_find_root_class animal_chain) true.
Proof.
  assert (wf_taxonomy animal_chain = true) as Hwf by reflexivity.
  assert (Named "Penguin" ∈ classes animal_chain) as Hin.
  { vm_compute. repeat constructor. }
  split; [exact Hwf|]. split; [exact Hin|].
  exact (find_root_class_covers animal_chain (Named "Penguin") Hwf Hin).
Defined.

(** X11: called without a root, [visit_classes_depth_first] starts from the
    inferred root and yields, in either mode, every class of the
    ontology. *)
Theorem visit_all_classes (t : taxonomy) (postorder : bool) :
  wf_taxonomy t = true →
  ∃ l, visit_classes_depth_first (S (length t)) t None postorder = Some l
       ∧ ∀ c, c ∈ classes t → c ∈ l.
Proof.
  intros Hwf.
  destruct (visit_classes_depth_first_spec t (S (length t))
              (_find_root_class t) postorder Hwf)
    as (l & Hl & Hroot & Hbelow & _).
  { pose proof (depth_below_le t (_find_root_class t)). lia. }
  exists l. split; [exact Hl|]. intros c Hc.
  pose proof (find_root_class_covers t c Hwf Hc) as Hdesc.
  unfold descendants in Hdesc. apply elem_of_union in Hdesc as [Hdesc|Hdesc].
  - apply elem_of_singleton in Hdesc as ->. done.
  - apply Hbelow, strictly_below_descendants; [done|].
    unfold descendants. set_solver.
Qed.

Lemma visit_all_classes_witness :
  wf_taxonomy animal_chain = true
  ∧ ∃ l, visit_classes_depth_first 4 animal_chain None true = Some l
         ∧ ∀ c, c ∈ classes animal_chain → c ∈ l.
Proof.
  assert (wf_taxonomy animal_chain = true) as Hwf by reflexivity.
  split; [exact Hwf|].
  exact (visit_all_classes animal_chain true Hwf).
Defined.

(** ** What the traversal yields *)

Lemma visit_classes_depth_first_unfold fuel (t : taxonomy) root postorder l :
  visit_classes_depth_first (S fuel) t (Some root) postorder = Some l →
  ∃ below,
    Forall2 (λ child k, visit_classes_depth_first fuel t (Some child) postorder
                        = Some k) (subclasses t root) below
    ∧ l = (if postorder then [] else [root]) ++ concat below
          ++ (if postorder then [root] else []).
Proof.
  simpl. destruct (mapM _ (subclasses t root)) as [below|] eqn:Hbelow;
    simpl; [|done].
  intros [= <-]. exists below. split; [|done]. by apply mapM_Some_1.
Qed.

(** Whatever the fuel, a sequence that is returned holds the root and
    classes strictly below it, nothing else. *)
Lemma visit_classes_depth_first_sound (t : taxonomy) fuel root postorder l :
  visit_classes_depth_first fuel t (Some root) postorder = Some l →
  ∀ c, c ∈ l → c = root ∨ strictly_below t root c.
Proof.
  revert root l. induction fuel as [|fuel IH]; intros root l Hl; [done|].
  apply visit_classes_depth_first_unfold in Hl as (below & HF2 & ->).
  intros c Hc.
  assert (c = root ∨ c ∈ concat below) as [->|Hin]; [|by left|].
  { destruct postorder; simpl in Hc.
    - apply elem_of_app in Hc as [?|Hc]; [by right|].
      apply list_elem_of_singleton in Hc. by left.
    - rewrite app_nil_r in Hc. apply elem_of_cons in Hc as [->|?]; auto. }
  right. apply elem_of_concat in Hin as (k & Hk & Hck).
  apply list_elem_of_lookup in Hk as (i & Hi).
  destruct (Forall2_lookup_r _ _ _ _ _ HF2 Hi) as (child & Hchild & Hvisit).
  apply list_elem_of_lookup_2 in Hchild.
  destruct (IH child k Hvisit c Hck) as [->|Hbelow].
  - by apply below_child.
  - by eapply below_step.
Qed.

(** X12: from any root of a well-formed taxonomy the traversal yields
    exactly the root and its descendants; the root comes first in pre-order
    mode and last in postorder mode. *)
Theorem visit_yields_descendants (t : taxonomy) (root : pyclass)
    (postorder : bool) :
  wf_taxonomy t = true →
  ∃ l, visit_classes_depth_first (S (length t)) t (Some root) postorder
       = Some l
       ∧ (∀ c, c ∈ l ↔ c ∈ descendants t root true)
       ∧ (if postorder then last l = Some root else head l = Some root).
Proof.
  intros Hwf.
  destruct (visit_classes_depth_first_spec t (S (length t)) root postorder Hwf)
    as (l & Hl & Hroot & Hbelow & _).
  { pose proof (depth_below_le t root). lia. }
  exists l. split; [done|]. split.
  - intros c.
    assert (c ∈ descendants t root true
            ↔ c = root ∨ c ∈ descendants t root false) as ->.
    { unfold descendants. set_solver. }
    rewrite <-strictly_below_descendants by done. split.
    + by apply (visit_classes_depth_first_sound t _ _ _ _ Hl).
    + intros [->|?]; auto.
  - apply visit_classes_depth_first_unfold in Hl as (below & _ & ->).
    destruct postorder; simpl; [|done]. by rewrite last_snoc.
Qed.

Lemma visit_yields_descendants_witness :
  wf_taxonomy animal_chain = true
  ∧ ∃ l, visit_classes_depth_first 4 animal_chain (Some (Named "Bird")) true
         = Some l
         ∧ last l = Some (Named "Bird").
Proof.
  assert (wf_taxonomy animal_chain = true) as Hwf by reflexivity.
  split; [exact Hwf|].
  destruct (visit_yields_descendants animal_chain (Named "Bird") true Hwf)
    as (l & Hl & _ & Hlast).
  exists l. by split.
Defined.

Lemma concat_Permutation {X} (ls ks : list (list X)) :
  Forall2 (≡ₚ) ls ks → concat ls ≡ₚ concat ks.
Proof.
  induction 1 as [|l k ls ks Hlk _ IH]; simpl; [done|]. by rewrite Hlk, IH.
Qed.

Lemma visit_modes_Permutation (t : taxonomy) fuel root l1 l2 :
  visit_classes_depth_first fuel t (Some root) true = Some l1 →
  visit_classes_depth_first fuel t (Some root) false = Some l2 →
  l1 ≡ₚ l2.
Proof.
  revert root l1 l2. induction fuel as [|fuel IH]; intros root l1 l2 H1 H2;
    [done|].
  apply visit_classes_depth_first_unfold in H1 as (below1 & HF1 & ->).
  apply visit_classes_depth_first_unfold in H2 as (below2 & HF2 & ->).
  simpl. rewrite app_nil_r. rewrite <-Permutation_cons_append.
  constructor. apply concat_Permutation.
  clear -IH HF1 HF2. revert below2 HF2.
  induction HF1 as [|c k cs ks Hk _ IHF]; intros below2 HF2.
  - inversion HF2. constructor.
  - inversion HF2 as [|? k2 ? ks2 Hk2 HF2']; subst.
    constructor; [by eapply IH | by apply IHF].
Qed.

(** X13: the two modes of the traversal yield the same classes the same
    number of times; only the order differs. *)
Theorem visit_modes_same_classes (t : taxonomy) (root : pyclass) :
  wf_taxonomy t = true →
  ∃ l1 l2,
    visit_classes_depth_first (S (length t)) t (Some root) true = Some l1
    ∧ visit_classes_depth_first (S (length t)) t (Some root) false = Some l2
    ∧ l1 ≡ₚ l2.
Proof.
  intros Hwf. pose proof (depth_below_le t root) as Hdepth.
  destruct (visit_classes_depth_first_spec t (S (length t)) root true Hwf)
    as (l1 & Hl1 & _); [lia|].
  destruct (visit_classes_depth_first_spec t (S (length t)) root false Hwf)
    as (l2 & Hl2 & _); [lia|].
  exists l1, l2. split_and!; [done..|]. by eapply visit_modes_Permutation.
Qed.

Lemma visit_modes_same_classes_witness :
  wf_taxonomy animal_chain = true
  ∧ ∃ l1 l2,
      visit_classes_depth_first 4 animal_chain (Some Thing) true = Some l1
      ∧ visit_classes_depth_first 4 animal_chain (Some Thing) false = Some l2
      ∧ l1 ≡ₚ l2.
Proof.
  assert (wf_taxonomy animal_chain = true) as Hwf by reflexivity.
  split; [exact Hwf|].
  exact (visit_modes_same_classes animal_chain Thing Hwf).
Defined.

(** ** The traversal of a tree *)

Lemma wf_names_NoDup (t : taxonomy) : wf_taxonomy t = true → NoDup t.*1.
Proof.
  induction t as [|[h ps] t IH]; intros Hwf; [constructor|].
  apply wf_taxonomy_cons in Hwf as (Hh & _ & Hwf).
  rewrite fmap_cons. constructor; [done | by apply IH].
Qed.

Lemma wf_declaration_unique (t : taxonomy) m ps1 ps2 :
  wf_taxonomy t = true → (m, ps1) ∈ t → (m, ps2) ∈ t → ps1 = ps2.
Proof.
  induction t as [|[h ps] t IH]; intros Hwf H1 H2.
  { by apply elem_of_nil in H1. }
  pose proof Hwf as Hwf0.
  apply wf_taxonomy_cons in Hwf as (Hh & _ & Hwf).
  apply elem_of_cons in H1 as [H1|H1]; apply elem_of_cons in H2 as [H2|H2];
    simplify_eq; try done.
  - by destruct (wf_declared_once _ _ _ _ _ Hwf0 H2).
  - by destruct (wf_declared_once _ _ _ _ _ Hwf0 H1).
  - by apply IH.
Qed.

Lemma subclasses_NoDup (t : taxonomy) p :
  wf_taxonomy t = true → NoDup (subclasses t p).
Proof.
  intros Hwf.
  assert (∀ (P : string * list string → Prop) `{!∀ d, Decision (P d)},
            NoDup (Named <$> (filter P (reverse t)).*1)) as Hgen.
  { intros P ?.
    assert (Inj (=) (=) Named) as HInj by (by intros ?? [= ->]).
    apply (NoDup_fmap_2 Named).
    eapply sublist_NoDup; [|apply fmap_sublist, sublist_filter].
    rewrite fmap_reverse, reverse_Permutation. by apply wf_names_NoDup. }
  destruct p; simpl; [apply Hgen | constructor | apply Hgen].
Qed.

Lemma single_parent (t : taxonomy) x p1 p2 :
  wf_taxonomy t = true → single_inheritance t = true →
  x ∈ subclasses t p1 → x ∈ subclasses t p2 → p1 = p2.
Proof.
  intros Hwf Hsingle%bool_decide_eq_true H1 H2.
  rewrite Forall_forall in Hsingle.
  assert (∀ n p, x ∈ subclasses t (Named n) → x ∈ subclasses t p →
                 p = Named n) as Hnamed.
  { intros n p Hn Hp.
    apply elem_of_subclasses_Named in Hn as (m & ps & -> & Hm & Hin).
    specialize (Hsingle _ Hm). simpl in Hsingle.
    destruct p as [| |n'].
    - apply elem_of_subclasses_Thing in Hp as (m' & [= <-] & Hm').
      rewrite (wf_declaration_unique t m ps [] Hwf Hm Hm') in Hin.
      by apply elem_of_nil in Hin.
    - by apply elem_of_nil in Hp.
    - apply elem_of_subclasses_Named in Hp as (m' & ps' & [= <-] & Hm' & Hin').
      rewrite (wf_declaration_unique t m ps' ps Hwf Hm' Hm) in Hin'.
      destruct ps as [|q [|q' ps]]; simpl in Hsingle; [| |lia].
      + by apply elem_of_nil in Hin.
      + apply list_elem_of_singleton in Hin, Hin'. by subst. }
  destruct p1 as [| |n1].
  - destruct p2 as [| |n2]; [done | by apply elem_of_nil in H2 |].
    by apply Hnamed.
  - by apply elem_of_nil in H1.
  - symmetry. by apply Hnamed.
Qed.

Lemma strictly_below_last (t : taxonomy) a x :
  strictly_below t a x →
  ∃ p, x ∈ subclasses t p ∧ (a = p ∨ strictly_below t a p).
Proof.
  induction 1 as [a x Hx|a c x Hc _ (p & Hp & Hcp)].
  - exists a. by auto.
  - exists p. split; [done|]. right.
    destruct Hcp as [->|Hcp]; [by apply below_child | by eapply below_step].
Qed.

Lemma strictly_below_trans (t : taxonomy) a b c :
  strictly_below t a b → strictly_below t b c → strictly_below t a c.
Proof.
  induction 1 as [a b Hb|a c' b Hc' _ IH]; intros Hbc.
  - by eapply below_step.
  - eapply below_step; [done | by apply IH].
Qed.

Lemma strictly_below_irrefl (t : taxonomy) c :
  wf_taxonomy t = true → ¬ strictly_below t c c.
Proof.
  intros Hwf Hc. apply strictly_below_descendants in Hc; [|done].
  by apply descendants_strict_irrefl in Hc.
Qed.

(** In a tree, two classes above the same class are comparable. *)
Lemma strictly_below_chain (t : taxonomy) a b x :
  wf_taxonomy t = true → single_inheritance t = true →
  strictly_below t a x → strictly_below t b x →
  a = b ∨ strictly_below t a b ∨ strictly_below t b a.
Proof.
  intros Hwf Hsingle Ha. revert b.
  induction Ha as [a x Hx|a c x Hc _ IH]; intros b Hb.
  - apply strictly_below_last in Hb as (p & Hp & Hbp).
    rewrite (single_parent t x p a Hwf Hsingle Hp Hx) in Hbp.
    destruct Hbp as [->|?]; auto.
  - destruct (IH b Hb) as [<-|[Hcb|Hbc]].
    + right. left. by apply below_child.
    + right. left. by eapply below_step.
    + apply strictly_below_last in Hbc as (p & Hp & Hbp).
      rewrite (single_parent t c p a Hwf Hsingle Hp Hc) in Hbp.
      destruct Hbp as [->|?]; auto.
Qed.

Lemma sibling_not_below (t : taxonomy) p c1 c2 :
  wf_taxonomy t = true → single_inheritance t = true →
  c1 ∈ subclasses t p → c2 ∈ subclasses t p → ¬ strictly_below t c2 c1.
Proof.
  intros Hwf Hsingle H1 H2 Hbelow.
  apply strictly_below_last in Hbelow as (q & Hq & Hc2q).
  rewrite (single_parent t c1 q p Hwf Hsingle Hq H1) in Hc2q.
  apply (strictly_below_irrefl t p Hwf).
  destruct Hc2q as [->|Hc2p].
  - by apply below_child.
  - eapply strictly_below_trans; [|done]. by apply below_child.
Qed.

Lemma siblings_disjoint (t : taxonomy) p c1 c2 x :
  wf_taxonomy t = true → single_inheritance t = true →
  c1 ∈ subclasses t p → c2 ∈ subclasses t p → c1 ≠ c2 →
  x = c1 ∨ strictly_below t c1 x → x = c2 ∨ strictly_below t c2 x → False.
Proof.
  intros Hwf Hsingle H1 H2 Hne [->|Hx1] [?|Hx2].
  - done.
  - by apply (sibling_not_below t p c1 c2).
  - subst x. by apply (sibling_not_below t p c2 c1).
  - destruct (strictly_below_chain t c1 c2 x Hwf Hsingle Hx1 Hx2)
      as [?|[?|?]]; [done | |].
    + by apply (sibling_not_below t p c2 c1).
    + by apply (sibling_not_below t p c1 c2).
Qed.

Lemma visit_classes_depth_first_NoDup (t : taxonomy) fuel root postorder l :
  wf_taxonomy t = true → single_inheritance t = true →
  visit_classes_depth_first fuel t (Some root) postorder = Some l → NoDup l.
Proof.
  intros Hwf Hsingle. revert root l.
  induction fuel as [|fuel IH]; intros root l Hl; [done|].
  pose proof (visit_classes_depth_first_sound t _ _ _ _ Hl) as Hsound.
  apply visit_classes_depth_first_unfold in Hl as (below & HF2 & ->).
  assert (∀ c, c ∈ concat below → strictly_below t root c) as Hbelow.
  { intros c (k & Hk & Hck)%elem_of_concat.
    apply list_elem_of_lookup in Hk as (i & Hi).
    destruct (Forall2_lookup_r _ _ _ _ _ HF2 Hi) as (child & Hchild & Hvisit).
    apply list_elem_of_lookup_2 in Hchild.
    destruct (visit_classes_depth_first_sound t _ _ _ _ Hvisit c Hck)
      as [->|?]; [by apply below_child | by eapply below_step]. }
  assert (root ∉ concat below) as Hroot.
  { intros Hin%Hbelow. by apply (strictly_below_irrefl t root). }
  assert (NoDup (concat below)) as Hnodup.
  { clear Hsound Hbelow Hroot.
    cut (∀ cs,
      Forall2 (λ child k,
        visit_classes_depth_first fuel t (Some child) postorder = Some k)
        cs below →
      NoDup cs → (∀ c, c ∈ cs → c ∈ subclasses t root) →
      NoDup (concat below)).
    { intros Haux. apply (Haux (subclasses t root)); [done | | done].
      by apply subclasses_NoDup. }
    clear HF2. intros cs. revert below.
    induction cs as [|c cs IHcs]; intros below HF2 Hcs Hsub.
    { inversion HF2. constructor. }
    inversion HF2 as [|? k ? ks Hk HF2']; subst. simpl.
    apply NoDup_cons in Hcs as [Hc Hcs].
    apply NoDup_app. split_and!.
    - by eapply IH.
    - intros x Hxk (k' & Hk' & Hxk')%elem_of_concat.
      apply list_elem_of_lookup in Hk' as (i & Hi).
      destruct (Forall2_lookup_r _ _ _ _ _ HF2' Hi) as (c' & Hc' & Hvisit').
      apply list_elem_of_lookup_2 in Hc'.
      apply (siblings_disjoint t root c c' x Hwf Hsingle).
      + apply Hsub. left.
      + apply Hsub. by right.
      + by intros ->.
      + by apply (visit_classes_depth_first_sound t _ _ _ _ Hk).
      + by apply (visit_classes_depth_first_sound t _ _ _ _ Hvisit').
    - apply IHcs; [done | done |]. intros c' Hc'. apply Hsub. by right. }
  destruct postorder; simpl.
  - apply NoDup_app. split_and!; [done | | apply NoDup_singleton].
    intros x Hx ->%list_elem_of_singleton. done.
  - rewrite app_nil_r. by constructor.
Qed.

(** X14: when no class has more than one direct superclass, the traversal
    yields no class twice. *)
Theorem visit_tree_NoDup (t : taxonomy) (root : pyclass) (postorder : bool) :
  wf_taxonomy t = true → single_inheritance t = true →
  ∃ l, visit_classes_depth_first (S (length t)) t (Some root) postorder
       = Some l
       ∧ NoDup l.
Proof.
  intros Hwf Hsingle.
  destruct (visit_classes_depth_first_spec t (S (length t)) root postorder Hwf)
    as (l & Hl & _).
  { pose proof (depth_below_le t root). lia. }
  exists l. split; [done|]. by eapply visit_classes_depth_first_NoDup.
Qed.

Lemma visit_tree_NoDup_witness :
  wf_taxonomy animal_chain = true ∧ single_inheritance animal_chain = true
  ∧ ∃ l, visit_classes_depth_first 4 animal_chain (Some Thing) false = Some l
         ∧ NoDup l.
Proof.
  assert (wf_taxonomy animal_chain = true) as Hwf by reflexivity.
  assert (single_inheritance animal_chain = true) as Hsingle by reflexivity.
  split; [exact Hwf|]. split; [exact Hsingle|].
  exact (visit_tree_NoDup animal_chain Thing false Hwf Hsingle).
Defined.


(** ** The order of the traversal *)






(** ** Reclassifying an individual *)

(** The list [set_class_of_instance] leaves behind [is_instance_of]: the
    strict ancestors of [cls] are taken out ([Thing] steps in when nothing is
    left), and [cls] is appended unless a direct class was [cls] or below
    it. *)
Lemma set_class_of_is_a_eq (t : taxonomy) (is_a : list pyclass) (cls : pyclass) :
  ThingClass ∉ is_a → cls ≠ ThingClass →
  set_class_of_is_a t is_a cls
  = Ok (let kept := match filter (λ c, c ∈ ancestors t cls false) is_a with
                    | [] => is_a
                    | _ => instance_is_a_changed
                             (filter (λ c, c ∉ ancestors t cls false) is_a)
                    end in
        match filter (λ c, c ∈ descendants t cls true) is_a with
        | [] => kept ++ [cls]
        | _ => kept
        end).
Proof.
  intros Hmeta Hcls. unfold set_class_of_is_a.
  rewrite (list_filter_iff (λ c, Is_true (supertype t c cls true))
             (λ c, c ∈ ancestors t cls false)).
  2:{ intros c. by rewrite Is_true_true, supertype_true. }
  rewrite (list_filter_iff (λ c, Is_true (subtype t c cls false))
             (λ c, c ∈ descendants t cls true)).
  2:{ intros c. by rewrite Is_true_true, subtype_true. }
  set (G := λ c : pyclass, c ∈ ancestors t cls false).
  assert ((if bool_decide (0 < length (filter G is_a))
           then remove_types (filter G is_a) is_a else Ok is_a)
          = Ok (match filter G is_a with
                | [] => is_a
                | _ => instance_is_a_changed (filter (λ c, ¬ G c) is_a)
                end)) as ->.
  { pose proof (remove_types_filter G [] is_a (Forall_nil_2 _)) as Hrm.
    simpl in Hrm. destruct (filter G is_a) as [|g gs] eqn:HfG; [done|].
    by rewrite bool_decide_eq_true_2 by (simpl; lia). }
  simpl.
  set (kept := match filter G is_a with
               | [] => is_a
               | _ => instance_is_a_changed (filter (λ c, ¬ G c) is_a)
               end).
  assert (ThingClass ∉ kept) as Hkept.
  { unfold kept. destruct (filter G is_a); [done|].
    intros [Hin| ?]%instance_is_a_changed_elem_of; [|done].
    by apply list_elem_of_filter in Hin as [_ ?]. }
  destruct (filter (λ c, c ∈ descendants t cls true) is_a) as [|s ss].
  - rewrite (bool_decide_eq_true_2 (length (@nil pyclass) = 0)) by done.
    assert (is_a_append cls kept = kept ++ [cls]) as ->.
    { unfold is_a_append. by destruct kept. }
    rewrite (bool_decide_eq_false_2 (ThingClass ∈ kept ++ [cls])).
    2:{ rewrite elem_of_app, list_elem_of_singleton. naive_solver. }
    by rewrite andb_false_r.
  - rewrite (bool_decide_eq_false_2 (length (s :: ss) = 0)) by done.
    rewrite (bool_decide_eq_false_2 (ThingClass ∈ kept)) by done.
    by rewrite andb_false_r.
Qed.

(** A class cannot be a strict ancestor of [cls] and at the same time [cls]
    or below it. *)
Lemma above_not_below (t : taxonomy) (c cls : pyclass) :
  wf_taxonomy t = true →
  c ∈ ancestors t cls false → c ∉ descendants t cls true.
Proof.
  intros Hwf Hanc Hdesc.
  apply descendants_ancestors, elem_of_ancestors_self in Hdesc; [|done].
  destruct Hdesc as [->|Hdesc].
  - by apply (ancestors_irrefl t c).
  - apply (ancestors_irrefl t c Hwf). by eapply ancestors_trans.
Qed.

Lemma set_class_of_is_a_classes (t : taxonomy) (is_a : list pyclass)
    (cls : pyclass) :
  wf_taxonomy t = true → ThingClass ∉ is_a → cls ≠ ThingClass →
  ∃ l, set_class_of_is_a t is_a cls = Ok l
       ∧ (∃ c, c ∈ l ∧ c ∈ descendants t cls true)
       ∧ (∀ c, c ∈ is_a → c ∉ ancestors t cls false → c ∈ l)
       ∧ (∀ c, c ∈ l → c ∈ is_a ∨ c = cls ∨ c = Thing).
Proof.
  intros Hwf Hmeta Hcls. eexists. split; [by apply set_class_of_is_a_eq|].
  simpl.
  set (G := λ c : pyclass, c ∈ ancestors t cls false).
  set (kept := match filter G is_a with
               | [] => is_a
               | _ => instance_is_a_changed (filter (λ c, ¬ G c) is_a)
               end).
  assert (∀ c, c ∈ is_a → ¬ G c → c ∈ kept) as Hkeep.
  { intros c Hc HnG. unfold kept. destruct (filter G is_a); [done|].
    assert (c ∈ filter (λ c, ¬ G c) is_a) as Hin
      by by apply list_elem_of_filter.
    destruct (filter (λ c, ¬ G c) is_a);
      [by apply elem_of_nil in Hin | done]. }
  assert (∀ c, c ∈ kept → c ∈ is_a ∨ c = Thing) as Hfrom.
  { intros c. unfold kept. destruct (filter G is_a); [by left|].
    intros [Hin| ?]%instance_is_a_changed_elem_of; [|by right].
    apply list_elem_of_filter in Hin as [_ ?]. by left. }
  assert (cls ∈ descendants t cls true) as Hself by set_solver.
  destruct (filter (λ c, c ∈ descendants t cls true) is_a) as [|s ss] eqn:HfS.
  - pose proof (filter_nil_Forall _ is_a HfS) as HnotS.
    rewrite Forall_forall in HnotS. split_and!.
    + exists cls. split; [|done]. apply elem_of_app. right. left.
    + intros c Hc HnG. apply elem_of_app. left. by apply Hkeep.
    + intros c [Hc| ->%list_elem_of_singleton]%elem_of_app; [|by auto].
      destruct (Hfrom c Hc); by auto.
  - assert (s ∈ is_a ∧ s ∈ descendants t cls true) as [Hs HSs].
    { assert (s ∈ filter (λ c, c ∈ descendants t cls true) is_a) as Hin
        by (rewrite HfS; left).
      by apply list_elem_of_filter in Hin as [? ?]. }
    split_and!.
    + exists s. split; [|done]. apply Hkeep; [done|].
      intros HG. by apply (above_not_below t s cls).
    + done.
    + intros c Hc. destruct (Hfrom c Hc); by auto.
Qed.


Lemma filter_nil_intro {X} (P : X → Prop) `{!∀ x, Decision (P x)} (l : list X) :
  (∀ x, x ∈ l → ¬ P x) → filter P l = [].
Proof.
  intros Hl. destruct (filter P l) as [|x k] eqn:Hf; [done|].
  assert (x ∈ filter P l) as Hin by (rewrite Hf; left).
  apply list_elem_of_filter in Hin as [HP Hin]. by destruct (Hl x Hin).
Qed.

(** A list without strict ancestors of [cls] that holds [cls] or a class
    below it is left as it is. *)
Lemma set_class_of_is_a_stable (t : taxonomy) (l : list pyclass) (cls : pyclass) :
  ThingClass ∉ l → cls ≠ ThingClass →
  (∀ c, c ∈ l → c ∉ ancestors t cls false) →
  (∃ c, c ∈ l ∧ c ∈ descendants t cls true) →
  set_class_of_is_a t l cls = Ok l.
Proof.
  intros Hmeta Hcls HnoG (s & Hs & HSs).
  rewrite set_class_of_is_a_eq by done. simpl.
  rewrite (filter_nil_intro (λ c, c ∈ ancestors t cls false) l) by done.
  destruct (filter (λ c, c ∈ descendants t cls true) l) eqn:HfS; [|done].
  by destruct (filter_nil_not_elem_of _ _ s HfS).
Qed.

(** The second call settles the list: either the first call already did, or
    the first call left [Thing] next to [cls] and the second takes [Thing]
    out. *)
Lemma set_class_of_is_a_twice (t : taxonomy) (is_a : list pyclass)
    (cls : pyclass) :
  wf_taxonomy t = true → ThingClass ∉ is_a → cls ≠ ThingClass →
  ∃ l1 l2,
    set_class_of_is_a t is_a cls = Ok l1
    ∧ set_class_of_is_a t l1 cls = Ok l2
    ∧ set_class_of_is_a t l2 cls = Ok l2
    ∧ ((l2 = l1 ∧ ∀ c, c ∈ l1 → c ∉ ancestors t cls false)
       ∨ (l1 = [Thing; cls] ∧ l2 = [cls])).
Proof.
  intros Hwf Hmeta Hcls.
  destruct (set_class_of_is_a_classes t is_a cls Hwf Hmeta Hcls)
    as (l1 & Hl1 & HS1 & Hkept1 & Hfrom1).
  assert (ThingClass ∉ l1) as Hmeta1.
  { intros Hin. destruct (Hfrom1 _ Hin) as [?|[?|?]]; done. }
  assert (cls ∉ ancestors t cls false) as Hirr by by apply ancestors_irrefl.
  assert (cls ∈ descendants t cls true) as Hself by set_solver.
  assert (set_class_of_is_a t [cls] cls = Ok [cls]) as Hfix.
  { apply set_class_of_is_a_stable;
      [intros ?%list_elem_of_singleton; congruence | done | |].
    - by intros c ->%list_elem_of_singleton.
    - exists cls. split; [left | done]. }
  destruct (decide (Forall (λ c, c ∉ ancestors t cls false) l1)) as [HnoG|HG].
  { rewrite Forall_forall in HnoG. exists l1, l1. split_and!; [done | | | by left];
      by apply set_class_of_is_a_stable. }
  exists l1, [cls].
  (* a strict ancestor is left only when [Thing] stepped in *)
  assert (l1 = [Thing; cls]) as ->; [|split_and!; [done | | done | by right]].
  - apply not_Forall_Exists in HG; [|apply _].
    apply Exists_exists in HG as (g & Hg & HGg). apply dec_stable in HGg.
    rewrite set_class_of_is_a_eq in Hl1 by done. simpl in Hl1.
    injection Hl1 as Hl1. revert Hl1.
    destruct (filter (λ c, c ∈ ancestors t cls false) is_a)
      as [|g0 gs] eqn:HfG.
    { (* nothing was removed: no strict ancestor can be left *)
      intros Hl1. exfalso.
      assert (g ∈ is_a) as Hin.
      { destruct (filter _ is_a) in Hl1; subst l1; [|done].
        apply elem_of_app in Hg as [?| ->%list_elem_of_singleton]; done. }
      by apply (filter_nil_not_elem_of _ _ g HfG). }
    destruct (filter (λ c, c ∉ ancestors t cls false) is_a)
      as [|k ks] eqn:HfK.
    + (* every direct class was a strict ancestor *)
      simpl. intros Hl1.
      assert (filter (λ c, c ∈ descendants t cls true) is_a = []) as HfS.
      { apply filter_nil_intro. intros c Hc HSc.
        assert (c ∈ ancestors t cls false) as HGc.
        { apply dec_stable. intros HnG.
          by apply (filter_nil_not_elem_of _ _ c HfK). }
        by apply (above_not_below t c cls). }
      by rewrite HfS in Hl1.
    + (* some direct class stayed: no strict ancestor among them *)
      simpl. intros Hl1. exfalso.
      assert (g ∈ k :: ks) as Hin.
      { destruct (filter _ is_a) in Hl1; subst l1; [|done].
        change (k :: ks ++ [cls]) with ((k :: ks) ++ [cls]) in Hg.
        apply elem_of_app in Hg as [?| ->%list_elem_of_singleton]; done. }
      rewrite <-HfK in Hin. by apply list_elem_of_filter in Hin as [? _].
  - assert (Thing ∈ ancestors t cls false) as HThing.
    { apply not_Forall_Exists in HG; [|apply _].
      apply Exists_exists in HG as (g & Hg & HGg). apply dec_stable in HGg.
      apply elem_of_cons in Hg as [->|Hg]; [done|].
      by apply list_elem_of_singleton in Hg as ->. }
    assert (filter (λ c, c ∈ ancestors t cls false) [Thing; cls] = [Thing])
      as HfG.
    { rewrite filter_cons_True by done. by rewrite filter_cons_False by done. }
    assert (filter (λ c, c ∉ ancestors t cls false) [Thing; cls] = [cls])
      as HfK.
    { rewrite filter_cons_False by (by intros []).
      by rewrite filter_cons_True by done. }
    assert (filter (λ c, c ∈ descendants t cls true) [Thing; cls] = [cls])
      as HfS.
    { rewrite filter_cons_False by by apply above_not_below.
      by rewrite filter_cons_True by done. }
    rewrite set_class_of_is_a_eq; [|done..]. simpl.
    by rewrite HfG, HfK, HfS.
Qed.

(** On an individual that is already an instance of [cls], reclassification
    only takes the strict ancestors of [cls] out of the direct classes. *)
Lemma set_class_of_is_a_member (t : taxonomy) (is_a : list pyclass)
    (cls : pyclass) :
  wf_taxonomy t = true → ThingClass ∉ is_a → cls ≠ ThingClass →
  (∃ c, c ∈ is_a ∧ c ∈ descendants t cls true) →
  set_class_of_is_a t is_a cls
  = Ok (filter (λ c, c ∉ ancestors t cls false) is_a).
Proof.
  intros Hwf Hmeta Hcls (s & Hs & HSs).
  rewrite set_class_of_is_a_eq by done. simpl.
  assert (s ∈ filter (λ c, c ∉ ancestors t cls false) is_a) as Hkept.
  { apply list_elem_of_filter. split; [|done].
    intros HG. by apply (above_not_below t s cls). }
  destruct (filter (λ c, c ∈ descendants t cls true) is_a) eqn:HfS.
  { by destruct (filter_nil_not_elem_of _ _ s HfS). }
  destruct (filter (λ c, c ∈ ancestors t cls false) is_a) eqn:HfG.
  - by rewrite (filter_nil_not _ _ HfG).
  - destruct (filter (λ c, c ∉ ancestors t cls false) is_a); [|done].
    by apply elem_of_nil in Hkept.
Qed.

Lemma set_class_of_instance_eq (w : world) (s : pystr) (i : individual)
    (cls : pyclass) (l : list pyclass) :
  individuals w !! s = Some i →
  set_class_of_is_a (onto w) (is_instance_of i) cls = Ok l →
  set_class_of_instance w s cls
  = Ok (World (onto w) (onto_fancyName w)
          (<[s := Individual l (properties i)]> (individuals w))).
Proof. intros Hi Hl. unfold set_class_of_instance. by rewrite Hi, Hl. Qed.

(** X15: reclassification never raises on an individual whose direct
    classes are classes, and afterwards the individual is an instance of the
    class; no property value of any individual and no other individual's
    classes change. *)
Theorem set_class_of_instance_member (w : world) (s : pystr) (i : individual)
    (cls : pyclass) :
  wf_taxonomy (onto w) = true → individuals w !! s = Some i →
  ThingClass ∉ is_instance_of i → cls ≠ ThingClass →
  ∃ w', set_class_of_instance w s cls = Ok w'
        ∧ s ∈ instances w' cls
        ∧ onto w' = onto w
        ∧ (∀ s' q, getattr w' s' q = getattr w s' q)
        ∧ (∀ s', s' ≠ s → direct_classes w' s' = direct_classes w s').
Proof.
  intros Hwf Hi Hmeta Hcls.
  destruct (set_class_of_is_a_classes (onto w) (is_instance_of i) cls
              Hwf Hmeta Hcls) as (l & Hl & HS & _).
  eexists. split; [by eapply set_class_of_instance_eq|]. split_and!.
  - apply elem_of_instances. simpl. eexists. by rewrite lookup_insert_eq.
  - done.
  - intros s' q. unfold getattr; simpl. rewrite lookup_insert.
    case_decide as Hs; [|done]. subst s'. by rewrite Hi.
  - intros s' Hs. unfold direct_classes; simpl. by rewrite lookup_insert_ne.
Qed.

Lemma set_class_of_instance_member_witness :
  ∃ w', set_class_of_instance tweety_world (py "tweety") (Named "Animal")
        = Ok w'
        ∧ py "tweety" ∈ instances w' (Named "Animal").
Proof.
  destruct (set_class_of_instance_member tweety_world (py "tweety")
              (Individual [Named "Bird"] {[ "eats" := [Lit (py "fish")] ]})
              (Named "Animal")) as (w' & Hw' & Hin & _).
  - vm_compute. reflexivity.
  - vm_compute. reflexivity.
  - simpl. by intros ?%list_elem_of_singleton.
  - discriminate.
  - exists w'. split; assumption.
Defined.

(** X16: reclassification keeps every direct class that is not a strict
    ancestor of the new class, and brings in nothing but the new class and
    [Thing]. *)
Theorem set_class_of_instance_classes (w : world) (s : pystr) (i : individual)
    (cls : pyclass) :
  wf_taxonomy (onto w) = true → individuals w !! s = Some i →
  ThingClass ∉ is_instance_of i → cls ≠ ThingClass →
  ∃ w' l, set_class_of_instance w s cls = Ok w'
          ∧ direct_classes w' s = Some l
          ∧ (∀ c, c ∈ is_instance_of i → c ∉ ancestors (onto w) cls false →
                  c ∈ l)
          ∧ (∀ c, c ∈ l → c ∈ is_instance_of i ∨ c = cls ∨ c = Thing).
Proof.
  intros Hwf Hi Hmeta Hcls.
  destruct (set_class_of_is_a_classes (onto w) (is_instance_of i) cls
              Hwf Hmeta Hcls) as (l & Hl & _ & Hkept & Hfrom).
  eexists _, l. split; [by eapply set_class_of_instance_eq|]. split_and!.
  - unfold direct_classes; simpl. by rewrite lookup_insert_eq.
  - done.
  - done.
Qed.

Lemma set_class_of_instance_classes_witness :
  ∃ w' l, set_class_of_instance tweety_world (py "tweety") (Named "Penguin")
          = Ok w'
          ∧ direct_classes w' (py "tweety") = Some l
          ∧ ∀ c, c ∈ l → c ∈ [Named "Bird"] ∨ c = Named "Penguin" ∨ c = Thing.
Proof.
  destruct (set_class_of_instance_classes tweety_world (py "tweety")
              (Individual [Named "Bird"] {[ "eats" := [Lit (py "fish")] ]})
              (Named "Penguin")) as (w' & l & Hw' & Hl & _ & Hfrom).
  - vm_compute. reflexivity.
  - vm_compute. reflexivity.
  - simpl. by intros ?%list_elem_of_singleton.
  - discriminate.
  - exists w', l. split_and!; assumption.
Defined.

(** X17: a second call with the same class settles the direct classes: a
    third call changes nothing. *)
Theorem set_class_of_instance_settles (w : world) (s : pystr) (i : individual)
    (cls : pyclass) :
  wf_taxonomy (onto w) = true → individuals w !! s = Some i →
  ThingClass ∉ is_instance_of i → cls ≠ ThingClass →
  ∃ w1 w2, set_class_of_instance w s cls = Ok w1
           ∧ set_class_of_instance w1 s cls = Ok w2
           ∧ set_class_of_instance w2 s cls = Ok w2.
Proof.
  intros Hwf Hi Hmeta Hcls.
  destruct (set_class_of_is_a_twice (onto w) (is_instance_of i) cls
              Hwf Hmeta Hcls) as (l1 & l2 & Hl1 & Hl2 & Hl3 & _).
  eexists _, _. split_and!.
  - by eapply set_class_of_instance_eq.
  - eapply set_class_of_instance_eq; simpl; [by rewrite lookup_insert_eq|done].
  - erewrite set_class_of_instance_eq; simpl;
      [| by rewrite lookup_insert_eq | done].
    simpl. by rewrite insert_insert_eq.
Qed.

Lemma set_class_of_instance_settles_witness :
  ∃ w1 w2,
    set_class_of_instance tweety_world (py "tweety") (Named "Penguin") = Ok w1
    ∧ set_class_of_instance w1 (py "tweety") (Named "Penguin") = Ok w2
    ∧ set_class_of_instance w2 (py "tweety") (Named "Penguin") = Ok w2.
Proof.
  apply (set_class_of_instance_settles tweety_world (py "tweety")
           (Individual [Named "Bird"] {[ "eats" := [Lit (py "fish")] ]})
           (Named "Penguin")).
  - vm_compute. reflexivity.
  - vm_compute. reflexivity.
  - simpl. by intros ?%list_elem_of_singleton.
  - discriminate.
Defined.

(** X18: on a well-formed store, when the direct classes of the individual
    satisfy the most-specific-class invariant, they satisfy it again after
    the second of two calls with the same class. *)
Theorem set_class_of_instance_twice_invariant (w : world) (s : pystr)
    (i : individual) (cls : pyclass) :
  wf_taxonomy (onto w) = true → wf_world w = true →
  declared (onto w) cls = true →
  individuals w !! s = Some i → is_instance_of i ≠ [] →
  most_specific (onto w) (is_instance_of i) →
  ∃ w1 w2 l, set_class_of_instance w s cls = Ok w1
             ∧ set_class_of_instance w1 s cls = Ok w2
             ∧ direct_classes w2 s = Some l
             ∧ most_specific (onto w) l.
Proof.
  intros Hwf Hww Hdecl Hi Hne Hinv.
  assert (ThingClass ∉ is_instance_of i) as Hmeta
    by by eapply wf_world_no_metaclass.
  assert (cls ≠ ThingClass) as Hcls by (by intros ->).
  assert (Forall (λ c, declared (onto w) c = true) (is_instance_of i)) as Hall.
  { unfold wf_world in Hww. apply bool_decide_eq_true in Hww.
    specialize (Hww s i Hi). simpl in Hww.
    eapply Forall_impl; [done|]. intros c Hc. by apply Is_true_true. }
  destruct (set_class_of_is_a_twice (onto w) (is_instance_of i) cls
              Hwf Hmeta Hcls) as (l1 & l2 & Hl1 & Hl2 & _ & Hcase).
  destruct (set_class_of_is_a_spec (onto w) (is_instance_of i) cls
              Hwf Hall Hdecl Hne Hinv) as (l1' & Hl1' & _ & Hspec).
  assert (l1' = l1) as -> by congruence.
  eexists _, _, l2. split_and!.
  - by eapply set_class_of_instance_eq.
  - eapply set_class_of_instance_eq; simpl; [by rewrite lookup_insert_eq|done].
  - unfold direct_classes; simpl. by rewrite lookup_insert_eq.
  - destruct Hcase as [[-> HnoG]|[-> ->]].
    + destruct Hspec as [?|(-> & Hanc & _)]; [done|]. exfalso.
      destruct (is_instance_of i) as [|g gs]; [done|].
      apply Forall_cons in Hanc as [Hg _].
      apply (HnoG Thing); [left|].
      apply elem_of_ancestors_strict in Hg as (n & -> & Hn & _).
      apply elem_of_ancestors_strict. exists n. by auto.
    + intros c1 c2 ->%list_elem_of_singleton ->%list_elem_of_singleton.
      by apply ancestors_irrefl.
Qed.

Lemma set_class_of_instance_twice_invariant_witness :
  ∃ w1 w2 l,
    set_class_of_instance tweety_world (py "tweety") (Named "Penguin") = Ok w1
    ∧ set_class_of_instance w1 (py "tweety") (Named "Penguin") = Ok w2
    ∧ direct_classes w2 (py "tweety") = Some l
    ∧ most_specific animal_chain l.
Proof.
  apply (set_class_of_instance_twice_invariant tweety_world (py "tweety")
           (Individual [Named "Bird"] {[ "eats" := [Lit (py "fish")] ]})
           (Named "Penguin")).
  - vm_compute. reflexivity.
  - by vm_compute.
  - vm_compute. reflexivity.
  - vm_compute. reflexivity.
  - discriminate.
  - intros c1 c2 ->%list_elem_of_singleton ->%list_elem_of_singleton.
    by apply ancestors_irrefl.
Defined.


(** ** Adding a property value *)

Lemma elem_of_instances_direct (w : world) cls name :
  name ∈ instances w cls ↔
  ∃ l, direct_classes w name = Some l
       ∧ ∃ c, c ∈ l ∧ c ∈ descendants (onto w) cls true.
Proof.
  rewrite elem_of_instances. unfold direct_classes. split.
  - intros (i & Hi & Hex). exists (is_instance_of i). by rewrite Hi.
  - intros (l & Hl & Hex). destruct (individuals w !! name) as [i|]; [|done].
    exists i. split; [done|]. by simplify_eq/=.
Qed.

Lemma direct_classes_setattr (w : world) s q vs s' :
  direct_classes (setattr w s q vs) s' = direct_classes w s'.
Proof.
  unfold direct_classes, setattr; simpl. rewrite lookup_alter.
  case_decide as Hs; [|done]. subst s'. by destruct (individuals w !! s).
Qed.

Lemma direct_classes_add_property (w : world) s q v s' :
  direct_classes (add_property w s q v) s' = direct_classes w s'.
Proof.
  unfold add_property. case_bool_decide; [|done]. apply direct_classes_setattr.
Qed.

Lemma onto_add_property (w : world) s q v :
  onto (add_property w s q v) = onto w
  ∧ onto_fancyName (add_property w s q v) = onto_fancyName w.
Proof. unfold add_property. by case_bool_decide. Qed.

Lemma instances_add_property (w : world) s q v cls x :
  x ∈ instances (add_property w s q v) cls ↔ x ∈ instances w cls.
Proof.
  rewrite !elem_of_instances_direct, direct_classes_add_property.
  by destruct (onto_add_property w s q v) as [-> _].
Qed.

Lemma setattr_missing (w : world) s q vs :
  individuals w !! s = None → setattr w s q vs = w.
Proof.
  intros Hs. unfold setattr. rewrite alter_id' by done. by destruct w.
Qed.

(** What [getattr] returns after [add_property]. *)
Lemma getattr_add_property (w : world) s q v s' q' :
  getattr (add_property w s q v) s' q'
  = if decide (s = s' ∧ q = q' ∧ is_Some (individuals w !! s)
               ∧ v ∉ getattr w s q)
    then getattr w s q ++ [v] else getattr w s' q'.
Proof.
  unfold add_property. case_bool_decide as Hv.
  - rewrite getattr_setattr. case_decide as Heq.
    + rewrite decide_True; [done | naive_solver].
    + rewrite decide_False; [done | naive_solver].
  - rewrite decide_False; [done | naive_solver].
Qed.

(** X19: [add_property] treats the values of a property as a set kept in
    order of arrival: a second identical call changes nothing, the values
    held before stay in front, and a list without duplicates stays without
    duplicates; for a property the ontology is known to declare, the value
    is among the values of an existing subject afterwards. *)
Theorem add_property_set_like (w : world) (s : pystr) (q : string)
    (v : value) :
  add_property (add_property w s q v) s q v = add_property w s q v
  ∧ (∀ s' q', getattr w s' q' `prefix_of` getattr (add_property w s q v) s' q')
  ∧ (∀ s' q', NoDup (getattr w s' q') →
              NoDup (getattr (add_property w s q v) s' q'))
  ∧ (known_property w q → is_Some (individuals w !! s) →
     v ∈ getattr (add_property w s q v) s q).
Proof.
  split_and!.
  - unfold add_property at 1. case_bool_decide as Hv; [|done].
    rewrite getattr_add_property in Hv. case_decide as Heq.
    + destruct Hv. apply elem_of_app. right. left.
    + unfold add_property in *. case_bool_decide as Hv'; [|done].
      destruct (individuals w !! s) as [i|] eqn:Hi.
      { destruct Heq. split_and!; by eauto. }
      by rewrite !setattr_missing by (by rewrite ?setattr_missing).
  - intros s' q'. rewrite getattr_add_property. case_decide as Heq; [|done].
    destruct Heq as (<- & <- & _). by apply prefix_app_r.
  - intros s' q' Hnd. rewrite getattr_add_property. case_decide as Heq; [|done].
    destruct Heq as (<- & <- & _ & Hv). apply NoDup_app. split_and!.
    + done.
    + by intros x Hx ->%list_elem_of_singleton.
    + apply NoDup_singleton.
  - intros _. apply add_property_elem_of.
Qed.

Lemma add_property_set_like_witness :
  known_property tweety_world "eats"
  ∧ is_Some (individuals tweety_world !! py "tweety")
  ∧ Lit (py "krill")
    ∈ getattr (add_property tweety_world (py "tweety") "eats"
                 (Lit (py "krill"))) (py "tweety") "eats".
Proof.
  assert (known_property tweety_world "eats") as Hknown.
  { split; [discriminate|]. intros _. exists (py "tweety").
    vm_compute. discriminate. }
  assert (is_Some (individuals tweety_world !! py "tweety")) as Hsome.
  { vm_compute. eexists. reflexivity. }
  split; [exact Hknown|]. split; [exact Hsome|].
  exact (proj2 (proj2 (proj2 (add_property_set_like tweety_world
                                (py "tweety") "eats" (Lit (py "krill")))))
           Hknown Hsome).
Defined.

(** X20: [add_property] touches one list only: every other property and
    every other individual keeps its values, and no individual changes its
    classes. *)
Theorem add_property_frame (w : world) (s : pystr) (q : string) (v : value) :
  (∀ s' q', (s', q') ≠ (s, q) →
            getattr (add_property w s q v) s' q' = getattr w s' q')
  ∧ (∀ s', direct_classes (add_property w s q v) s' = direct_classes w s')
  ∧ (∀ cls x, x ∈ instances (add_property w s q v) cls ↔ x ∈ instances w cls)
  ∧ onto (add_property w s q v) = onto w.
Proof.
  split_and!.
  - intros s' q' Hne. rewrite getattr_add_property.
    rewrite decide_False; [done|]. intros (<- & <- & _). done.
  - apply direct_classes_add_property.
  - intros cls x. apply instances_add_property.
  - apply onto_add_property.
Qed.


(** ** Adding an instance *)

Lemma wf_world_spec (w : world) :
  wf_world w = true ↔
  ∀ s l c, direct_classes w s = Some l → c ∈ l → declared (onto w) c = true.
Proof.
  unfold wf_world. rewrite bool_decide_eq_true. unfold direct_classes. split.
  - intros Hall s l c Hl Hc.
    destruct (individuals w !! s) as [i|] eqn:Hi; [|done]. simplify_eq/=.
    specialize (Hall s i Hi). simpl in Hall. rewrite Forall_forall in Hall.
    by apply Is_true_true, Hall.
  - intros Hall s i Hi. simpl. apply Forall_forall. intros c Hc.
    apply Is_true_true. apply (Hall s (is_instance_of i) c); [|done].
    by rewrite Hi.
Qed.

(** The outcome of [add_instance] when it does not raise: [w1] is the store
    before the raw name is recorded. *)
Lemma add_instance_ok (db : unicode_db)
    (numbered_name : world → pyclass → pystr) (w : world) (cls : pyclass)
    (name : pystr) (add_to_class_if_existing : bool) :
  wf_taxonomy (onto w) = true → wf_world w = true →
  declared (onto w) cls = true →
  add_to_class_if_existing = true ∨ owl_name db name true ∉ instances w cls →
  ∃ w1 instance,
    add_instance db numbered_name w cls name add_to_class_if_existing
    = Ok (if onto_fancyName w && bool_decide (owl_name db name true ≠ name)
          then add_property w1 instance "fancyName" (Lit name) else w1,
          instance)
    ∧ instance ∈ instances w1 cls
    ∧ wf_world w1 = true
    ∧ onto w1 = onto w
    ∧ onto_fancyName w1 = onto_fancyName w
    ∧ (owl_name db name true ≠ [] → instance = owl_name db name true)
    ∧ (∀ q, getattr w1 instance q = getattr w instance q)
    ∧ (owl_name db name true ∈ instances w cls →
       instance = owl_name db name true)
    ∧ direct_classes w1 instance
      = Some (match individuals w !! instance with
              | Some i =>
                  if bool_decide (owl_name db name true ∈ instances w cls)
                  then filter (λ c, c ∉ ancestors (onto w) cls false)
                         (is_instance_of i)
                  else is_instance_of i ++ [cls]
              | None => [cls]
              end).
Proof.
  intros Hwf Hww Hdecl Hflag.
  assert (cls ≠ ThingClass) as Hcls by (by intros ->).
  assert (cls ∈ descendants (onto w) cls true) as Hself by set_solver.
  pose proof (proj1 (wf_world_spec w) Hww) as Hall.
  unfold add_instance. rewrite first_or_none_filter_eq.
  destruct (bool_decide_reflect (owl_name db name true ∈ instances w cls))
    as [Hin|Hnin].
  - destruct Hflag as [->|?]; [|done].
    pose proof Hin as Hold.
    apply elem_of_instances in Hin as (i & Hi & Hex).
    assert (ThingClass ∉ is_instance_of i) as Hmeta
      by by eapply wf_world_no_metaclass.
    destruct (set_class_of_is_a_classes (onto w) (is_instance_of i) cls
                Hwf Hmeta Hcls) as (l & Hl & HS & _ & Hfrom).
    pose proof (set_class_of_is_a_member (onto w) (is_instance_of i) cls
                  Hwf Hmeta Hcls Hex) as Hl'.
    rewrite (set_class_of_instance_eq w _ i cls l Hi Hl). simpl.
    eexists _, _. split; [by destruct (_ && _)|]. split_and!.
    + apply elem_of_instances. simpl. eexists. by rewrite lookup_insert_eq.
    + apply wf_world_spec. intros s k c. unfold direct_classes. simpl.
      rewrite lookup_insert. case_decide as Hs.
      * intros [= <-] Hc. destruct (Hfrom c Hc) as [Hc'|[->| ->]]; [|done..].
        apply (Hall (owl_name db name true) (is_instance_of i)); [|done].
        unfold direct_classes. by rewrite Hi.
      * apply Hall.
    + done.
    + done.
    + done.
    + intros q. unfold getattr. simpl. by rewrite lookup_insert_eq, Hi.
    + done.
    + unfold direct_classes. simpl. rewrite lookup_insert_eq, Hi. simpl.
      congruence.
  - simpl. unfold new_individual.
    set (key := match owl_name db name true with
                | [] => numbered_name w cls
                | _ => owl_name db name true
                end).
    eexists _, key. split; [by destruct (_ && _)|]. split_and!.
    + apply elem_of_instances. simpl.
      destruct (individuals w !! key) as [i|]; rewrite lookup_insert_eq;
        eexists; (split; [done|]); exists cls; (split; [|done]); simpl.
      * unfold is_a_append.
        destruct (is_instance_of i); simpl; set_solver.
      * left.
    + apply wf_world_spec. intros s k c. unfold direct_classes. simpl.
      destruct (individuals w !! key) as [i|] eqn:Hi; simpl;
        rewrite lookup_insert; case_decide as Hs; try apply Hall.
      * intros [= <-] Hc.
        assert (c ∈ is_instance_of i ∨ c = cls) as [Hc'| ->]; [| |done].
        { unfold is_a_append in Hc.
          destruct (is_instance_of i); simpl in Hc; set_solver. }
        apply (Hall key (is_instance_of i)); [|done].
        unfold direct_classes. by rewrite Hi.
      * intros [= <-] Hc. by apply list_elem_of_singleton in Hc as ->.
    + done.
    + done.
    + intros Hne. unfold key. by destruct (owl_name db name true).
    + intros q. unfold getattr. simpl.
      destruct (individuals w !! key) as [i|] eqn:Hi;
        by rewrite lookup_insert_eq.
    + done.
    + unfold direct_classes. simpl.
      destruct (individuals w !! key) as [i|] eqn:Hi; simpl;
        rewrite lookup_insert_eq; simpl; [|done].
      unfold is_a_append. by destruct (is_instance_of i).
Qed.

(** C9: on a well-formed store and for a class of the ontology,
    [add_instance] raises (a [KeyError]) exactly when an individual with the
    canonical name is among the instances of the class and the caller passed
    [add_to_class_if_existing = False]; in every other case it raises
    nothing and returns an individual of the resulting store that is an
    instance of the class: the one with the canonical name unless that name
    is empty, and an individual that was there before when the canonical
    name was among the instances. *)
Theorem add_instance_duplicate (db : unicode_db)
    (numbered_name : world → pyclass → pystr) (w : world) (cls : pyclass)
    (name : pystr) (add_to_class_if_existing : bool) :
  wf_taxonomy (onto w) = true → wf_world w = true →
  declared (onto w) cls = true →
  (add_instance db numbered_name w cls name add_to_class_if_existing
   = Raise KeyError
   ↔ owl_name db name true ∈ instances w cls
     ∧ add_to_class_if_existing = false)
  ∧ (¬ (owl_name db name true ∈ instances w cls
        ∧ add_to_class_if_existing = false) →
     ∃ w' instance,
       add_instance db numbered_name w cls name add_to_class_if_existing
       = Ok (w', instance)
       ∧ is_Some (individuals w' !! instance)
       ∧ instance ∈ instances w' cls
       ∧ (owl_name db name true ≠ [] → instance = owl_name db name true)
       ∧ (owl_name db name true ∈ instances w cls →
          instance = owl_name db name true)
       ∧ direct_classes w' instance
         = Some (match individuals w !! instance with
                 | Some i =>
                     if bool_decide (owl_name db name true ∈ instances w cls)
                     then filter (λ c, c ∉ ancestors (onto w) cls false)
                            (is_instance_of i)
                     else is_instance_of i ++ [cls]
                 | None => [cls]
                 end)).
Proof.
  intros Hwf Hww Hdecl.
  assert (¬ (owl_name db name true ∈ instances w cls
             ∧ add_to_class_if_existing = false) →
          ∃ w' instance,
            add_instance db numbered_name w cls name add_to_class_if_existing
            = Ok (w', instance)
            ∧ is_Some (individuals w' !! instance)
            ∧ instance ∈ instances w' cls
            ∧ (owl_name db name true ≠ [] → instance = owl_name db name true)
            ∧ (owl_name db name true ∈ instances w cls →
               instance = owl_name db name true)
            ∧ direct_classes w' instance
              = Some (match individuals w !! instance with
                      | Some i =>
                          if bool_decide
                               (owl_name db name true ∈ instances w cls)
                          then filter
                                 (λ c, c ∉ ancestors (onto w) cls false)
                                 (is_instance_of i)
                          else is_instance_of i ++ [cls]
                      | None => [cls]
                      end)) as Hreturns.
  { intros Hnodup.
    assert (add_to_class_if_existing = true
            ∨ owl_name db name true ∉ instances w cls) as Hflag.
    { destruct add_to_class_if_existing; [by left|]. right.
      intros Hin. by apply Hnodup. }
    destruct (add_instance_ok db numbered_name w cls name
                add_to_class_if_existing Hwf Hww Hdecl Hflag)
      as (w1 & instance & Hadd & Hin & _ & _ & _ & Hinst & _ & Hsame & Hcls).
    eexists _, instance. split; [exact Hadd|].
    assert (instance
            ∈ instances
                (if onto_fancyName w
                    && bool_decide (owl_name db name true ≠ name)
                 then add_property w1 instance "fancyName" (Lit name)
                 else w1) cls) as Hin'.
    { destruct (_ && _); [|done]. by apply instances_add_property. }
    split_and!.
    - by eapply instances_exists.
    - done.
    - done.
    - done.
    - destruct (_ && _); [|done]. by rewrite direct_classes_add_property. }
  split; [|done]. split.
  - intros Hraise.
    destruct (decide (owl_name db name true ∈ instances w cls
                      ∧ add_to_class_if_existing = false)) as [?|Hno]; [done|].
    destruct (Hreturns Hno) as (w' & instance & Hok & _). congruence.
  - intros [Hin ->]. unfold add_instance. rewrite first_or_none_filter_eq.
    by rewrite (bool_decide_eq_true_2
                  (owl_name db name true ∈ instances w cls)) by done.
Qed.

Lemma add_instance_duplicate_witness :
  wf_taxonomy (onto tweety_world) = true ∧ wf_world tweety_world = true
  ∧ declared (onto tweety_world) (Named "Bird") = true
  ∧ add_instance question_mark_db thing1 tweety_world (Named "Bird")
      (py "Tweety") false
    = Raise KeyError.
Proof.
  assert (wf_taxonomy (onto tweety_world) = true) as Hwf by reflexivity.
  assert (wf_world tweety_world = true) as Hww by reflexivity.
  assert (declared (onto tweety_world) (Named "Bird") = true) as Hdecl
    by reflexivity.
  split; [exact Hwf|]. split; [exact Hww|]. split; [exact Hdecl|].
  destruct (add_instance_duplicate question_mark_db thing1 tweety_world
              (Named "Bird") (py "Tweety") false Hwf Hww Hdecl)
    as [[_ Hraise] _].
  apply Hraise. split; [|reflexivity]. vm_compute. repeat constructor.
Defined.

(** X21: unless it raises for a duplicate, [add_instance] returns an
    individual that is an instance of the class, and leaves a well-formed
    store over the same classes. *)
Theorem add_instance_member (db : unicode_db)
    (numbered_name : world → pyclass → pystr) (w : world) (cls : pyclass)
    (name : pystr) (add_to_class_if_existing : bool) :
  wf_taxonomy (onto w) = true → wf_world w = true →
  declared (onto w) cls = true →
  add_to_class_if_existing = true ∨ owl_name db name true ∉ instances w cls →
  ∃ w' instance,
    add_instance db numbered_name w cls name add_to_class_if_existing
    = Ok (w', instance)
    ∧ instance ∈ instances w' cls
    ∧ wf_world w' = true
    ∧ onto w' = onto w.
Proof.
  intros Hwf Hww Hdecl Hflag.
  destruct (add_instance_ok db numbered_name w cls name
              add_to_class_if_existing Hwf Hww Hdecl Hflag)
    as (w1 & instance & Hadd & Hin & Hww1 & Honto & _).
  eexists _, instance. split; [done|].
  destruct (_ && _); [|done]. split_and!.
  - by apply instances_add_property.
  - apply wf_world_spec. intros s l c.
    rewrite direct_classes_add_property.
    destruct (onto_add_property w1 instance "fancyName" (Lit name)) as [-> _].
    by apply wf_world_spec.
  - by destruct (onto_add_property w1 instance "fancyName" (Lit name)) as [-> _].
Qed.

Lemma add_instance_member_witness :
  ∃ w' instance,
    add_instance question_mark_db thing1 tweety_world (Named "Penguin")
      (py "Pingu") false
    = Ok (w', instance)
    ∧ instance ∈ instances w' (Named "Penguin").
Proof.
  destruct (add_instance_member question_mark_db thing1 tweety_world
              (Named "Penguin") (py "Pingu") false)
    as (w' & instance & Hadd & Hin & _).
  - vm_compute. reflexivity.
  - vm_compute. reflexivity.
  - vm_compute. reflexivity.
  - right. intros Hin. apply elem_of_instances in Hin as (i & Hi & _).
    vm_compute in Hi. discriminate.
  - exists w', instance. split; assumption.
Defined.

(** X22: once [add_instance] has returned, the name is taken: the same call
    with [add_to_class_if_existing = False] raises, and with [True] it
    returns the same individual. *)
Theorem add_instance_again (db : unicode_db)
    (numbered_name : world → pyclass → pystr) (w : world) (cls : pyclass)
    (name : pystr) (add_to_class_if_existing : bool) :
  wf_taxonomy (onto w) = true → wf_world w = true →
  declared (onto w) cls = true →
  add_to_class_if_existing = true ∨ owl_name db name true ∉ instances w cls →
  owl_name db name true ≠ [] →
  ∃ w' instance,
    add_instance db numbered_name w cls name add_to_class_if_existing
    = Ok (w', instance)
    ∧ add_instance db numbered_name w' cls name false = Raise KeyError
    ∧ ∃ w'', add_instance db numbered_name w' cls name true
             = Ok (w'', instance).
Proof.
  intros Hwf Hww Hdecl Hflag Hne.
  destruct (add_instance_ok db numbered_name w cls name
              add_to_class_if_existing Hwf Hww Hdecl Hflag)
    as (w1 & instance & Hadd & Hin & Hww1 & Honto & _ & Hinst & _).
  specialize (Hinst Hne). subst instance.
  set (w' := if onto_fancyName w && bool_decide (owl_name db name true ≠ name)
             then add_property w1 (owl_name db name true) "fancyName" (Lit name)
             else w1) in *.
  assert (owl_name db name true ∈ instances w' cls
          ∧ wf_world w' = true ∧ onto w' = onto w) as (Hin' & Hww' & Honto').
  { unfold w'. destruct (_ && _); [|done]. split_and!.
    - by apply instances_add_property.
    - apply wf_world_spec. intros s l c.
      rewrite direct_classes_add_property.
      destruct (onto_add_property w1 (owl_name db name true) "fancyName"
                  (Lit name)) as [-> _].
      by apply wf_world_spec.
    - by destruct (onto_add_property w1 (owl_name db name true) "fancyName"
                     (Lit name)) as [-> _]. }
  exists w', (owl_name db name true). split_and!; [done | |].
  - unfold add_instance. rewrite first_or_none_filter_eq.
    by rewrite (bool_decide_eq_true_2
                  (owl_name db name true ∈ instances w' cls)) by done.
  - destruct (add_instance_ok db numbered_name w' cls name true)
      as (w2 & instance & Hadd2 & _ & _ & _ & _ & Hinst & _);
      [by rewrite Honto' | done | by rewrite Honto' | by left |].
    rewrite (Hinst Hne) in Hadd2. by eauto.
Qed.

Lemma add_instance_again_witness :
  ∃ w' instance,
    add_instance question_mark_db thing1 tweety_world (Named "Penguin")
      (py "Pingu") false
    = Ok (w', instance)
    ∧ add_instance question_mark_db thing1 w' (Named "Penguin") (py "Pingu")
        false
      = Raise KeyError.
Proof.
  destruct (add_instance_again question_mark_db thing1 tweety_world
              (Named "Penguin") (py "Pingu") false)
    as (w' & instance & Hadd & Hdup & _).
  - vm_compute. reflexivity.
  - vm_compute. reflexivity.
  - vm_compute. reflexivity.
  - right. intros Hin. apply elem_of_instances in Hin as (i & Hi & _).
    vm_compute in Hi. discriminate.
  - vm_compute. discriminate.
  - exists w', instance. split; assumption.
Defined.

(** X23: in an ontology that declares [fancyName], [human_name] gives back
    the name [add_instance] was called with, for an individual that held no
    [fancyName] before. *)
Theorem human_name_add_instance (db : unicode_db)
    (numbered_name : world → pyclass → pystr) (w : world) (cls : pyclass)
    (name : pystr) (add_to_class_if_existing : bool) :
  wf_taxonomy (onto w) = true → wf_world w = true →
  declared (onto w) cls = true →
  add_to_class_if_existing = true ∨ owl_name db name true ∉ instances w cls →
  onto_fancyName w = true → name ≠ [] →
  ∃ w' instance,
    add_instance db numbered_name w cls name add_to_class_if_existing
    = Ok (w', instance)
    ∧ (getattr w instance "fancyName" = [] →
       human_name w' instance = Some (Lit name)).
Proof.
  intros Hwf Hww Hdecl Hflag Hfancy Hname.
  destruct (add_instance_ok db numbered_name w cls name
              add_to_class_if_existing Hwf Hww Hdecl Hflag)
    as (w1 & instance & Hadd & Hin & _ & _ & Hfancy1 & Hinst & Hattr & _).
  eexists _, instance. split; [done|]. intros Hnone.
  rewrite Hfancy. simpl. case_bool_decide as Hcanon; unfold human_name.
  - destruct (onto_add_property w1 instance "fancyName" (Lit name))
      as [_ ->].
    rewrite Hfancy1, Hfancy, getattr_add_property, decide_True.
    2:{ split_and!; [done | done | by eapply instances_exists |].
        rewrite Hattr, Hnone. apply not_elem_of_nil. }
    rewrite Hattr, Hnone. simpl. by destruct name.
  - rewrite Hfancy1, Hfancy, Hattr, Hnone. simpl.
    rewrite <-Hcanon in Hname. by rewrite (Hinst Hname), Hcanon.
Qed.

Lemma human_name_add_instance_witness :
  ∃ w' instance,
    add_instance question_mark_db thing1 tweety_world (Named "Penguin")
      (py "Emperor penguin") false
    = Ok (w', instance)
    ∧ (getattr tweety_world instance "fancyName" = [] →
       human_name w' instance = Some (Lit (py "Emperor penguin"))).
Proof.
  apply (human_name_add_instance question_mark_db thing1 tweety_world
           (Named "Penguin") (py "Emperor penguin") false).
  - vm_compute. reflexivity.
  - vm_compute. reflexivity.
  - vm_compute. reflexivity.
  - right. intros Hin. apply elem_of_instances in Hin as (i & Hi & _).
    vm_compute in Hi. discriminate.
  - reflexivity.
  - discriminate.
Defined.


(** ** What merging keeps and what it adds *)

(** A relation that holds across every [add_property] on [s1] for a
    property other than [fancyName] holds across the loop of
    [merge_instances]. *)
Lemma merge_loop_rel (R : world → world → Prop) (s1 s2 : pystr) :
  (∀ w, R w w) → (∀ a b c, R a b → R b c → R a c) →
  (∀ w q v, q ≠ "fancyName" → R w (add_property w s1 q v)) →
  ∀ props w,
    R w (foldl (λ w prop,
                  if bool_decide (prop ≠ "fancyName")
                  then foldl (λ w value, add_property w s1 prop value)
                         w (getattr w s2 prop)
                  else w) w props).
Proof.
  intros Hrefl Htrans Hstep props.
  induction props as [|p props IH]; intros w; simpl; [done|].
  eapply Htrans; [|apply IH].
  case_bool_decide as Hp; [|done].
  generalize (getattr w s2 p). intros vs. revert w.
  induction vs as [|v vs IHvs]; intros w; simpl; [done|].
  eapply Htrans; [|apply IHvs]. by apply Hstep.
Qed.

(** The loop leaves the classes, the other individuals and the [fancyName]
    of the survivor alone; the survivor's lists grow at the end and stay
    without duplicates. *)
Lemma merge_loop_frame (s1 s2 : pystr) (props : list string) (w : world) :
  let w' :=
    foldl (λ w prop,
             if bool_decide (prop ≠ "fancyName")
             then foldl (λ w value, add_property w s1 prop value)
                    w (getattr w s2 prop)
             else w) w props in
  (∀ s, direct_classes w' s = direct_classes w s)
  ∧ onto w' = onto w
  ∧ (∀ s q, s ≠ s1 ∨ q = "fancyName" → getattr w' s q = getattr w s q)
  ∧ (∀ s q, getattr w s q `prefix_of` getattr w' s q)
  ∧ (∀ s q, NoDup (getattr w s q) → NoDup (getattr w' s q)).
Proof.
  apply (merge_loop_rel
           (λ w w', (∀ s, direct_classes w' s = direct_classes w s)
                    ∧ onto w' = onto w
                    ∧ (∀ s q, s ≠ s1 ∨ q = "fancyName" →
                              getattr w' s q = getattr w s q)
                    ∧ (∀ s q, getattr w s q `prefix_of` getattr w' s q)
                    ∧ (∀ s q, NoDup (getattr w s q) → NoDup (getattr w' s q)))
           s1 s2).
  - intros w0. by split_and!.
  - intros a b c (Hc1 & Ho1 & Hf1 & Hp1 & Hn1) (Hc2 & Ho2 & Hf2 & Hp2 & Hn2).
    split_and!.
    + intros s. by rewrite Hc2.
    + by rewrite Ho2.
    + intros s q Hsq. by rewrite Hf2, Hf1.
    + intros s q. etrans; [apply Hp1 | apply Hp2].
    + intros s q Hnd. by apply Hn2, Hn1.
  - intros w0 q v Hq. split_and!.
    + intros s. apply direct_classes_add_property.
    + apply onto_add_property.
    + intros s q' Hsq. rewrite getattr_add_property.
      rewrite decide_False; [done|]. intros (<- & <- & _). by destruct Hsq.
    + intros s q'. rewrite getattr_add_property. case_decide as Heq; [|done].
      destruct Heq as (<- & <- & _). by apply prefix_app_r.
    + intros s q' Hnd. rewrite getattr_add_property.
      case_decide as Heq; [|done].
      destruct Heq as (<- & <- & _ & Hv). apply NoDup_app. split_and!.
      * done.
      * by intros x Hx ->%list_elem_of_singleton.
      * apply NoDup_singleton.
Qed.

(** Every value the loop leaves with the survivor was there before or was
    a value of the absorbed individual, under a property other than
    [fancyName]. *)
Lemma merge_loop_from (s1 s2 : pystr) (props : list string) (w : world) q x :
  s1 ≠ s2 →
  x ∈ getattr
        (foldl (λ w prop,
                  if bool_decide (prop ≠ "fancyName")
                  then foldl (λ w value, add_property w s1 prop value)
                         w (getattr w s2 prop)
                  else w) w props) s1 q →
  x ∈ getattr w s1 q ∨ (q ≠ "fancyName" ∧ x ∈ getattr w s2 q).
Proof.
  intros Hne. revert w. induction props as [|p props IH]; intros w; simpl.
  { by left. }
  set (w1 := if bool_decide (p ≠ "fancyName")
             then foldl (λ w value, add_property w s1 p value)
                    w (getattr w s2 p)
             else w).
  intros Hx. apply IH in Hx.
  assert (getattr w1 s2 q = getattr w s2 q) as Hs2.
  { destruct (merge_loop_frame s1 s2 [p] w) as (_ & _ & Hframe & _).
    simpl in Hframe. apply Hframe. left. done. }
  rewrite Hs2 in Hx. destruct Hx as [Hx|?]; [|by right].
  unfold w1 in Hx. case_bool_decide as Hp; [|by left].
  clear w1 Hs2 IH. revert Hx.
  assert (∀ vs w0,
    x ∈ getattr (foldl (λ w value, add_property w s1 p value) w0 vs) s1 q →
    x ∈ getattr w0 s1 q ∨ (q = p ∧ x ∈ vs)) as Hvalues.
  { induction vs as [|v vs IHvs]; intros w0; simpl; [by left|].
    intros Hx. apply IHvs in Hx as [Hx|[-> Hx]].
    - rewrite getattr_add_property in Hx. case_decide as Heq; [|by left].
      destruct Heq as (_ & <- & _).
      apply elem_of_app in Hx as [?| ->%list_elem_of_singleton]; [by left|].
      right. split; [done | left].
    - right. split; [done | by right]. }
  intros Hx. apply Hvalues in Hx as [?|[-> Hx]]; [by left | by right].
Qed.

Lemma merge_instances_eq (w : world) (instance1 instance2 : pystr)
    (cls : pyclass) :
  instance1 ∈ instances w cls → instance2 ∈ instances w cls →
  (merge_instances w instance1 instance2 cls).2
  = destroy_entity
      (foldl (λ w prop,
                if bool_decide (prop ≠ "fancyName")
                then foldl (λ w value, add_property w instance1 prop value)
                       w (getattr w instance2 prop)
                else w) w (get_properties w instance2))
      instance2.
Proof.
  intros H1 H2. unfold merge_instances.
  by rewrite !bool_decide_eq_true_2 by done.
Qed.

Lemma direct_classes_destroy_entity (w : world) (s s' : pystr) :
  direct_classes (destroy_entity w s) s'
  = if decide (s = s') then None else direct_classes w s'.
Proof.
  unfold direct_classes, destroy_entity. simpl.
  rewrite lookup_fmap, lookup_delete. case_decide; [done|].
  by destruct (individuals w !! s').
Qed.

Lemma getattr_destroy_entity_self (w : world) (s : pystr) q :
  getattr (destroy_entity w s) s q = [].
Proof. unfold getattr. by rewrite destroy_entity_gone. Qed.

(** X24: a merge that takes place leaves every other individual and the
    survivor's [fancyName] as they were, up to the references to the
    absorbed individual, which are gone everywhere; the absorbed individual
    leaves every class and nobody else changes class. *)
Theorem merge_instances_frame (w : world) (instance1 instance2 : pystr)
    (cls : pyclass) :
  instance1 ∈ instances w cls → instance2 ∈ instances w cls →
  let w' := (merge_instances w instance1 instance2 cls).2 in
  (∀ s q, s ≠ instance2 → s ≠ instance1 ∨ q = "fancyName" →
          getattr w' s q = filter (λ v, v ≠ Ind instance2) (getattr w s q))
  ∧ (∀ s q, Ind instance2 ∉ getattr w' s q)
  ∧ (∀ s, s ≠ instance2 → direct_classes w' s = direct_classes w s)
  ∧ (∀ cls' x, x ∈ instances w' cls' ↔ x ≠ instance2 ∧ x ∈ instances w cls').
Proof.
  intros H1 H2 w'. unfold w'. rewrite merge_instances_eq by done.
  destruct (merge_loop_frame instance1 instance2 (get_properties w instance2) w)
    as (Hcls & Honto & Hframe & _).
  split_and!.
  - intros s q Hs Hsq. rewrite getattr_destroy_entity by done.
    by rewrite Hframe.
  - intros s q. destruct (decide (s = instance2)) as [->|Hs].
    + rewrite getattr_destroy_entity_self. apply not_elem_of_nil.
    + rewrite getattr_destroy_entity by done.
      intros Hin. by apply list_elem_of_filter in Hin as [? _].
  - intros s Hs. rewrite direct_classes_destroy_entity.
    rewrite decide_False by done. apply Hcls.
  - intros cls' x. rewrite !elem_of_instances_direct.
    rewrite direct_classes_destroy_entity. simpl. rewrite Honto.
    case_decide as Hx.
    + subst x. split; [by intros (? & ? & _) | by intros [? _]].
    + rewrite Hcls. naive_solver.
Qed.

Lemma merge_instances_frame_witness :
  py "tweety" ∈ instances pingu_world (Named "Bird")
  ∧ py "pingu" ∈ instances pingu_world (Named "Bird")
  ∧ getattr (merge_instances pingu_world (py "tweety") (py "pingu")
               (Named "Bird")).2 (py "tweety") "fancyName"
    = filter (λ v, v ≠ Ind (py "pingu"))
        (getattr pingu_world (py "tweety") "fancyName").
Proof.
  assert (py "tweety" ∈ instances pingu_world (Named "Bird")) as H1.
  { vm_compute. repeat constructor. }
  assert (py "pingu" ∈ instances pingu_world (Named "Bird")) as H2.
  { vm_compute. repeat constructor. }
  split; [exact H1|]. split; [exact H2|].
  apply (proj1 (merge_instances_frame pingu_world (py "tweety")
                  (py "pingu") (Named "Bird") H1 H2)).
  - vm_compute. discriminate.
  - by right.
Defined.

(** X25: after a merge of two different individuals the survivor holds,
    under each property, its own values and (except under [fancyName]) those
    of the absorbed individual, without the references to the absorbed
    individual, and nothing else; its own values stay in front, and a list
    without duplicates stays without duplicates. *)
Theorem merge_instances_union (w : world) (instance1 instance2 : pystr)
    (cls : pyclass) :
  instance1 ∈ instances w cls → instance2 ∈ instances w cls →
  instance1 ≠ instance2 →
  let w' := (merge_instances w instance1 instance2 cls).2 in
  (∀ q v, v ∈ getattr w' instance1 q ↔
          v ≠ Ind instance2
          ∧ (v ∈ getattr w instance1 q
             ∨ (q ≠ "fancyName" ∧ v ∈ getattr w instance2 q)))
  ∧ (∀ q, filter (λ v, v ≠ Ind instance2) (getattr w instance1 q)
          `prefix_of` getattr w' instance1 q)
  ∧ (∀ q, NoDup (getattr w instance1 q) → NoDup (getattr w' instance1 q)).
Proof.
  intros H1 H2 Hne w'. unfold w'. rewrite merge_instances_eq by done.
  destruct (merge_loop_frame instance1 instance2 (get_properties w instance2) w)
    as (_ & _ & _ & Hprefix & Hnodup).
  destruct (merge_loop_grows instance1 instance2 (get_properties w instance2) w
              Hne (instances_exists _ _ _ H1)) as [(Hmono & _) Hadded].
  split_and!.
  - intros q v. rewrite getattr_destroy_entity by done.
    rewrite list_elem_of_filter. split.
    + intros [Hv Hin]. split; [done|]. by eapply merge_loop_from.
    + intros [Hv [Hin|[Hq Hin]]]; (split; [done|]).
      * by apply Hmono.
      * apply Hadded; [|done..]. by eapply elem_of_get_properties.
  - intros q. rewrite getattr_destroy_entity by done.
    destruct (Hprefix instance1 q) as [k ->]. rewrite filter_app.
    by apply prefix_app_r.
  - intros q Hnd. rewrite getattr_destroy_entity by done.
    by apply NoDup_filter, Hnodup.
Qed.

Lemma merge_instances_union_witness :
  py "tweety" ∈ instances pingu_world (Named "Bird")
  ∧ py "pingu" ∈ instances pingu_world (Named "Bird")
  ∧ py "tweety" ≠ py "pingu"
  ∧ NoDup (getattr (merge_instances pingu_world (py "tweety") (py "pingu")
                      (Named "Bird")).2 (py "tweety") "knows").
Proof.
  assert (py "tweety" ∈ instances pingu_world (Named "Bird")) as H1.
  { vm_compute. repeat constructor. }
  assert (py "pingu" ∈ instances pingu_world (Named "Bird")) as H2.
  { vm_compute. repeat constructor. }
  assert (py "tweety" ≠ py "pingu") as Hne.
  { vm_compute. discriminate. }
  split; [exact H1|]. split; [exact H2|]. split; [exact Hne|].
  apply (proj2 (proj2 (merge_instances_union pingu_world (py "tweety")
                         (py "pingu") (Named "Bird") H1 H2 Hne))).
  vm_compute. constructor.
Defined.


(** ** The requests of [GPT3.get_ent_tuples] *)

Lemma get_ent_tuples_requests_ok (fuel : nat) (n : Z) :
  (n ≤ Z.of_nat fuel)%Z →
  ∃ l, get_ent_tuples_requests fuel n = Some l
       ∧ foldr Z.add 0%Z l = Z.max 0 n
       ∧ Forall (λ k, 1 ≤ k ≤ 128)%Z l
       ∧ Z.of_nat (length l) = ((Z.max 0 n + 127) `div` 128)%Z.
Proof.
  revert n. induction fuel as [|fuel IH]; intros n Hn.
  { exists []. simpl. rewrite bool_decide_eq_false_2 by lia.
    split_and!; [done | simpl; lia | done |].
    simpl. rewrite Z.max_l by lia. done. }
  destruct (decide (0 < n)%Z) as [Hpos|Hneg].
  2:{ exists []. simpl. rewrite bool_decide_eq_false_2 by lia.
      split_and!; [done | simpl; lia | done |].
      simpl. rewrite Z.max_l by lia. done. }
  destruct (IH (n - Z.min n 128)%Z) as (l & Hl & Hsum & Hall & Hlen); [lia|].
  exists (Z.min n 128 :: l). simpl.
  rewrite bool_decide_eq_true_2 by lia. rewrite Hl. simpl.
  split_and!.
  - done.
  - rewrite Hsum. lia.
  - constructor; [lia | done].
  - rewrite Nat2Z.inj_succ, Hlen. rewrite (Z.max_r 0 n) by lia.
    destruct (decide (n ≤ 128)%Z) as [Hsmall|Hbig].
    + assert (((0 `max` (n - n `min` 128) + 127) `div` 128 = 0)%Z) as ->.
      { rewrite Z.min_l, Z.sub_diag, Z.max_l by lia. reflexivity. }
      apply (Z.div_unique (n + 127) 128 (Z.succ 0) (n - 1)); lia.
    + rewrite Z.min_r by lia. rewrite Z.max_r by lia.
      replace (n + 127)%Z with ((n - 128 + 127) + 1 * 128)%Z by lia.
      rewrite Z.div_add by lia. lia.
Qed.

(** X26: to obtain [n] completions [get_ent_tuples] sends the fewest
    possible requests of at most 128 completions each: the sizes add up to
    [n] (to nothing when [n] is not positive), each is between 1 and 128,
    and there are [n / 128] of them, rounded up. *)
Theorem get_ent_tuples_requests_spec (n : Z) :
  ∃ l, get_ent_tuples_requests (Z.to_nat n) n = Some l
       ∧ foldr Z.add 0%Z l = Z.max 0 n
       ∧ Forall (λ k, 1 ≤ k ≤ 128)%Z l
       ∧ Z.of_nat (length l) = ((Z.max 0 n + 127) `div` 128)%Z.
Proof. apply get_ent_tuples_requests_ok. lia. Qed.
